(** * The cache reader of libbcc ([lib/bcc/CacheReader.cpp])

    A shallow embedding of [CacheReader::readCacheFile] and of the
    checks it chains, with the properties of the reader proved over it.

    The reader is a C++ object that is mutated by every step and that
    talks to the file system and to the allocator.  It is embedded as a
    record of its members together with the part of the process
    environment it touches; every member function is a computation in a
    state monad whose result is either a value and the next state, or
    [Undefined] when the C++ code steps outside defined behaviour
    (dereference of a null pointer, access outside a buffer, signed
    overflow). *)

From Stdlib Require Import ZArith Lia Ascii String.
From stdpp Require Import base strings list gmap.

#[local] Open Scope Z_scope.

(** ** Bytes, integers *)

Abbreviation byte := ascii.

Definition byte_val (b : byte) : Z := Z.of_N (N_of_ascii b).

Definition NUL : byte := Ascii.zero.

(** Value of [z] after conversion to an unsigned, respectively signed
    (two's complement), integer type of [bits] bits. *)
Definition wrap_unsigned (bits z : Z) : Z := z mod 2 ^ bits.

Definition wrap_signed (bits z : Z) : Z :=
  (z + 2 ^ (bits - 1)) mod 2 ^ bits - 2 ^ (bits - 1).

Definition fits_signed (bits z : Z) : bool :=
  (- 2 ^ (bits - 1) <=? z) && (z <? 2 ^ (bits - 1)).

(** Byte at address [base + p] of a buffer whose bytes are [buf]. *)
Definition byte_at (buf : list byte) (p : Z) : option byte :=
  if 0 <=? p then buf !! Z.to_nat p else None.

(** ** The structures of [bcc_cache.h]

    The header that declares them is not among the sources; the records
    below have the fields [CacheReader.cpp] uses, under the names it
    uses, but for the three recorded widths of the header, which carry
    the prefix [h_] to leave [sizeof_off_t] and the like to the host. *)

Record OBCC_Header := {
  magic : list byte;
  version : list byte;
  endianness : byte;
  h_sizeof_off_t : Z;
  h_sizeof_size_t : Z;
  h_sizeof_ptr_t : Z;
  str_pool_offset : Z;          str_pool_size : Z;
  depend_tab_offset : Z;        depend_tab_size : Z;
  reloc_tab_offset : Z;         reloc_tab_size : Z;
  export_var_list_offset : Z;   export_var_list_size : Z;
  export_func_list_offset : Z;  export_func_list_size : Z;
  pragma_list_offset : Z;       pragma_list_size : Z;
  func_table_offset : Z;        func_table_size : Z;
  context_cached_addr : Z;
  context_offset : Z;
  context_parity_checksum : Z;
}.

(** [length] and [offset] in the source; [size] in [OBCC_FuncInfo]. *)
Record OBCC_String := { str_length : Z; str_offset : Z }.

Record OBCC_Dependency := {
  res_name_strp_index : Z;
  res_type : Z;
  sha1 : list byte;
}.

Record OBCC_Pragma := { key_strp_index : Z; value_strp_index : Z }.

Record OBCC_FuncInfo := {
  name_strp_index : Z;
  cached_addr : Z;
  func_size : Z;
}.

(** A section buffer seen through a structure made of a [count] and a
    flexible array of records: [ov_count] is the count when the buffer
    is large enough to hold one, [ov_at buf i] the [i]-th record when
    the buffer holds it entirely. *)
Record Overlay (R : Type) := {
  ov_count : list byte → option Z;
  ov_at : list byte → nat → option R;
}.
Arguments ov_count {R}.
Arguments ov_at {R}.

(** ** The platform

    What the compiler, the C library and the headers outside the
    sources fix: the host's byte order and type widths, the page size,
    the constants of [bcc_cache.h] and [ContextManager.h], and how the
    bytes of a buffer are laid out as the structures above. *)
Class Platform := {
  isLittleEndian : bool;
  sizeof_off_t : Z;
  sizeof_size_t : Z;
  sizeof_ptr : Z;
  sizeof_int : Z;
  pagesize : Z;
  BCC_CONTEXT_SIZE : Z;
  sizeof_OBCC_Header : Z;
  OBCC_MAGIC : list byte;
  OBCC_VERSION : list byte;
  as_Header : list byte → OBCC_Header;
  as_StringPool : Overlay OBCC_String;
  as_DependencyTable : Overlay OBCC_Dependency;
  as_PragmaList : Overlay OBCC_Pragma;
  as_FuncTable : Overlay OBCC_FuncInfo;
}.

(** ** Collaborators

    Modelled from the spec: [FileHandle] ([FileHandle.h] and its
    implementation are not among the sources), the bounded file
    accessor that "supplies seek/read primitives and a file size".  A
    handle is a descriptor, the bytes of the file and the current
    position. *)
Record FileHandle := {
  getFD : Z;
  contents : list byte;
  position : Z;
}.

(** Modelled from the spec: the result object, [ScriptCached]
    ([ScriptCached.h] is not among the sources), with the members the
    reader fills in; the pragmas are a "sequence of (key, value)" and
    the function table is "a mapping from function name to (address,
    size)".  A [char const *] into the string pool is the offset of the
    character from the base of [mpStringPoolRaw]. *)
Record ScriptCached := {
  mpStringPoolRaw : option (list byte);
  mStringPool : list Z;
  mpExportVars : option (list byte);
  mpExportFuncs : option (list byte);
  mPragmas : list (Z * Z);
  mFunctions : gmap string (Z * Z);
  mContext : option (list byte);
}.

Definition new_ScriptCached : ScriptCached :=
  {| mpStringPoolRaw := None; mStringPool := [];
     mpExportVars := None; mpExportFuncs := None;
     mPragmas := []; mFunctions := ∅; mContext := None |}.

(** ** Events and log *)

Inductive LogArg := ArgZ (z : Z) | ArgS (s : string) | ArgB (bs : list byte).

Inductive Event :=
| EvNew
| EvMalloc (n : Z)
| EvFstat (fd : Z)
| EvSeek (off : Z)
| EvRead (pos n : Z)
| EvAllocateContext (addr fd off : Z)
| EvLOGE (fmt : string) (args : list LogArg)
| EvLOGI (fmt : string).

(** ** The reader

    The members of [CacheReader], then the environment: [heap] gives
    the outcome of the allocations still to come (when it is exhausted
    they succeed), [can_map] tells at which addresses the context
    manager can place a context, [events] is the history of what the
    reader did to its environment. *)
Record CacheReader := {
  mFile : option FileHandle;
  mFileSize : Z;
  mpHeader : option (list byte);
  mpCachedDependTable : option (list byte);
  mpPragmaList : option (list byte);
  mpFuncTable : option (list byte);
  mpResult : option ScriptCached;
  mDependencies : list (string * (Z * list byte));
  heap : list bool;
  can_map : Z → bool;
  events : list Event;
}.

(** ** The monad *)

Inductive Outcome (A : Type) :=
| Done (a : A)
| Undefined.
Arguments Done {A}.
Arguments Undefined {A}.

Definition M (A : Type) : Type := CacheReader → Outcome (A * CacheReader).

Definition ret {A} (a : A) : M A := λ s, Done (a, s).

Definition bind {A B} (m : M A) (k : A → M B) : M B :=
  λ s, match m s with
       | Done (a, s') => k a s'
       | Undefined => Undefined
       end.

Definition undefined {A} : M A := λ _, Undefined.

Declare Scope cr_scope.
Delimit Scope cr_scope with cr.
Notation "x <- m ;; k" := (bind m (λ x, k))
  (at level 100, m at next level, right associativity) : cr_scope.
Notation "m ;;; k" := (bind m (λ _, k))
  (at level 100, right associativity) : cr_scope.

(** C++'s short-circuit conjunction of two calls: the second is not run
    when the first returns [false]. *)
Definition and_then (a b : M bool) : M bool :=
  bind a (λ r : bool, if r then b else ret false).
Notation "a && b" := (and_then a b) : cr_scope.
#[local] Open Scope cr_scope.

Definition get : M CacheReader := λ s, Done (s, s).
Definition put (s : CacheReader) : M unit := λ _, Done (tt, s).
Definition modify (f : CacheReader → CacheReader) : M unit :=
  λ s, Done (tt, f s).

(** Dereference of a pointer: undefined when it is null. *)
Definition deref {A} (p : option A) : M A :=
  match p with Some a => ret a | None => undefined end.

(** ** Member updates *)

Definition set_mFile (v : option FileHandle) (s : CacheReader) : CacheReader :=
  {| mFile := v; mFileSize := mFileSize s; mpHeader := mpHeader s;
     mpCachedDependTable := mpCachedDependTable s;
     mpPragmaList := mpPragmaList s; mpFuncTable := mpFuncTable s;
     mpResult := mpResult s; mDependencies := mDependencies s;
     heap := heap s; can_map := can_map s; events := events s |}.

Definition set_mFileSize (v : Z) (s : CacheReader) : CacheReader :=
  {| mFile := mFile s; mFileSize := v; mpHeader := mpHeader s;
     mpCachedDependTable := mpCachedDependTable s;
     mpPragmaList := mpPragmaList s; mpFuncTable := mpFuncTable s;
     mpResult := mpResult s; mDependencies := mDependencies s;
     heap := heap s; can_map := can_map s; events := events s |}.

Definition set_mpHeader (v : option (list byte)) (s : CacheReader) : CacheReader :=
  {| mFile := mFile s; mFileSize := mFileSize s; mpHeader := v;
     mpCachedDependTable := mpCachedDependTable s;
     mpPragmaList := mpPragmaList s; mpFuncTable := mpFuncTable s;
     mpResult := mpResult s; mDependencies := mDependencies s;
     heap := heap s; can_map := can_map s; events := events s |}.

Definition set_mpCachedDependTable (v : option (list byte)) (s : CacheReader)
  : CacheReader :=
  {| mFile := mFile s; mFileSize := mFileSize s; mpHeader := mpHeader s;
     mpCachedDependTable := v;
     mpPragmaList := mpPragmaList s; mpFuncTable := mpFuncTable s;
     mpResult := mpResult s; mDependencies := mDependencies s;
     heap := heap s; can_map := can_map s; events := events s |}.

Definition set_mpPragmaList (v : option (list byte)) (s : CacheReader)
  : CacheReader :=
  {| mFile := mFile s; mFileSize := mFileSize s; mpHeader := mpHeader s;
     mpCachedDependTable := mpCachedDependTable s;
     mpPragmaList := v; mpFuncTable := mpFuncTable s;
     mpResult := mpResult s; mDependencies := mDependencies s;
     heap := heap s; can_map := can_map s; events := events s |}.

Definition set_mpFuncTable (v : option (list byte)) (s : CacheReader)
  : CacheReader :=
  {| mFile := mFile s; mFileSize := mFileSize s; mpHeader := mpHeader s;
     mpCachedDependTable := mpCachedDependTable s;
     mpPragmaList := mpPragmaList s; mpFuncTable := v;
     mpResult := mpResult s; mDependencies := mDependencies s;
     heap := heap s; can_map := can_map s; events := events s |}.

Definition set_mpResult (v : option ScriptCached) (s : CacheReader)
  : CacheReader :=
  {| mFile := mFile s; mFileSize := mFileSize s; mpHeader := mpHeader s;
     mpCachedDependTable := mpCachedDependTable s;
     mpPragmaList := mpPragmaList s; mpFuncTable := mpFuncTable s;
     mpResult := v; mDependencies := mDependencies s;
     heap := heap s; can_map := can_map s; events := events s |}.

Definition set_heap (v : list bool) (s : CacheReader) : CacheReader :=
  {| mFile := mFile s; mFileSize := mFileSize s; mpHeader := mpHeader s;
     mpCachedDependTable := mpCachedDependTable s;
     mpPragmaList := mpPragmaList s; mpFuncTable := mpFuncTable s;
     mpResult := mpResult s; mDependencies := mDependencies s;
     heap := v; can_map := can_map s; events := events s |}.

Definition set_events (v : list Event) (s : CacheReader) : CacheReader :=
  {| mFile := mFile s; mFileSize := mFileSize s; mpHeader := mpHeader s;
     mpCachedDependTable := mpCachedDependTable s;
     mpPragmaList := mpPragmaList s; mpFuncTable := mpFuncTable s;
     mpResult := mpResult s; mDependencies := mDependencies s;
     heap := heap s; can_map := can_map s; events := v |}.

Definition set_position (v : Z) (f : FileHandle) : FileHandle :=
  {| getFD := getFD f; contents := contents f; position := v |}.

Definition set_mpStringPoolRaw (v : option (list byte)) (r : ScriptCached)
  : ScriptCached :=
  {| mpStringPoolRaw := v; mStringPool := mStringPool r;
     mpExportVars := mpExportVars r; mpExportFuncs := mpExportFuncs r;
     mPragmas := mPragmas r; mFunctions := mFunctions r;
     mContext := mContext r |}.

Definition set_mStringPool (v : list Z) (r : ScriptCached) : ScriptCached :=
  {| mpStringPoolRaw := mpStringPoolRaw r; mStringPool := v;
     mpExportVars := mpExportVars r; mpExportFuncs := mpExportFuncs r;
     mPragmas := mPragmas r; mFunctions := mFunctions r;
     mContext := mContext r |}.

Definition set_mpExportVars (v : option (list byte)) (r : ScriptCached)
  : ScriptCached :=
  {| mpStringPoolRaw := mpStringPoolRaw r; mStringPool := mStringPool r;
     mpExportVars := v; mpExportFuncs := mpExportFuncs r;
     mPragmas := mPragmas r; mFunctions := mFunctions r;
     mContext := mContext r |}.

Definition set_mpExportFuncs (v : option (list byte)) (r : ScriptCached)
  : ScriptCached :=
  {| mpStringPoolRaw := mpStringPoolRaw r; mStringPool := mStringPool r;
     mpExportVars := mpExportVars r; mpExportFuncs := v;
     mPragmas := mPragmas r; mFunctions := mFunctions r;
     mContext := mContext r |}.

Definition set_mPragmas (v : list (Z * Z)) (r : ScriptCached) : ScriptCached :=
  {| mpStringPoolRaw := mpStringPoolRaw r; mStringPool := mStringPool r;
     mpExportVars := mpExportVars r; mpExportFuncs := mpExportFuncs r;
     mPragmas := v; mFunctions := mFunctions r;
     mContext := mContext r |}.

Definition set_mFunctions (v : gmap string (Z * Z)) (r : ScriptCached)
  : ScriptCached :=
  {| mpStringPoolRaw := mpStringPoolRaw r; mStringPool := mStringPool r;
     mpExportVars := mpExportVars r; mpExportFuncs := mpExportFuncs r;
     mPragmas := mPragmas r; mFunctions := v;
     mContext := mContext r |}.

Definition set_mContext (v : option (list byte)) (r : ScriptCached)
  : ScriptCached :=
  {| mpStringPoolRaw := mpStringPoolRaw r; mStringPool := mStringPool r;
     mpExportVars := mpExportVars r; mpExportFuncs := mpExportFuncs r;
     mPragmas := mPragmas r; mFunctions := mFunctions r;
     mContext := v |}.

(** ** Primitives *)

Definition emit (e : Event) : M unit :=
  modify (λ s, set_events (events s ++ [e]) s).

Definition LOGE (fmt : string) (args : list LogArg) : M unit :=
  emit (EvLOGE fmt args).

Definition LOGI (fmt : string) : M unit := emit (EvLOGI fmt).

(** [malloc] and [new (nothrow)]: [true] when the allocation gives a
    non-null pointer. *)
Definition allocate (e : Event) : M bool :=
  emit e ;;;
  s <- get ;;
  match heap s with
  | [] => ret true
  | ok :: rest => modify (set_heap rest) ;;; ret ok
  end.

(** [mFile->]: the handle behind the reader's file pointer. *)
Definition the_file : M FileHandle := s <- get ;; deref (mFile s).

(** [mpResult->]: the result object under construction. *)
Definition the_result : M ScriptCached := s <- get ;; deref (mpResult s).

Definition modify_result (f : ScriptCached → ScriptCached) : M unit :=
  r <- the_result ;; modify (set_mpResult (Some (f r))).

(** [fstat(fd, &stfile)] on the descriptor of handle [f]: [st_size], or
    nothing when the call fails. *)
Definition fstat (f : FileHandle) : M (option Z) :=
  emit (EvFstat (getFD f)) ;;;
  if getFD f <? 0 then ret None
  else ret (Some (Z.of_nat (List.length (contents f)))).

(** [mFile->seek(off, SEEK_SET)]: the new position, [-1] on failure. *)
Definition FileHandle_seek (off : Z) : M Z :=
  f <- the_file ;;
  emit (EvSeek off) ;;;
  if ((getFD f <? 0) || (off <? 0))%bool then ret (-1)
  else modify (set_mFile (Some (set_position off f))) ;;; ret off.

(** [mFile->read(buf, n)]: the number of bytes read ([-1] on failure)
    and the bytes put in [buf]. *)
Definition FileHandle_read (n : Z) : M (Z * list byte) :=
  f <- the_file ;;
  emit (EvRead (position f) n) ;;;
  if getFD f <? 0 then ret (-1, [])
  else
    let bs := take (Z.to_nat n) (drop (Z.to_nat (position f)) (contents f)) in
    let got := Z.of_nat (List.length bs) in
    modify (set_mFile (Some (set_position (position f + got) f))) ;;;
    ret (got, bs).

(** Loops [for (size_t i = i0; i < i0 + n; ++i)]: [for_range] runs a
    body that may return from the enclosing function ([Some r]),
    [for_fold] a body that updates a local variable. *)
Fixpoint for_range {R} (i n : nat) (body : nat → M (option R)) : M (option R) :=
  match n with
  | O => ret None
  | S n' =>
      r <- body i ;;
      match r with
      | Some x => ret (Some x)
      | None => for_range (S i) n' body
      end
  end.

Fixpoint for_fold {A} (i n : nat) (acc : A) (body : nat → A → M A) : M A :=
  match n with
  | O => ret acc
  | S n' => acc' <- body i acc ;; for_fold (S i) n' acc' body
  end.

(** [v[i]] on a [std::vector]: no range check, undefined outside. *)
Definition vector_at {A} (v : list A) (i : Z) : M A :=
  deref (if 0 <=? i then v !! Z.to_nat i else None).

(** The C string that starts at offset [p] of buffer [buf]: the bytes up
    to the first NUL; nothing when the buffer ends before one is met. *)
Fixpoint c_str_from (bs : list byte) : option string :=
  match bs with
  | [] => None
  | b :: rest =>
      if Ascii.eqb b NUL then Some EmptyString
      else match c_str_from rest with
           | Some s => Some (String b s)
           | None => None
           end
  end.

Definition c_str (buf : list byte) (p : Z) : option string :=
  if 0 <=? p then c_str_from (drop (Z.to_nat p) buf) else None.

(** ** [CacheReader.cpp] *)

Section CacheReader.
Context `{P : Platform}.

Definition off_t_bits : Z := 8 * sizeof_off_t.
Definition size_t_bits : Z := 8 * sizeof_size_t.

(** [a + b] in [off_t]: signed arithmetic, undefined on overflow. *)
Definition off_t_add (a b : Z) : M Z :=
  if fits_signed off_t_bits (a + b) then ret (a + b) else undefined.

(** [a % n] for [a] an [off_t] and [n] a [size_t]: the operands are
    brought to [size_t] unless [off_t] is the wider type, in which case
    the remainder is the signed one. *)
Definition off_t_mod_size_t (a n : Z) : Z :=
  if sizeof_size_t <? sizeof_off_t then Z.rem a n
  else wrap_unsigned size_t_bits a mod n.

(** [mpHeader->]: the bytes of the header buffer seen as an
    [OBCC_Header]. *)
Definition the_header : M OBCC_Header :=
  s <- get ;; buf <- deref (mpHeader s) ;; ret (as_Header buf).

(** Modelled from the spec: [allocateContext] of the context manager
    ([ContextManager.h] is not among the sources), which "maps or copies
    a fixed-size block of bytes into memory", "returning its base
    address or failure".  The block is what the file of handle [f]
    holds from [off] on, at most [BCC_CONTEXT_SIZE] bytes. *)
Definition allocateContext (addr : Z) (f : FileHandle) (off : Z)
  : M (option (list byte)) :=
  emit (EvAllocateContext addr (getFD f) off) ;;;
  s <- get ;;
  if can_map s addr
  then ret (Some (take (Z.to_nat BCC_CONTEXT_SIZE)
                       (drop (Z.to_nat off) (contents f))))
  else ret None.

Definition checkFileSize : M bool :=
  f <- the_file ;;
  st <- fstat f ;;
  match st with
  | None => LOGE "Unable to stat cache file." [] ;;; ret false
  | Some st_size =>
      modify (set_mFileSize st_size) ;;;
      s <- get ;;
      if ((mFileSize s <? sizeof_OBCC_Header)
          || (mFileSize s <? BCC_CONTEXT_SIZE))%bool
      then LOGE "Cache file is too small to be correct." [] ;;; ret false
      else ret true
  end.

Definition readHeader : M bool :=
  r <- FileHandle_seek 0 ;;
  if negb (r =? 0)
  then LOGE "Unable to seek to 0. (reason: %s)" [] ;;; ret false
  else
    ok <- allocate (EvMalloc sizeof_OBCC_Header) ;;
    modify (set_mpHeader (if ok then Some [] else None)) ;;;
    if negb ok
    then LOGE "Unable to allocate for cache header." [] ;;; ret false
    else
      rd <- FileHandle_read sizeof_OBCC_Header ;;
      modify (set_mpHeader (Some rd.2)) ;;;
      if negb (rd.1 =? sizeof_OBCC_Header)
      then LOGE "Unable to read cache header." [] ;;; ret false
      else ret true.

(** [memcmp(a, b, n) != 0] *)
Definition memcmp_ne (a b : list byte) (n : nat) : bool :=
  negb (bool_decide (take n a = take n b)).

Definition checkHeader : M bool :=
  h <- the_header ;;
  if memcmp_ne (magic h) OBCC_MAGIC 4
  then LOGE "Bad magic word" [] ;;; ret false
  else
    if memcmp_ne (version h) OBCC_VERSION 4
    then LOGE "Bad oBCC version 0x%08x" [ArgB (version h)] ;;; ret false
    else ret true.

Definition checkMachineIntType : M bool :=
  h <- the_header ;;
  if ((isLittleEndian && negb (Ascii.eqb (endianness h) "e"))
      || (negb isLittleEndian && negb (Ascii.eqb (endianness h) "E")))%bool
  then LOGE "Machine endianness mismatch." [] ;;; ret false
  else
    let uint := wrap_unsigned (8 * sizeof_int) in
    if (negb (uint (h_sizeof_off_t h) =? sizeof_off_t)
        || negb (uint (h_sizeof_size_t h) =? sizeof_size_t)
        || negb (uint (h_sizeof_ptr_t h) =? sizeof_ptr))%bool
    then LOGE "Machine integer size mismatch." [] ;;; ret false
    else ret true.

(** The macro [CHECK_SECTION_OFFSET(NAME)]; [k] is what follows it in
    the function that expands it. *)
Definition CHECK_SECTION_OFFSET (NAME : string)
    (NAME_offset NAME_size : OBCC_Header → Z) (k : M bool) : M bool :=
  h <- the_header ;;
  s <- get ;;
  let offset := NAME_offset h in
  let size := wrap_signed off_t_bits (NAME_size h) in
  overflow <-
    (if mFileSize s <? offset then ret true
     else e <- off_t_add offset size ;; ret (mFileSize s <? e)) ;;
  if overflow : bool
  then LOGE (NAME +:+ " section overflow.") [] ;;; ret false
  else
    if negb (off_t_mod_size_t offset sizeof_int =? 0)
    then LOGE (NAME +:+ " offset must aligned to %d.") [ArgZ sizeof_int] ;;;
         ret false
    else
      if size <? sizeof_size_t
      then LOGE (NAME +:+ " size is too small to be correct.") [] ;;;
           ret false
      else k.

Definition checkSectionOffsetAndSize : M bool :=
  CHECK_SECTION_OFFSET "str_pool" str_pool_offset str_pool_size $
  CHECK_SECTION_OFFSET "depend_tab" depend_tab_offset depend_tab_size $
  CHECK_SECTION_OFFSET "reloc_tab" reloc_tab_offset reloc_tab_size $
  CHECK_SECTION_OFFSET "export_var_list"
    export_var_list_offset export_var_list_size $
  CHECK_SECTION_OFFSET "export_func_list"
    export_func_list_offset export_func_list_size $
  CHECK_SECTION_OFFSET "pragma_list" pragma_list_offset pragma_list_size $
  (h <- the_header ;;
   s <- get ;;
   overflow <-
     (if mFileSize s <? context_offset h then ret true
      else e <- off_t_add (context_offset h) BCC_CONTEXT_SIZE ;;
           ret (mFileSize s <? e)) ;;
   if overflow : bool
   then LOGE "context section overflow." [] ;;; ret false
   else
     if negb (Z.rem (context_offset h) pagesize =? 0)
     then LOGE "context offset must aligned to pagesize." [] ;;; ret false
     else
       if negb (context_cached_addr h mod pagesize =? 0)
       then LOGE "cached address is not aligned to pagesize." [] ;;;
            ret false
       else ret true).

(** The macro [CACHE_READER_READ_SECTION(TYPE, AUTO_MANAGED_HOLDER,
    NAME)]; [k] is what follows it in the function that expands it, and
    receives the bytes [NAME_raw] points to. *)
Definition CACHE_READER_READ_SECTION
    (AUTO_MANAGED_HOLDER : option (list byte) → M unit) (NAME : string)
    (NAME_offset NAME_size : OBCC_Header → Z)
    (k : list byte → M bool) : M bool :=
  h <- the_header ;;
  ok <- allocate (EvMalloc (NAME_size h)) ;;
  if negb ok
  then LOGE ("Unable to allocate for " +:+ NAME) [] ;;; ret false
  else
    AUTO_MANAGED_HOLDER (Some []) ;;;
    h <- the_header ;;
    r <- FileHandle_seek (NAME_offset h) ;;
    if r =? -1
    then LOGE ("Unable to seek to " +:+ NAME +:+ " section") [] ;;; ret false
    else
      h <- the_header ;;
      rd <- FileHandle_read (NAME_size h) ;;
      AUTO_MANAGED_HOLDER (Some rd.2) ;;;
      if negb (rd.1 =? wrap_signed size_t_bits (NAME_size h))
      then LOGE ("Unable to read " +:+ NAME +:+ ".") [] ;;; ret false
      else k rd.2.

Definition in_result (set : option (list byte) → ScriptCached → ScriptCached)
    (v : option (list byte)) : M unit :=
  modify_result (set v).

Definition in_reader (set : option (list byte) → CacheReader → CacheReader)
    (v : option (list byte)) : M unit :=
  modify (set v).

(** The body of the loop of [readStringPool], at iteration [i]. *)
Definition readStringPool_body (str_pool_raw : list byte) (i : nat)
  : M (option bool) :=
  e <- deref (ov_at as_StringPool str_pool_raw i) ;;
  let str := str_offset e in
  modify_result (λ r, set_mStringPool (mStringPool r ++ [str]) r) ;;;
  ret None.

Definition readStringPool : M bool :=
  CACHE_READER_READ_SECTION (in_result set_mpStringPoolRaw)
    "str_pool" str_pool_offset str_pool_size (λ str_pool_raw,
  count <- deref (ov_count as_StringPool str_pool_raw) ;;
  for_range 0 (Z.to_nat count) (readStringPool_body str_pool_raw) ;;;
  ret true).

(** The body of the loop of [checkStringPool], at iteration [i]. *)
Definition checkStringPool_body (poolR : option (list byte)) (pool : list Z)
    (i : nat) : M (option bool) :=
  raw <- deref poolR ;;
  e <- deref (ov_at as_StringPool raw i) ;;
  str <- vector_at pool (Z.of_nat i) ;;
  c <- deref (byte_at raw (str + str_length e)) ;;
  if negb (Ascii.eqb c NUL)
  then LOGE "The %lu-th string does not end with '\0'."
            [ArgZ (Z.of_nat i)] ;;;
       ret (Some false)
  else ret None.

Definition checkStringPool : M bool :=
  res <- the_result ;;
  let poolR := mpStringPoolRaw res in
  let pool := mStringPool res in
  count <- (raw <- deref poolR ;; deref (ov_count as_StringPool raw)) ;;
  r <- for_range 0 (Z.to_nat count) (checkStringPool_body poolR pool) ;;
  ret (default true r).

Definition readDependencyTable : M bool :=
  CACHE_READER_READ_SECTION (in_reader set_mpCachedDependTable)
    "depend_tab" depend_tab_offset depend_tab_size (λ _, ret true).

(** A [char const *] of the string pool read as a C string. *)
Definition pool_c_str (p : Z) : M string :=
  res <- the_result ;;
  raw <- deref (mpStringPoolRaw res) ;;
  deref (c_str raw p).

(** The 20 bytes [p] points to. *)
Definition bytes20 (p : list byte) : M (list byte) :=
  deref (if decide (List.length p < 20)%nat then None else Some (take 20 p)).

(** The body of the loop of [checkDependency], at iteration [i]: [tab]
    is what [mpCachedDependTable] points to, [res] what [mpResult]
    points to. *)
Definition checkDependency_body (s : CacheReader) (tab : list byte)
    (res : ScriptCached) (i : nat) : M (option bool) :=
  let strPool := mStringPool res in
  dep <- deref (mDependencies s !! i) ;;
  let depName := dep.1 in
  let depType := dep.2.1 in
  let depSHA1 := dep.2.2 in
  depCached <- deref (ov_at as_DependencyTable tab i) ;;
  depCachedName <- vector_at strPool (res_name_strp_index depCached) ;;
  let depCachedType := res_type depCached in
  let depCachedSHA1 := sha1 depCached in
  cachedName <- pool_c_str depCachedName ;;
  if negb (String.eqb depName cachedName)
  then LOGE "Cache dependency name mismatch:" [] ;;;
       LOGE "  given:  %s" [ArgS depName] ;;;
       LOGE "  cached: %s" [ArgS cachedName] ;;;
       ret (Some false)
  else
    given <- bytes20 depSHA1 ;;
    cached <- bytes20 depCachedSHA1 ;;
    if memcmp_ne given cached 20
    then LOGE "Cache dependency %s sha1 mismatch:" [ArgS cachedName] ;;;
         LOGE "  given:  %02x...%02x" [ArgB given] ;;;
         LOGE "  cached: %02x...%02x" [ArgB cached] ;;;
         ret (Some false)
    else
      if negb (depType =? depCachedType)
      then LOGE "Cache dependency %s resource type mismatch."
                [ArgS cachedName] ;;;
           ret (Some false)
      else ret None.

Definition checkDependency : M bool :=
  s <- get ;;
  tab <- deref (mpCachedDependTable s) ;;
  count <- deref (ov_count as_DependencyTable tab) ;;
  if negb (Z.of_nat (List.length (mDependencies s)) =? count)
  then LOGE "Dependencies count mismatch. (%lu vs %lu)"
            [ArgZ (Z.of_nat (List.length (mDependencies s))); ArgZ count] ;;;
       ret false
  else
    res <- the_result ;;
    r <- for_range 0 (Z.to_nat count) (checkDependency_body s tab res) ;;
    ret (default true r).

Definition readExportVarList : M bool :=
  CACHE_READER_READ_SECTION (in_result set_mpExportVars)
    "export_var_list" export_var_list_offset export_var_list_size
    (λ _, ret true).

Definition readExportFuncList : M bool :=
  CACHE_READER_READ_SECTION (in_result set_mpExportFuncs)
    "export_func_list" export_func_list_offset export_func_list_size
    (λ _, ret true).

(** The body of the loop of [readPragmaList], at iteration [i]. *)
Definition readPragmaList_body (pragma_list_raw : list byte) (i : nat)
  : M (option bool) :=
  pragma <- deref (ov_at as_PragmaList pragma_list_raw i) ;;
  res <- the_result ;;
  key <- vector_at (mStringPool res) (key_strp_index pragma) ;;
  value <- vector_at (mStringPool res) (value_strp_index pragma) ;;
  modify_result (λ r, set_mPragmas (mPragmas r ++ [(key, value)]) r) ;;;
  ret None.

Definition readPragmaList : M bool :=
  CACHE_READER_READ_SECTION (in_reader set_mpPragmaList)
    "pragma_list" pragma_list_offset pragma_list_size (λ pragma_list_raw,
  count <- deref (ov_count as_PragmaList pragma_list_raw) ;;
  for_range 0 (Z.to_nat count) (readPragmaList_body pragma_list_raw) ;;;
  ret true).

(** [table.insert(make_pair(k, v))] on a [std::map]: nothing changes
    when the key is already there. *)
Definition map_insert (k : string) (v : Z * Z) (table : gmap string (Z * Z))
  : gmap string (Z * Z) :=
  match table !! k with
  | Some _ => table
  | None => <[k := v]> table
  end.

(** The body of the loop of [readFuncTable], at iteration [i]. *)
Definition readFuncTable_body (func_table_raw : list byte) (i : nat)
  : M (option bool) :=
  func <- deref (ov_at as_FuncTable func_table_raw i) ;;
  res <- the_result ;;
  str <- vector_at (mStringPool res) (name_strp_index func) ;;
  name <- pool_c_str str ;;
  modify_result (λ r,
    set_mFunctions
      (map_insert name (cached_addr func, func_size func) (mFunctions r)) r) ;;;
  ret None.

Definition readFuncTable : M bool :=
  CACHE_READER_READ_SECTION (in_reader set_mpFuncTable)
    "func_table" func_table_offset func_table_size (λ func_table_raw,
  count <- deref (ov_count as_FuncTable func_table_raw) ;;
  for_range 0 (Z.to_nat count) (readFuncTable_body func_table_raw) ;;;
  ret true).

Definition readContext : M bool :=
  h <- the_header ;;
  f <- the_file ;;
  ctx <- allocateContext (context_cached_addr h) f (context_offset h) ;;
  modify_result (set_mContext ctx) ;;;
  match ctx with
  | None => ret false
  | Some _ => ret true
  end.

(** The [uint32_t] the host reads at byte offset [p] of [buf]. *)
Definition uint32_of_bytes (b0 b1 b2 b3 : byte) : Z :=
  Z.lor (byte_val b0)
    (Z.lor (Z.shiftl (byte_val b1) 8)
       (Z.lor (Z.shiftl (byte_val b2) 16) (Z.shiftl (byte_val b3) 24))).

Definition load_uint32 (buf : list byte) (p : nat) : option Z :=
  match buf !! p, buf !! S p, buf !! S (S p), buf !! S (S (S p)) with
  | Some b0, Some b1, Some b2, Some b3 =>
      Some (if isLittleEndian then uint32_of_bytes b0 b1 b2 b3
            else uint32_of_bytes b3 b2 b1 b0)
  | _, _, _, _ => None
  end.

Definition checkContext : M bool :=
  h <- the_header ;;
  res <- the_result ;;
  let ptr := mContext res in
  sum <- for_fold 0 (Z.to_nat (BCC_CONTEXT_SIZE / 4))
           (context_parity_checksum h) (λ i sum,
             ctx <- deref ptr ;;
             w <- deref (load_uint32 ctx (4 * i)) ;;
             ret (Z.lxor sum w)) ;;
  if negb (sum =? 0)
  then LOGE "Checksum check failed" [] ;;; ret false
  else LOGI "Passed checksum even parity verification." ;;; ret true.

Definition readCacheFile (file : option FileHandle) : M (option ScriptCached) :=
  if match file with None => true | Some f => getFD f <? 0 end
  then ret None
  else
    ok <- allocate EvNew ;;
    modify (set_mpResult (if ok then Some new_ScriptCached else None)) ;;;
    if negb ok
    then LOGE "Unable to allocate ScriptCached object." [] ;;; ret None
    else
      result <- (checkFileSize
                 && readHeader
                 && checkHeader
                 && checkMachineIntType
                 && checkSectionOffsetAndSize
                 && readStringPool
                 && checkStringPool
                 && readDependencyTable
                 && checkDependency
                 && readExportVarList
                 && readExportFuncList
                 && readPragmaList
                 && readFuncTable
                 && readContext
                 && checkContext) ;;
      if result : bool
      then
        s <- get ;;
        modify (set_mpResult None) ;;;
        ret (mpResult s)
      else ret None.

End CacheReader.

(** ** A host

    Modelled from the spec: the layouts of [bcc_cache.h] on a 32-bit
    little-endian host, after the table of the persisted layout ("magic
    4B, version 4B, endianness 1B", the three widths a "machine word
    each", then the context fields and one (offset, size) pair a
    section) and the record shapes ("string-pool entries are (offset,
    length)", "dependency entries are (name index, type, 20-byte
    fingerprint)", "function entries are (name index, address, size)",
    "pragma entries are (key index, value index)"); the context is the
    "4-word context" of the spec's scenario, the magic and the version
    are those of that scenario. *)
Module ILP32.

Definition le32 (buf : list byte) (p : nat) : option Z :=
  match buf !! p, buf !! S p, buf !! S (S p), buf !! S (S (S p)) with
  | Some b0, Some b1, Some b2, Some b3 => Some (uint32_of_bytes b0 b1 b2 b3)
  | _, _, _, _ => None
  end.

Definition u32 (buf : list byte) (p : nat) : Z := default 0 (le32 buf p).
Definition s32 (buf : list byte) (p : nat) : Z := wrap_signed 32 (u32 buf p).

Definition header (buf : list byte) : OBCC_Header :=
  {| magic := take 4 buf;
     version := take 4 (drop 4 buf);
     endianness := default NUL (buf !! 8%nat);
     h_sizeof_off_t := u32 buf 12;
     h_sizeof_size_t := u32 buf 16;
     h_sizeof_ptr_t := u32 buf 20;
     context_cached_addr := u32 buf 24;
     context_offset := s32 buf 28;
     context_parity_checksum := u32 buf 32;
     str_pool_offset := s32 buf 36;          str_pool_size := u32 buf 40;
     depend_tab_offset := s32 buf 44;        depend_tab_size := u32 buf 48;
     reloc_tab_offset := s32 buf 52;         reloc_tab_size := u32 buf 56;
     export_var_list_offset := s32 buf 60;   export_var_list_size := u32 buf 64;
     export_func_list_offset := s32 buf 68;  export_func_list_size := u32 buf 72;
     pragma_list_offset := s32 buf 76;       pragma_list_size := u32 buf 80;
     func_table_offset := s32 buf 84;        func_table_size := u32 buf 88 |}.

(** A count in the first word, then records of [recsize] bytes each. *)
Definition table {R} (recsize : nat) (record : list byte → nat → option R)
  : Overlay R :=
  {| ov_count := λ buf, le32 buf 0;
     ov_at := λ buf i, record buf (4 + i * recsize)%nat |}.

Definition string_at (buf : list byte) (p : nat) : option OBCC_String :=
  match le32 buf p, le32 buf (p + 4) with
  | Some o, Some l => Some {| str_offset := wrap_signed 32 o; str_length := l |}
  | _, _ => None
  end.

Definition dependency_at (buf : list byte) (p : nat) : option OBCC_Dependency :=
  match le32 buf p, le32 buf (p + 4) with
  | Some n, Some t =>
      if decide (p + 28 ≤ List.length buf)%nat
      then Some {| res_name_strp_index := n; res_type := t;
                   sha1 := take 20 (drop (p + 8) buf) |}
      else None
  | _, _ => None
  end.

Definition pragma_at (buf : list byte) (p : nat) : option OBCC_Pragma :=
  match le32 buf p, le32 buf (p + 4) with
  | Some k, Some v => Some {| key_strp_index := k; value_strp_index := v |}
  | _, _ => None
  end.

Definition func_at (buf : list byte) (p : nat) : option OBCC_FuncInfo :=
  match le32 buf p, le32 buf (p + 4), le32 buf (p + 8) with
  | Some n, Some a, Some sz =>
      Some {| name_strp_index := n; cached_addr := a; func_size := sz |}
  | _, _, _ => None
  end.

#[export] Instance host : Platform :=
  {| isLittleEndian := true;
     sizeof_off_t := 4; sizeof_size_t := 4; sizeof_ptr := 4; sizeof_int := 4;
     pagesize := 4096;
     BCC_CONTEXT_SIZE := 16;
     sizeof_OBCC_Header := 92;
     OBCC_MAGIC := list_ascii_of_string "oBCC";
     OBCC_VERSION := list_ascii_of_string "001" ++ [NUL];
     as_Header := header;
     as_StringPool := table 8 string_at;
     as_DependencyTable := table 28 dependency_at;
     as_PragmaList := table 8 pragma_at;
     as_FuncTable := table 12 func_at |}.

(** *** Writing a cache file for that host *)

Definition byte_of (z : Z) : byte := ascii_of_N (Z.to_N (z mod 256)).

Definition w32 (z : Z) : list byte :=
  [byte_of z; byte_of (z / 2 ^ 8); byte_of (z / 2 ^ 16); byte_of (z / 2 ^ 24)].

Definition chars (s : string) : list byte := list_ascii_of_string s.

Definition zeros (n : nat) : list byte := replicate n NUL.

(** The sections one after the other behind the header, each at the
    offset the header gives it, then the context on the next page. *)
Record Sections := {
  sec_str_pool : list byte;
  sec_depend_tab : list byte;
  sec_reloc_tab : list byte;
  sec_export_var_list : list byte;
  sec_export_func_list : list byte;
  sec_pragma_list : list byte;
  sec_func_table : list byte;
  sec_context : list byte;
  sec_checksum : Z;
}.

Definition len (bs : list byte) : Z := Z.of_nat (List.length bs).

Definition cache_file (x : Sections) : list byte :=
  let o1 := 92 in
  let o2 := o1 + len (sec_str_pool x) in
  let o3 := o2 + len (sec_depend_tab x) in
  let o4 := o3 + len (sec_reloc_tab x) in
  let o5 := o4 + len (sec_export_var_list x) in
  let o6 := o5 + len (sec_export_func_list x) in
  let o7 := o6 + len (sec_pragma_list x) in
  let o8 := o7 + len (sec_func_table x) in
  chars "oBCC" ++ chars "001" ++ [NUL] ++ chars "e" ++ zeros 3
  ++ w32 4 ++ w32 4 ++ w32 4
  ++ w32 0x7e000000 ++ w32 4096 ++ w32 (sec_checksum x)
  ++ w32 o1 ++ w32 (len (sec_str_pool x))
  ++ w32 o2 ++ w32 (len (sec_depend_tab x))
  ++ w32 o3 ++ w32 (len (sec_reloc_tab x))
  ++ w32 o4 ++ w32 (len (sec_export_var_list x))
  ++ w32 o5 ++ w32 (len (sec_export_func_list x))
  ++ w32 o6 ++ w32 (len (sec_pragma_list x))
  ++ w32 o7 ++ w32 (len (sec_func_table x))
  ++ sec_str_pool x ++ sec_depend_tab x ++ sec_reloc_tab x
  ++ sec_export_var_list x ++ sec_export_func_list x
  ++ sec_pragma_list x ++ sec_func_table x
  ++ zeros (Z.to_nat (4096 - o8))
  ++ sec_context x.

Definition fingerprint : list byte := byte_of <$> seqZ 1 20.

(** The cache of the spec's scenario: one dependency [foo.rs] of type 1,
    no export, no pragma, one function [main] at [0x1000] of size 64,
    and a context of four zero words. *)
Definition scenario : Sections :=
  {| sec_str_pool :=
       w32 2 ++ w32 20 ++ w32 6 ++ w32 27 ++ w32 4
       ++ chars "foo.rs" ++ [NUL] ++ chars "main" ++ [NUL];
     sec_depend_tab := w32 1 ++ w32 0 ++ w32 1 ++ fingerprint;
     sec_reloc_tab := w32 0;
     sec_export_var_list := w32 0;
     sec_export_func_list := w32 0;
     sec_pragma_list := w32 0;
     sec_func_table := w32 1 ++ w32 1 ++ w32 0x1000 ++ w32 64;
     sec_context := zeros 16;
     sec_checksum := 0 |}.

Definition open (bytes : list byte) : FileHandle :=
  {| getFD := 3; contents := bytes; position := 0 |}.

(** A reader that was given file [f] and the dependencies [deps], in a
    process where every allocation and mapping succeeds. *)
Definition reader (f : FileHandle) (deps : list (string * (Z * list byte)))
  : CacheReader :=
  {| mFile := Some f; mFileSize := 0; mpHeader := None;
     mpCachedDependTable := None; mpPragmaList := None; mpFuncTable := None;
     mpResult := None; mDependencies := deps;
     heap := []; can_map := λ _, true; events := [] |}.

Definition expected : list (string * (Z * list byte)) :=
  [("foo.rs"%string, (1, fingerprint))].

End ILP32.

(** ** A 64-bit host

    Modelled from the spec: the same layouts on a 64-bit little-endian
    host, where [off_t], [size_t] and pointers have eight bytes and
    [int] has four: in the header the three widths are "a machine word
    each", so eight bytes each, and every offset, size, count, index
    and address of the sections takes eight bytes as well; the type of
    a dependency and the checksum stay 32-bit words. *)
Module LP64.

Definition le64 (buf : list byte) (p : nat) : option Z :=
  match ILP32.le32 buf p, ILP32.le32 buf (p + 4) with
  | Some low, Some high => Some (low + 2 ^ 32 * high)
  | _, _ => None
  end.

Definition u64 (buf : list byte) (p : nat) : Z := default 0 (le64 buf p).
Definition s64 (buf : list byte) (p : nat) : Z := wrap_signed 64 (u64 buf p).

Definition header (buf : list byte) : OBCC_Header :=
  {| magic := take 4 buf;
     version := take 4 (drop 4 buf);
     endianness := default NUL (buf !! 8%nat);
     h_sizeof_off_t := u64 buf 16;
     h_sizeof_size_t := u64 buf 24;
     h_sizeof_ptr_t := u64 buf 32;
     context_cached_addr := u64 buf 40;
     context_offset := s64 buf 48;
     context_parity_checksum := ILP32.u32 buf 56;
     str_pool_offset := s64 buf 64;          str_pool_size := u64 buf 72;
     depend_tab_offset := s64 buf 80;        depend_tab_size := u64 buf 88;
     reloc_tab_offset := s64 buf 96;         reloc_tab_size := u64 buf 104;
     export_var_list_offset := s64 buf 112;  export_var_list_size := u64 buf 120;
     export_func_list_offset := s64 buf 128; export_func_list_size := u64 buf 136;
     pragma_list_offset := s64 buf 144;      pragma_list_size := u64 buf 152;
     func_table_offset := s64 buf 160;       func_table_size := u64 buf 168 |}.

(** A count in the first eight bytes, then records of [recsize] bytes
    each. *)
Definition table {R} (recsize : nat) (record : list byte → nat → option R)
  : Overlay R :=
  {| ov_count := λ buf, le64 buf 0;
     ov_at := λ buf i, record buf (8 + i * recsize)%nat |}.

Definition string_at (buf : list byte) (p : nat) : option OBCC_String :=
  match le64 buf p, le64 buf (p + 8) with
  | Some o, Some l => Some {| str_offset := wrap_signed 64 o; str_length := l |}
  | _, _ => None
  end.

Definition dependency_at (buf : list byte) (p : nat) : option OBCC_Dependency :=
  match le64 buf p, ILP32.le32 buf (p + 8) with
  | Some n, Some t =>
      if decide (p + 32 ≤ List.length buf)%nat
      then Some {| res_name_strp_index := n; res_type := t;
                   sha1 := take 20 (drop (p + 12) buf) |}
      else None
  | _, _ => None
  end.

Definition pragma_at (buf : list byte) (p : nat) : option OBCC_Pragma :=
  match le64 buf p, le64 buf (p + 8) with
  | Some k, Some v => Some {| key_strp_index := k; value_strp_index := v |}
  | _, _ => None
  end.

Definition func_at (buf : list byte) (p : nat) : option OBCC_FuncInfo :=
  match le64 buf p, le64 buf (p + 8), le64 buf (p + 16) with
  | Some n, Some a, Some sz =>
      Some {| name_strp_index := n; cached_addr := a; func_size := sz |}
  | _, _, _ => None
  end.

Definition host : Platform :=
  {| isLittleEndian := true;
     sizeof_off_t := 8; sizeof_size_t := 8; sizeof_ptr := 8; sizeof_int := 4;
     pagesize := 4096;
     BCC_CONTEXT_SIZE := 16;
     sizeof_OBCC_Header := 176;
     OBCC_MAGIC := list_ascii_of_string "oBCC";
     OBCC_VERSION := list_ascii_of_string "001" ++ [NUL];
     as_Header := header;
     as_StringPool := table 16 string_at;
     as_DependencyTable := table 32 dependency_at;
     as_PragmaList := table 16 pragma_at;
     as_FuncTable := table 24 func_at |}.

Definition w64 (z : Z) : list byte := ILP32.w32 z ++ ILP32.w32 (z / 2 ^ 32).

(** A header of that host whose recorded width of [off_t] is
    [2 ^ 32 + 8]; the other two widths are the host's. *)
Definition wide_header : list byte :=
  ILP32.chars "oBCC" ++ ILP32.chars "001" ++ [NUL]
  ++ ILP32.chars "e" ++ ILP32.zeros 7
  ++ w64 (2 ^ 32 + 8) ++ w64 8 ++ w64 8
  ++ ILP32.zeros 136.

(** A reader that has read that header. *)
Definition wide_reader : CacheReader :=
  {| mFile := None; mFileSize := 176; mpHeader := Some wide_header;
     mpCachedDependTable := None; mpPragmaList := None; mpFuncTable := None;
     mpResult := Some new_ScriptCached; mDependencies := [];
     heap := []; can_map := λ _, true; events := [] |}.

End LP64.
(** ** The ordered checks *)

Section Checks.
Context `{P : Platform}.

(** The checks of [readCacheFile], in the order the function names
    them. *)
Definition checks : list (M bool) :=
  [ checkFileSize; readHeader; checkHeader; checkMachineIntType;
    checkSectionOffsetAndSize; readStringPool; checkStringPool;
    readDependencyTable; checkDependency; readExportVarList;
    readExportFuncList; readPragmaList; readFuncTable; readContext;
    checkContext ].

(** [all_pass cs s s']: run one after the other from [s], every check
    of [cs] returns [true], and leaves the reader in [s']. *)
Inductive all_pass : list (M bool) → CacheReader → CacheReader → Prop :=
| all_pass_nil s : all_pass [] s s
| all_pass_cons c cs s s1 s2 :
    c s = Done (true, s1) → all_pass cs s1 s2 → all_pass (c :: cs) s s2.

(** [first_failure cs s s']: run one after the other from [s], the
    checks of [cs] return [true] up to one that returns [false] and
    leaves the reader in [s']; the checks behind it are not run. *)
Inductive first_failure : list (M bool) → CacheReader → CacheReader → Prop :=
| first_failure_here c cs s s1 :
    c s = Done (false, s1) → first_failure (c :: cs) s s1
| first_failure_later c cs s s1 s2 :
    c s = Done (true, s1) → first_failure cs s1 s2 →
    first_failure (c :: cs) s s2.

(** The checks folded with the short-circuit conjunction. *)
Fixpoint run_checks (cs : list (M bool)) : M bool :=
  match cs with
  | [] => ret true
  | c :: cs' => c && run_checks cs'
  end.

(** The events a read leaves behind. *)
Definition is_read (e : Event) : bool :=
  match e with
  | EvRead _ _ | EvAllocateContext _ _ _ => true
  | _ => false
  end.

Definition no_read (evs : list Event) : Prop :=
  Forall (λ e, is_read e = false) evs.

(** The reader once [readCacheFile] has allocated the result object. *)
Definition allocated (s : CacheReader) : CacheReader :=
  set_mpResult (Some new_ScriptCached)
    (set_heap (tail (heap s)) (set_events (events s ++ [EvNew]) s)).

(** The next allocation succeeds. *)
Definition can_allocate (s : CacheReader) : Prop := head (heap s) ≠ Some false.

Definition valid_handle (file : option FileHandle) : Prop :=
  ∃ f, file = Some f ∧ 0 ≤ getFD f.

(** *** Machine compatibility *)

(** The tag of the host's byte order. *)
Definition native_endianness : byte := if isLittleEndian then "e" else "E".

(** The header's endianness tag and its three recorded widths are those
    of the host. *)
Definition machine_agrees (h : OBCC_Header) : Prop :=
  endianness h = native_endianness
  ∧ h_sizeof_off_t h = sizeof_off_t
  ∧ h_sizeof_size_t h = sizeof_size_t
  ∧ h_sizeof_ptr_t h = sizeof_ptr.

(** The recorded widths are values of an unsigned type no wider than
    [unsigned int]. *)
Definition widths_unsigned (h : OBCC_Header) : Prop :=
  0 ≤ h_sizeof_off_t h < 2 ^ (8 * sizeof_int)
  ∧ 0 ≤ h_sizeof_size_t h < 2 ^ (8 * sizeof_int)
  ∧ 0 ≤ h_sizeof_ptr_t h < 2 ^ (8 * sizeof_int).

(** A recorded width as [checkMachineIntType] compares it: converted to
    [unsigned int]. *)
Definition as_unsigned_int (width : Z) : Z :=
  wrap_unsigned (8 * sizeof_int) width.

(** The header's endianness tag is that of the host, and its three
    recorded widths, converted to [unsigned int], are those of the
    host. *)
Definition machine_reads_agree (h : OBCC_Header) : Prop :=
  endianness h = native_endianness
  ∧ as_unsigned_int (h_sizeof_off_t h) = sizeof_off_t
  ∧ as_unsigned_int (h_sizeof_size_t h) = sizeof_size_t
  ∧ as_unsigned_int (h_sizeof_ptr_t h) = sizeof_ptr.

(** The header at the start of the file behind handle [f]. *)
Definition file_header (f : FileHandle) : OBCC_Header :=
  as_Header (take (Z.to_nat sizeof_OBCC_Header) (contents f)).

(** The only reads among [evs] are reads of the header. *)
Definition only_header_read (evs : list Event) : Prop :=
  Forall (λ e, is_read e = true → e = EvRead 0 sizeof_OBCC_Header) evs.

(** *** The string pool *)

(** Buffer [raw], seen as a string pool, holds the entries [es]: its
    count is their number and its list has them in that order. *)
Definition pool_entries (raw : list byte) (es : list OBCC_String) : Prop :=
  (∃ count, ov_count as_StringPool raw = Some count
            ∧ Z.to_nat count = List.length es)
  ∧ ∀ i e, es !! i = Some e → ov_at as_StringPool raw i = Some e.

(** The byte at position [offset + length] of the pool blob. *)
Definition terminator (raw : list byte) (e : OBCC_String) : option byte :=
  byte_at raw (str_offset e + str_length e).

(** The result object of [s] holds the pool [raw] with entries [es],
    and the strings [readStringPool] made of them. *)
Definition pool_loaded (s : CacheReader) (raw : list byte)
    (es : list OBCC_String) : Prop :=
  ∃ res, mpResult s = Some res
         ∧ mpStringPoolRaw res = Some raw
         ∧ pool_entries raw es
         ∧ mStringPool res = str_offset <$> es.

(** Entry [e], at index [i], is the first of [es] whose byte at
    position [offset + length] is not a NUL of the blob: every entry
    before it has a NUL there, and it has another byte, or none when
    the position lies outside the blob. *)
Definition first_unterminated (raw : list byte) (es : list OBCC_String)
    (i : nat) (e : OBCC_String) : Prop :=
  es !! i = Some e
  ∧ terminator raw e ≠ Some NUL
  ∧ ∀ j e', (j < i)%nat → es !! j = Some e' → terminator raw e' = Some NUL.

Definition unterminated_message (i : nat) : Event :=
  EvLOGE "The %lu-th string does not end with '\0'." [ArgZ (Z.of_nat i)].

(** *** Sections *)

(** What [CHECK_SECTION_OFFSET] asks of a section, for a file of
    [fileSize] bytes: the offset and the end within the file, the
    offset a multiple of [sizeof(int)], the size at least
    [sizeof(size_t)]. *)
Definition section_checked (fileSize offset size : Z) : Prop :=
  offset ≤ fileSize
  ∧ offset + wrap_signed off_t_bits size ≤ fileSize
  ∧ off_t_mod_size_t offset sizeof_int = 0
  ∧ sizeof_size_t ≤ wrap_signed off_t_bits size.


(** The section that the header locates with [NAME_offset] and
    [NAME_size] can be read whole from the reader's file: memory is
    left, the file is open, and [raw], the bytes it holds from the
    offset on, are as many as the size asks for. *)
Definition section_in_file (s : CacheReader)
    (NAME_offset NAME_size : OBCC_Header → Z) (raw : list byte) : Prop :=
  ∃ hb f,
    mpHeader s = Some hb ∧ mFile s = Some f ∧ can_allocate s
    ∧ 0 ≤ getFD f ∧ 0 ≤ NAME_offset (as_Header hb)
    ∧ raw = take (Z.to_nat (NAME_size (as_Header hb)))
              (drop (Z.to_nat (NAME_offset (as_Header hb))) (contents f))
    ∧ Z.of_nat (List.length raw)
      = wrap_signed size_t_bits (NAME_size (as_Header hb)).

(** The events of reading section [NAME]. *)
Definition section_events (h : OBCC_Header)
    (NAME_offset NAME_size : OBCC_Header → Z) : list Event :=
  [EvMalloc (NAME_size h); EvSeek (NAME_offset h);
   EvRead (NAME_offset h) (NAME_size h)].

(** *** Records and the string pool *)

(** The entry of the string pool of [res] at index [idx]. *)
Definition pool_entry (res : ScriptCached) (idx : Z) : option Z :=
  if 0 <=? idx then mStringPool res !! Z.to_nat idx else None.

(** The string that index [idx] of the string pool of [res] resolves
    to: the C string at the pool's [idx]-th pointer, when there is one. *)
Definition pool_string (res : ScriptCached) (idx : Z) : option string :=
  match mpStringPoolRaw res, pool_entry res idx with
  | Some raw, Some p => c_str raw p
  | _, _ => None
  end.

(** Index [idx] lies within the string pool of [res]. *)
Definition index_in_pool (res : ScriptCached) (idx : Z) : Prop :=
  0 ≤ idx < Z.of_nat (List.length (mStringPool res)).

(** *** Dependencies *)

(** The two fingerprints have their 20 bytes and these are the same. *)
Definition same_fingerprint (given cached : list byte) : Prop :=
  (20 ≤ List.length given)%nat ∧ (20 ≤ List.length cached)%nat
  ∧ take 20 given = take 20 cached.

(** The cached record names the expected dependency, with its
    fingerprint and its type. *)
Definition dependency_matches (res : ScriptCached)
    (dep : string * (Z * list byte)) (rec : OBCC_Dependency) : Prop :=
  pool_string res (res_name_strp_index rec) = Some dep.1
  ∧ same_fingerprint dep.2.2 (sha1 rec)
  ∧ dep.2.1 = res_type rec.

(** The cached record resolves to a name, and differs from the expected
    dependency by that name or, the name being the same, by its
    fingerprint or, the fingerprint also being the same, by its type. *)
Definition dependency_mismatches (res : ScriptCached)
    (dep : string * (Z * list byte)) (rec : OBCC_Dependency) : Prop :=
  ∃ name, pool_string res (res_name_strp_index rec) = Some name
    ∧ (name ≠ dep.1
       ∨ ((20 ≤ List.length dep.2.2)%nat ∧ (20 ≤ List.length (sha1 rec))%nat
          ∧ (take 20 dep.2.2 ≠ take 20 (sha1 rec)
             ∨ dep.2.1 ≠ res_type rec))).

(** The reader holds the cached table [tab] and the result object
    [res]. *)
Definition dependency_table (s : CacheReader) (tab : list byte)
    (count : Z) (res : ScriptCached) : Prop :=
  mpCachedDependTable s = Some tab
  ∧ ov_count as_DependencyTable tab = Some count
  ∧ mpResult s = Some res.

(** The first [n] expected dependencies, in the order of the caller's
    map, match the first [n] cached records. *)
Definition dependencies_match_upto (s : CacheReader) (tab : list byte)
    (res : ScriptCached) (n : nat) : Prop :=
  ∀ i dep, (i < n)%nat → mDependencies s !! i = Some dep →
    ∃ rec, ov_at as_DependencyTable tab i = Some rec
           ∧ dependency_matches res dep rec.

(** The cached table has as many records as there are expected
    dependencies, and they match one by one. *)
Definition dependencies_match (s : CacheReader) : Prop :=
  ∃ tab count res,
    dependency_table s tab count res
    ∧ count = Z.of_nat (List.length (mDependencies s))
    ∧ dependencies_match_upto s tab res (List.length (mDependencies s)).

(** *** The pragma list *)

(** Buffer [raw], seen as a pragma list, holds the records [ps]. *)
Definition pragma_records (raw : list byte) (ps : list OBCC_Pragma) : Prop :=
  (∃ count, ov_count as_PragmaList raw = Some count
            ∧ Z.to_nat count = List.length ps)
  ∧ ∀ i p, ps !! i = Some p → ov_at as_PragmaList raw i = Some p.

(** The pool entries the two indices of a pragma record select. *)
Definition pragma_pair (res : ScriptCached) (p : OBCC_Pragma)
  : option (Z * Z) :=
  match pool_entry res (key_strp_index p),
        pool_entry res (value_strp_index p) with
  | Some k, Some v => Some (k, v)
  | _, _ => None
  end.

(** Both indices of the pragma record lie within the string pool. *)
Definition pragma_in_pool (res : ScriptCached) (p : OBCC_Pragma) : Prop :=
  index_in_pool res (key_strp_index p)
  ∧ index_in_pool res (value_strp_index p).

(** *** The function table *)

(** Buffer [raw], seen as a function table, holds the records of
    [recs], each with the name its index resolves to in the string pool
    of [res]. *)
Definition function_records (res : ScriptCached) (raw : list byte)
    (recs : list (OBCC_FuncInfo * string)) : Prop :=
  (∃ count, ov_count as_FuncTable raw = Some count
            ∧ Z.to_nat count = List.length recs)
  ∧ ∀ i rec name, recs !! i = Some (rec, name) →
      ov_at as_FuncTable raw i = Some rec
      ∧ pool_string res (name_strp_index rec) = Some name.

(** Record [rec], at index [i], is the first of [recs] named [name]. *)
Definition first_occurrence (recs : list (OBCC_FuncInfo * string))
    (name : string) (i : nat) (rec : OBCC_FuncInfo) : Prop :=
  recs !! i = Some (rec, name)
  ∧ ∀ j rec', (j < i)%nat → recs !! j ≠ Some (rec', name).

(** The records inserted one after the other. *)
Definition insert_all (recs : list (OBCC_FuncInfo * string))
    (table : gmap string (Z * Z)) : gmap string (Z * Z) :=
  foldl (λ m p, map_insert p.2 (cached_addr p.1, func_size p.1) m) table recs.

(** *** Resolution of the records *)

(** Every expected dependency faces a cached record whose name index
    resolves to a string, both with the 20 bytes of a fingerprint. *)
Definition dependencies_resolve (s : CacheReader) (tab : list byte)
    (res : ScriptCached) : Prop :=
  ∀ i dep, mDependencies s !! i = Some dep →
    ∃ rec name, ov_at as_DependencyTable tab i = Some rec
      ∧ pool_string res (res_name_strp_index rec) = Some name
      ∧ (20 ≤ List.length dep.2.2)%nat ∧ (20 ≤ List.length (sha1 rec))%nat.

(** *** The context *)

(** Byte [b] with its bit [j] flipped. *)
Definition flip_bit (j : nat) (b : byte) : byte :=
  ascii_of_N (N.lxor (N_of_ascii b) (2 ^ N.of_nat j)).

(** The context with bit [j] of its byte [k] flipped. *)
Definition flip_context_bit (k j : nat) (ctx : list byte) : list byte :=
  alter (flip_bit j) k ctx.

(** The 32-bit words of the context, as the host reads them. *)
Definition context_words (ctx : list byte) : list Z :=
  (λ i, default 0 (load_uint32 ctx (4 * i)))
    <$> seq 0 (Z.to_nat (BCC_CONTEXT_SIZE / 4)).

(** The XOR-fold of the words of the context, seeded with [seed]. *)
Definition parity (seed : Z) (ctx : list byte) : Z :=
  foldl Z.lxor seed (context_words ctx).

(** The loaded context is the whole block. *)
Definition whole_context (ctx : list byte) : Prop :=
  Z.of_nat (List.length ctx) = BCC_CONTEXT_SIZE.

(** The reader with [ctx] as the loaded context of its result object. *)
Definition with_context (ctx : list byte) (s : CacheReader) : CacheReader :=
  set_mpResult (set_mContext (Some ctx) <$> mpResult s) s.

End Checks.


(** ** Cache files of the host [ILP32] *)

Module Cases.
Import ILP32.

(** [bs] written over the bytes of [file] from position [p] on. *)
Definition patch (p : nat) (bs file : list byte) : list byte :=
  take p file ++ bs ++ drop (p + List.length bs) file.

Definition scenario_file : FileHandle := open (cache_file scenario).

Definition scenario_reader : CacheReader := reader scenario_file expected.

(** The reader of file [f] once the first [n] checks of [readCacheFile]
    have run on it. *)
Definition after (n : nat) (f : FileHandle) : CacheReader :=
  match run_checks (take n checks) (allocated (reader f expected)) with
  | Done (_, s) => s
  | Undefined => reader f expected
  end.

(** The scenario built on a big-endian host: the tag at byte 8 is
    ['E']. *)
Definition big_endian_file : FileHandle :=
  open (patch 8 (chars "E") (cache_file scenario)).

(** The scenario with a function table section that the header puts at
    [0x100000], beyond the end of the file, with a size of 0. *)
Definition lost_func_table_file : FileHandle :=
  open (patch 84 (w32 0x100000 ++ w32 0) (cache_file scenario)).

(** The scenario with a function table section that the header puts at
    offset 173, which is no multiple of four, with a size of 2. *)
Definition short_func_table_file : FileHandle :=
  open (patch 84 (w32 173 ++ w32 2) (cache_file scenario)).

(** The scenario with one pragma, whose key has index 7 in a string
    pool of two entries. *)
Definition wild_pragma : Sections :=
  {| sec_str_pool := sec_str_pool scenario;
     sec_depend_tab := sec_depend_tab scenario;
     sec_reloc_tab := sec_reloc_tab scenario;
     sec_export_var_list := sec_export_var_list scenario;
     sec_export_func_list := sec_export_func_list scenario;
     sec_pragma_list := w32 1 ++ w32 7 ++ w32 0;
     sec_func_table := sec_func_table scenario;
     sec_context := sec_context scenario;
     sec_checksum := sec_checksum scenario |}.

Definition wild_pragma_file : FileHandle := open (cache_file wild_pragma).

(** The scenario with the name of the dependency at index 9, and the
    scenario with the name of the function at index 5. *)
Definition wild_dependency_file : FileHandle :=
  open (patch 128 (w32 9) (cache_file scenario)).

Definition wild_function_file : FileHandle :=
  open (patch 176 (w32 5) (cache_file scenario)).

(** The scenario with two more functions, the second named [main] as
    the first. *)
Definition twice_main : Sections :=
  {| sec_str_pool := sec_str_pool scenario;
     sec_depend_tab := sec_depend_tab scenario;
     sec_reloc_tab := sec_reloc_tab scenario;
     sec_export_var_list := sec_export_var_list scenario;
     sec_export_func_list := sec_export_func_list scenario;
     sec_pragma_list := sec_pragma_list scenario;
     sec_func_table :=
       w32 3 ++ w32 1 ++ w32 0x1000 ++ w32 64
             ++ w32 1 ++ w32 0x2000 ++ w32 32
             ++ w32 0 ++ w32 0x3000 ++ w32 16;
     sec_context := sec_context scenario;
     sec_checksum := sec_checksum scenario |}.

Definition twice_main_file : FileHandle := open (cache_file twice_main).

Definition twice_main_records : list (OBCC_FuncInfo * string) :=
  [ ({| name_strp_index := 1; cached_addr := 0x1000; func_size := 64 |},
     "main"%string);
    ({| name_strp_index := 1; cached_addr := 0x2000; func_size := 32 |},
     "main"%string);
    ({| name_strp_index := 0; cached_addr := 0x3000; func_size := 16 |},
     "foo.rs"%string) ].

(** What [mpResult] points to, what [mpHeader] points to. *)
Definition result_of (s : CacheReader) : ScriptCached :=
  default new_ScriptCached (mpResult s).

Definition header_of (s : CacheReader) : list byte :=
  default [] (mpHeader s).

Definition wild_pragma_record : OBCC_Pragma :=
  {| key_strp_index := 7; value_strp_index := 0 |}.

(** The entries of the string pool of the scenario. *)
Definition scenario_strings : list OBCC_String :=
  [ {| str_length := 6; str_offset := 20 |};
    {| str_length := 4; str_offset := 27 |} ].

(** The scenario with a string pool whose first entry is put at offset
    100000, far outside the 32 bytes of the blob, and whose second
    entry, [main], is given the length 3, so that the byte behind it is
    its [n]. *)
Definition wild_pool : Sections :=
  {| sec_str_pool :=
       w32 2 ++ w32 100000 ++ w32 6 ++ w32 27 ++ w32 3
       ++ chars "foo.rs" ++ [NUL] ++ chars "main" ++ [NUL];
     sec_depend_tab := sec_depend_tab scenario;
     sec_reloc_tab := sec_reloc_tab scenario;
     sec_export_var_list := sec_export_var_list scenario;
     sec_export_func_list := sec_export_func_list scenario;
     sec_pragma_list := sec_pragma_list scenario;
     sec_func_table := sec_func_table scenario;
     sec_context := sec_context scenario;
     sec_checksum := sec_checksum scenario |}.

Definition wild_pool_file : FileHandle := open (cache_file wild_pool).

Definition wild_pool_strings : list OBCC_String :=
  [ {| str_length := 6; str_offset := 100000 |};
    {| str_length := 3; str_offset := 27 |} ].

End Cases.

(** ** Input and output of the reader *)

Section Trace.
Context `{P : Platform}.

(** A holder of the section reader: when it returns, the header, the
    file, the events and the memory left are as they were. *)
Definition keeps (hold : option (list byte) → M unit) : Prop :=
  ∀ v t u t', hold v t = Done (u, t') →
    mpHeader t' = mpHeader t ∧ mFile t' = mFile t
    ∧ events t' = events t ∧ heap t' = heap t.

(** The second reader has the header, the file with its position, and
    the events of the first. *)
Definition frame (s s' : CacheReader) : Prop :=
  events s' = events s ∧ mpHeader s' = mpHeader s ∧ mFile s' = mFile s.

(** A step that found the header and the file in place, left the
    header, the descriptor and the contents of the file as they were,
    and added the events [evs] gives for that header and descriptor. *)
Definition step_ok (evs : OBCC_Header → Z → list Event)
    (s s' : CacheReader) : Prop :=
  ∃ hb f f',
    mpHeader s = Some hb ∧ mpHeader s' = Some hb
    ∧ mFile s = Some f ∧ mFile s' = Some f'
    ∧ getFD f' = getFD f ∧ contents f' = contents f
    ∧ events s' = events s ++ evs (as_Header hb) (getFD f).

(** What a successful open does to the file behind a handle of
    descriptor [fd] whose header is [h], in order. *)
Definition open_trace (fd : Z) (h : OBCC_Header) : list Event :=
  [EvNew; EvFstat fd;
   EvSeek 0; EvMalloc sizeof_OBCC_Header; EvRead 0 sizeof_OBCC_Header]
  ++ section_events h str_pool_offset str_pool_size
  ++ section_events h depend_tab_offset depend_tab_size
  ++ section_events h export_var_list_offset export_var_list_size
  ++ section_events h export_func_list_offset export_func_list_size
  ++ section_events h pragma_list_offset pragma_list_size
  ++ section_events h func_table_offset func_table_size
  ++ [EvAllocateContext (context_cached_addr h) fd (context_offset h);
      EvLOGI "Passed checksum even parity verification."].

End Trace.

Section Accepted.
Context `{P : Platform}.

(** What [CHECK_SECTION_OFFSET] needs to let a section through: what it
    asks of the section, and an end that [off_t] can hold. *)
Definition section_accepted (fileSize offset size : Z) : Prop :=
  section_checked fileSize offset size
  ∧ fits_signed off_t_bits (offset + wrap_signed off_t_bits size) = true.

(** What [checkSectionOffsetAndSize] needs to let the context through:
    the block within the file, with an end that [off_t] can hold, its
    offset and the address it was cached at multiples of the page
    size. *)
Definition context_accepted (fileSize : Z) (h : OBCC_Header) : Prop :=
  context_offset h ≤ fileSize
  ∧ fits_signed off_t_bits (context_offset h + BCC_CONTEXT_SIZE) = true
  ∧ context_offset h + BCC_CONTEXT_SIZE ≤ fileSize
  ∧ Z.rem (context_offset h) pagesize = 0
  ∧ context_cached_addr h mod pagesize = 0.

End Accepted.

Section Reads.
Context `{P : Platform}.

(** The bytes the file behind [f] holds for a section of [size] bytes
    at [offset]: fewer than [size] when the file ends before. *)
Definition section_bytes (f : FileHandle) (offset size : Z) : list byte :=
  take (Z.to_nat size) (drop (Z.to_nat offset) (contents f)).

(** The reader once the section reader has read the section at
    [offset], of [size] bytes, of the file behind [f]: one allocation
    made, the file positioned behind the bytes read, and the events of
    the read added. *)
Definition section_read (f : FileHandle) (offset size : Z) (s : CacheReader)
  : CacheReader :=
  set_mFile
    (Some (set_position
             (offset + Z.of_nat (List.length (section_bytes f offset size))) f))
    (set_heap (tail (heap s))
       (set_events
          (events s ++ [EvMalloc size; EvSeek offset; EvRead offset size]) s)).

(** The last event is an error message. *)
Definition ends_with_error (evs : list Event) : Prop :=
  ∃ fmt args, last evs = Some (EvLOGE fmt args).

End Reads.

(** The bytes entry [e] of the string pool declares as its string:
    [str_length e] bytes of the blob from [str_offset e] on. *)
Definition declared_bytes (raw : list byte) (e : OBCC_String) : list byte :=
  take (Z.to_nat (str_length e)) (drop (Z.to_nat (str_offset e)) raw).

Section Words.
Context `{P : Platform}.

(** The block the context manager is asked for: [BCC_CONTEXT_SIZE]
    bytes of the file behind [f] from [offset] on. *)
Definition context_block (f : FileHandle) (offset : Z) : list byte :=
  take (Z.to_nat BCC_CONTEXT_SIZE) (drop (Z.to_nat offset) (contents f)).

(** The bit of its word that bit [j] of byte [k] of the context is,
    as the host reads words. *)
Definition bit_of_word (k j : nat) : Z :=
  8 * Z.of_nat (if isLittleEndian then k `mod` 4 else 3 - k `mod` 4)%nat
  + Z.of_nat j.

End Words.

Section Buffers.
Context `{P : Platform}.

(** The buffers a reader holds, its own and those of its result
    object: the header, the string pool, the dependency table, the two
    export lists, the pragma list, the function table, the context. *)
Definition buffers (s : CacheReader) : list (option (list byte)) :=
  [ mpHeader s;
    mpResult s ≫= mpStringPoolRaw;
    mpCachedDependTable s;
    mpResult s ≫= mpExportVars;
    mpResult s ≫= mpExportFuncs;
    mpPragmaList s;
    mpFuncTable s;
    mpResult s ≫= mContext ].

(** A holder of the section reader that is buffer [i]. *)
Definition holds_buffer (i : nat) (hold : option (list byte) → M unit)
  : Prop :=
  ∀ v t u t', hold v t = Done (u, t') → buffers t' = <[i := v]> (buffers t).

(** A step that has put in buffer [i] the bytes of the section the
    header locates with [NAME_offset] and [NAME_size], and left the
    other buffers as they were. *)
Definition loads (i : nat) (NAME_offset NAME_size : OBCC_Header → Z)
    (s s' : CacheReader) : Prop :=
  ∃ hb f,
    mpHeader s = Some hb ∧ mFile s = Some f
    ∧ buffers s'
      = <[i := Some (section_bytes f (NAME_offset (as_Header hb))
                       (NAME_size (as_Header hb)))]> (buffers s).

End Buffers.

(** ** More of the scenario *)

Module MoreCases.
Import ILP32 Cases.

(** What [readCacheFile] returns on the scenario, and the reader it
    leaves. *)
Definition scenario_opened : option ScriptCached * CacheReader :=
  match readCacheFile (Some scenario_file) scenario_reader with
  | Done r => r
  | Undefined => (None, scenario_reader)
  end.

Definition scenario_artifact : ScriptCached :=
  default new_ScriptCached scenario_opened.1.

(** The reader of the scenario in a process that is out of memory. *)
Definition out_of_memory : CacheReader := set_heap [false] scenario_reader.

(** The scenario with a string pool that announces 1000 entries in
    its 32 bytes. *)
Definition long_pool_file : FileHandle :=
  open (patch 92 (w32 1000) (cache_file scenario)).

(** The handle the reader holds. *)
Definition file_of (s : CacheReader) : FileHandle :=
  default scenario_file (mFile s).

End MoreCases.

(** * The driver [bcc_compat] ([tools/bcc_compat/Main.cpp])

    The driver is embedded from the point where [llvm::cl] has parsed
    the command line: the options are a record, and the functions of
    [Main.cpp] are computations over the part of the process they
    touch, the outcomes of the [nothrow] allocations still to come and
    the history of what was printed and of what was asked of the
    libraries.  What these libraries answer is left open: it is the
    [Toolchain] the driver is linked with. *)
Module Driver.

Inductive ExitCode := EXIT_SUCCESS | EXIT_FAILURE.

(** [llvm::CodeGenOpt::Level] and [llvm::Reloc::Model], as far as the
    driver names them. *)
Module CodeGenOpt.
Inductive Level := None | Less | Default | Aggressive.
End CodeGenOpt.

Module Reloc.
Inductive Model := PIC_.
End Reloc.

(** The options of [Main.cpp], with the values [llvm::cl] gave them.
    They come from [argv]: there are fewer input files than [argc],
    an [int], can count. *)
Record Options := {
  OptInputFilenames : list string;
  OptOutputFilename : string;
  OptRuntimePath : string;
  OptTargetTriple : string;
  OptPIC : bool;
  OptOptLevel : ascii;
  OptC : bool;
  OptImmObjectOutput : string;
  OptShared : bool;
}.

(** What the libraries outside the sources do for the driver: LLVM's
    path functions, [Source::CreateFromFile] (on files that do not
    change while the driver runs), the constructor of [RSScript] and
    [RSScript::mergeSource] (the verdict, and the script as the call
    left it), the compiler configurations and their setters,
    [Compiler::config] with its error codes, and the verdict of
    [RSCompilerDriver::build]. *)
Class Toolchain := {
  Source : Type;
  RSScript : Type;
  CompilerConfig : Type;
  ErrorCode : Type;
  TARGET_BUILD : bool;
  CreateFromFile : string → option Source;
  new_RSScript : Source → RSScript;
  mergeSource : RSScript → Source → bool * RSScript;
  new_CompilerConfig : string → CompilerConfig;
  new_DefaultCompilerConfig : CompilerConfig;
  setRelocationModel : Reloc.Model → CompilerConfig → CompilerConfig;
  setOptimizationLevel : CodeGenOpt.Level → CompilerConfig → CompilerConfig;
  Compiler_config : CompilerConfig → ErrorCode;
  kSuccess : ErrorCode → bool;
  GetErrorString : ErrorCode → string;
  make_absolute : string → string + string;
  replace_extension : string → string → string;
  remove_filename : string → string;
  path_append : string → string → string;
  build : RSScript → string → string → bool;
}.

Declare Scope driver_scope.

Section Main.
Context `{T : Toolchain}.

(** What the driver does to its environment: what it prints on
    [llvm::errs()] and on [stderr], and what it asks of the
    libraries. *)
Inductive Action :=
| Errs (message : string)
| Stderr (message : string)
| Initialize
| New_CompilerConfig
| SetConfig (config : CompilerConfig)
| LoadSource (path : string)
| New_RSScript (source : Source)
| Merge (script : RSScript) (source : Source)
| Delete (source : Source)
| Build (script : RSScript) (output runtime : string) (verdict : bool).

(** [nothrow] gives the outcome of the allocations still to come (when
    it is exhausted they succeed), [trace] is the history. *)
Record World := {
  nothrow : list bool;
  trace : list Action;
}.

Definition D (A : Type) : Type := World → Outcome (A * World).

Definition pure {A} (a : A) : D A := λ w, Done (a, w).

Definition and_next {A B} (m : D A) (k : A → D B) : D B :=
  λ w, match m w with
       | Done (a, w') => k a w'
       | Undefined => Undefined
       end.

Notation "x <- m ;; k" := (and_next m (λ x, k))
  (at level 100, m at next level, right associativity) : driver_scope.
Notation "m ;;; k" := (and_next m (λ _, k))
  (at level 100, right associativity) : driver_scope.
#[local] Open Scope driver_scope.

Definition act (a : Action) : D unit :=
  λ w, Done (tt, {| nothrow := nothrow w; trace := trace w ++ [a] |}).

Definition errs (message : string) : D unit := act (Errs message).

(** [new (std::nothrow)]: [true] when the pointer is not null. *)
Definition new_nothrow (a : Action) : D bool :=
  act a ;;;
  λ w, match nothrow w with
       | [] => Done (true, w)
       | ok :: rest => Done (ok, {| nothrow := rest; trace := trace w |})
       end.

(** [*p]: undefined when [p] is null; [v[i]] without range check. *)
Definition star {A} (p : option A) : D A :=
  match p with Some a => pure a | Datatypes.None => λ _, Undefined end.

Definition empty (s : string) : bool :=
  match s with EmptyString => true | String _ _ => false end.

(** The C string a [char const *] to the characters of [s] is: the
    characters before the first NUL. *)
Fixpoint c_str_of (s : string) : string :=
  match s with
  | EmptyString => EmptyString
  | String c rest =>
      if Ascii.eqb c NUL then EmptyString else String c (c_str_of rest)
  end.

Definition newline : string := String "010"%char EmptyString.
Definition quote : string := String "034"%char EmptyString.

(** The loop of [PrepareRSScript] from the file at the head of
    [pBitcodeFiles] on, [result] being what the variable of that name
    holds. *)
Fixpoint PrepareRSScript_from (pBitcodeFiles : list string)
    (result : option RSScript) : D (option RSScript) :=
  match pBitcodeFiles with
  | [] => pure result
  | input_bitcode :: rest =>
      act (LoadSource input_bitcode) ;;;
      match CreateFromFile input_bitcode with
      | Datatypes.None =>
          errs ("Failed to load llvm module from file `" +:+ input_bitcode
                +:+ "'!" +:+ newline) ;;;
          pure Datatypes.None
      | Some source =>
          match result with
          | Some script =>
              act (Merge script source) ;;;
              if negb (mergeSource script source).1
              then
                errs ("Failed to merge the llvm module `" +:+ input_bitcode
                      +:+ "' to compile!" +:+ newline) ;;;
                act (Delete source) ;;;
                pure Datatypes.None
              else PrepareRSScript_from rest
                     (Some (mergeSource script source).2)
          | Datatypes.None =>
              ok <- new_nothrow (New_RSScript source) ;;
              if negb ok
              then
                errs ("Out of memory when create script for file `"
                      +:+ input_bitcode +:+ "'!" +:+ newline) ;;;
                act (Delete source) ;;;
                pure Datatypes.None
              else PrepareRSScript_from rest (Some (new_RSScript source))
          end
      end
  end.

Definition PrepareRSScript (pBitcodeFiles : list string)
  : D (option RSScript) :=
  PrepareRSScript_from pBitcodeFiles Datatypes.None.

Section Options.
Variable o : Options.

Definition ConfigCompiler : D bool :=
  ok <- new_nothrow New_CompilerConfig ;;
  if negb ok
  then
    errs ("Out of memory when create the compiler configuration!"
          +:+ newline) ;;;
    pure false
  else
    let config :=
      if TARGET_BUILD then new_DefaultCompilerConfig
      else new_CompilerConfig (OptTargetTriple o) in
    let config :=
      if OptPIC o then setRelocationModel Reloc.PIC_ config else config in
    let config :=
      match OptOptLevel o with
      | "0"%char => setOptimizationLevel CodeGenOpt.None config
      | "1"%char => setOptimizationLevel CodeGenOpt.Less config
      | "3"%char => setOptimizationLevel CodeGenOpt.Aggressive config
      | _ => setOptimizationLevel CodeGenOpt.Default config
      end in
    act (SetConfig config) ;;;
    let result := Compiler_config config in
    if negb (kSuccess result)
    then
      errs ("Failed to configure the compiler! (detail: "
            +:+ GetErrorString result +:+ ")" +:+ newline) ;;;
      pure false
    else pure true.

Definition DEFAULT_OUTPUT_PATH : string := "/sdcard/a.out".

Definition DetermineOutputFilename (pOutputPath : string) : D string :=
  if negb (empty pOutputPath) then pure pOutputPath
  else
    if (1 <? List.length (OptInputFilenames o))%nat
    then
      errs ("Use " +:+ DEFAULT_OUTPUT_PATH +:+ " for output file!"
            +:+ newline) ;;;
      pure DEFAULT_OUTPUT_PATH
    else
      input_path <- star (OptInputFilenames o !! 0%nat) ;;
      match make_absolute input_path with
      | inr message =>
          errs ("Failed to determine the absolute path of `" +:+ input_path
                +:+ "'! (detail: " +:+ message +:+ ")" +:+ newline) ;;;
          pure EmptyString
      | inl output_path =>
          let output_path :=
            if OptC o then replace_extension output_path "o"
            else path_append (remove_filename output_path) "a.out" in
          pure (c_str_of output_path)
      end.

(** [main], once [llvm::cl::ParseCommandLineOptions] has returned. *)
Definition main : D ExitCode :=
  act Initialize ;;;
  if empty (OptRuntimePath o)
  then
    act (Stderr ("You must set " +:+ quote
                 +:+ "-rt-path </path/to/libclcore.bc>" +:+ quote
                 +:+ " with this tool" +:+ newline)) ;;;
    pure EXIT_FAILURE
  else
    ok <- ConfigCompiler ;;
    if negb ok then pure EXIT_FAILURE
    else
      OutputFilename <- DetermineOutputFilename (OptOutputFilename o) ;;
      if empty OutputFilename then pure EXIT_FAILURE
      else
        s <- PrepareRSScript (OptInputFilenames o) ;;
        script <- star s ;;
        let output := c_str_of OutputFilename in
        let runtime := c_str_of (OptRuntimePath o) in
        act (Build script output runtime (build script output runtime)) ;;;
        pure EXIT_SUCCESS.

End Options.

(** *** What a run has done *)

(** The files loaded, the scripts built, in order. *)
Definition loaded (actions : list Action) : list string :=
  omap (λ a, match a with LoadSource path => Some path | _ => Datatypes.None end)
    actions.

Definition builds (actions : list Action) : list Action :=
  omap (λ a, match a with
             | Build _ _ _ _ => Some a
             | _ => Datatypes.None
             end) actions.

Definition messages (actions : list Action) : list string :=
  omap (λ a, match a with
             | Errs m | Stderr m => Some m
             | _ => Datatypes.None
             end) actions.

(** The sources merged one after the other into [script]: nothing when
    a merge is refused. *)
Fixpoint merged (script : RSScript) (sources : list Source)
  : option RSScript :=
  match sources with
  | [] => Some script
  | source :: rest =>
      if (mergeSource script source).1
      then merged (mergeSource script source).2 rest
      else Datatypes.None
  end.

(** The sources of the files, when all of them load. *)
Fixpoint load_all (files : list string) : option (list Source) :=
  match files with
  | [] => Some []
  | path :: rest =>
      match CreateFromFile path, load_all rest with
      | Some source, Some sources => Some (source :: sources)
      | _, _ => Datatypes.None
      end
  end.

(** The script the input files make: the first one loaded, the others
    merged into it in order. *)
Definition script_of (files : list string) : option RSScript :=
  match load_all files with
  | Some (source :: sources) => merged (new_RSScript source) sources
  | _ => Datatypes.None
  end.

(** The configuration the options ask for. *)
Definition configuration (o : Options) : CompilerConfig :=
  let level :=
    match OptOptLevel o with
    | "0"%char => CodeGenOpt.None
    | "1"%char => CodeGenOpt.Less
    | "3"%char => CodeGenOpt.Aggressive
    | _ => CodeGenOpt.Default
    end in
  let config :=
    if TARGET_BUILD then new_DefaultCompilerConfig
    else new_CompilerConfig (OptTargetTriple o) in
  setOptimizationLevel level
    (if OptPIC o then setRelocationModel Reloc.PIC_ config else config).

(** The output file the options ask for, when it needs no more than
    the options to be told: the one given, or the default one when
    there are several inputs. *)
Definition named_output (o : Options) : option string :=
  if negb (empty (OptOutputFilename o)) then Some (OptOutputFilename o)
  else if (1 <? List.length (OptInputFilenames o))%nat
       then Some DEFAULT_OUTPUT_PATH
       else Datatypes.None.

(** The options and the world let [main] through to the inputs: a
    runtime path is given, the configuration can be allocated and the
    compiler takes it, and the output file is [output]. *)
Definition accepted (o : Options) (w : World) (output : string) : Prop :=
  empty (OptRuntimePath o) = false
  ∧ head (nothrow w) ≠ Some false
  ∧ kSuccess (Compiler_config (configuration o)) = true
  ∧ named_output o = Some output.

(** The options with other values for [-shared] and [-or], and with
    another value for [-c]. *)
Definition with_linking (shared : bool) (object : string) (o : Options)
  : Options :=
  {| OptInputFilenames := OptInputFilenames o;
     OptOutputFilename := OptOutputFilename o;
     OptRuntimePath := OptRuntimePath o;
     OptTargetTriple := OptTargetTriple o;
     OptPIC := OptPIC o;
     OptOptLevel := OptOptLevel o;
     OptC := OptC o;
     OptImmObjectOutput := object;
     OptShared := shared |}.

Definition with_OptOptLevel (level : ascii) (o : Options) : Options :=
  {| OptInputFilenames := OptInputFilenames o;
     OptOutputFilename := OptOutputFilename o;
     OptRuntimePath := OptRuntimePath o;
     OptTargetTriple := OptTargetTriple o;
     OptPIC := OptPIC o;
     OptOptLevel := level;
     OptC := OptC o;
     OptImmObjectOutput := OptImmObjectOutput o;
     OptShared := OptShared o |}.

Definition with_OptTargetTriple (triple : string) (o : Options) : Options :=
  {| OptInputFilenames := OptInputFilenames o;
     OptOutputFilename := OptOutputFilename o;
     OptRuntimePath := OptRuntimePath o;
     OptTargetTriple := triple;
     OptPIC := OptPIC o;
     OptOptLevel := OptOptLevel o;
     OptC := OptC o;
     OptImmObjectOutput := OptImmObjectOutput o;
     OptShared := OptShared o |}.

(** The command line names no output file and has one input, whose
    absolute path cannot be determined. *)
Definition output_unknown (o : Options) : Prop :=
  empty (OptOutputFilename o) = true
  ∧ ∃ input_path message,
      OptInputFilenames o = [input_path]
      ∧ make_absolute input_path = inr message.

Definition with_OptC (c : bool) (o : Options) : Options :=
  {| OptInputFilenames := OptInputFilenames o;
     OptOutputFilename := OptOutputFilename o;
     OptRuntimePath := OptRuntimePath o;
     OptTargetTriple := OptTargetTriple o;
     OptPIC := OptPIC o;
     OptOptLevel := OptOptLevel o;
     OptC := c;
     OptImmObjectOutput := OptImmObjectOutput o;
     OptShared := OptShared o |}.

End Main.

Notation "x <- m ;; k" := (and_next m (λ x, k))
  (at level 100, m at next level, right associativity) : driver_scope.
Notation "m ;;; k" := (and_next m (λ _, k))
  (at level 100, right associativity) : driver_scope.

End Driver.

(** ** A toolchain to run the driver on

    Sources are the paths they were loaded from and a script is the
    list of its sources; [missing.bc] does not load, [clash.bc] does
    not merge, the directory of [gone/a.bc] is gone, the compiler takes
    every configuration, and every build fails. *)
Module Toy.
Import Driver.

#[export] Instance toolchain : Toolchain :=
  {| Source := string;
     RSScript := list string;
     CompilerConfig := list string;
     ErrorCode := bool;
     TARGET_BUILD := false;
     CreateFromFile := λ path,
       if String.eqb path "missing.bc" then None else Some path;
     new_RSScript := λ source, [source];
     mergeSource := λ script source,
       (negb (String.eqb source "clash.bc"), script ++ [source]);
     new_CompilerConfig := λ triple, [triple];
     new_DefaultCompilerConfig := [];
     setRelocationModel := λ _ config, config ++ ["pic"%string];
     setOptimizationLevel := λ level config,
       config ++ [match level with
                  | CodeGenOpt.None => "O0"
                  | CodeGenOpt.Less => "O1"
                  | CodeGenOpt.Default => "O2"
                  | CodeGenOpt.Aggressive => "O3"
                  end%string];
     Compiler_config := λ _, true;
     kSuccess := λ code, code;
     GetErrorString := λ _, "refused"%string;
     make_absolute := λ path,
       if String.eqb path "gone/a.bc" then inr "No such file or directory"
       else inl ("/cwd/" +:+ path);
     replace_extension := λ path ext, path +:+ "." +:+ ext;
     remove_filename := λ _, "/cwd"%string;
     path_append := λ dir name, dir +:+ "/" +:+ name;
     build := λ _ _ _, false |}.

(** [bcc_compat -rt-path /rt/libclcore.bc -o out.o] on [inputs]. *)
Definition options (inputs : list string) : Options :=
  {| OptInputFilenames := inputs;
     OptOutputFilename := "out.o";
     OptRuntimePath := "/rt/libclcore.bc";
     OptTargetTriple := "armv7-none-linux-gnueabi";
     OptPIC := false;
     OptOptLevel := "2";
     OptC := false;
     OptImmObjectOutput := EmptyString;
     OptShared := false |}.

(** The same command line without [-rt-path]. *)
Definition no_runtime (inputs : list string) : Options :=
  {| OptInputFilenames := inputs;
     OptOutputFilename := "out.o";
     OptRuntimePath := EmptyString;
     OptTargetTriple := "armv7-none-linux-gnueabi";
     OptPIC := false;
     OptOptLevel := "2";
     OptC := false;
     OptImmObjectOutput := EmptyString;
     OptShared := false |}.

(** [bcc_compat -rt-path /rt/libclcore.bc gone/a.bc]. *)
Definition no_output : Options :=
  {| OptInputFilenames := ["gone/a.bc"%string];
     OptOutputFilename := EmptyString;
     OptRuntimePath := "/rt/libclcore.bc";
     OptTargetTriple := "armv7-none-linux-gnueabi";
     OptPIC := false;
     OptOptLevel := "2";
     OptC := false;
     OptImmObjectOutput := EmptyString;
     OptShared := false |}.

Definition fresh : World := {| nothrow := []; trace := [] |}.

(** The world [main] leaves behind on options [o]. *)
Definition ran (o : Options) : World :=
  match main o fresh with
  | Done (_, w) => w
  | Undefined => fresh
  end.

End Toy.
(** * Properties *)

Section Monad.

Lemma bind_Done {A B} (m : M A) (k : A → M B) s b s' :
  bind m k s = Done (b, s') ↔ ∃ a s1, m s = Done (a, s1) ∧ k a s1 = Done (b, s').
Proof.
  unfold bind. split.
  - destruct (m s) as [[a s1]|]; [|done]. eauto.
  - by intros (a & s1 & -> & ?).
Qed.

Lemma bind_ret {A B} (a : A) (k : A → M B) s : bind (ret a) k s = k a s.
Proof. done. Qed.

Lemma bind_deref_Some {A B} (a : A) (k : A → M B) s :
  bind (deref (Some a)) k s = k a s.
Proof. done. Qed.

Lemma deref_Done {A} (p : option A) s a s' :
  deref p s = Done (a, s') ↔ p = Some a ∧ s' = s.
Proof.
  destruct p as [x|]; cbn; unfold ret, undefined; split.
  - by intros [= -> ->].
  - by intros [[= ->] ->].
  - done.
  - by intros [[=] _].
Qed.

Lemma the_result_Done s r s' :
  the_result s = Done (r, s') ↔ mpResult s = Some r ∧ s' = s.
Proof.
  unfold the_result, bind, get. cbn. apply deref_Done.
Qed.

Lemma the_file_Done s f s' :
  the_file s = Done (f, s') ↔ mFile s = Some f ∧ s' = s.
Proof.
  unfold the_file, bind, get. cbn. apply deref_Done.
Qed.

Lemma the_header_Done `{P : Platform} s h s' :
  the_header s = Done (h, s') ↔
  (∃ hb, mpHeader s = Some hb ∧ h = as_Header hb) ∧ s' = s.
Proof.
  unfold the_header, bind, get, ret. cbn.
  destruct (mpHeader s) as [hb|]; cbn; split.
  - intros [= <- <-]. eauto.
  - by intros [(? & [= <-] & ->) ->].
  - done.
  - by intros [(? & [=] & _) _].
Qed.

Lemma bind_the_header `{P : Platform} {B} (k : OBCC_Header → M B) s hb :
  mpHeader s = Some hb → bind the_header k s = k (as_Header hb) s.
Proof. intros H. unfold the_header, bind, get, ret. cbn. by rewrite H. Qed.

Lemma bind_the_result {B} (k : ScriptCached → M B) s res :
  mpResult s = Some res → bind the_result k s = k res s.
Proof. intros H. unfold the_result, bind, get. cbn. by rewrite H. Qed.

Lemma bind_the_file {B} (k : FileHandle → M B) s f :
  mFile s = Some f → bind the_file k s = k f s.
Proof. intros H. unfold the_file, bind, get. cbn. by rewrite H. Qed.

Lemma and_then_true (a b : M bool) s s1 :
  a s = Done (true, s1) → (a && b) s = b s1.
Proof. intros H. unfold and_then, bind. by rewrite H. Qed.

Lemma and_then_false (a b : M bool) s s1 :
  a s = Done (false, s1) → (a && b) s = Done (false, s1).
Proof. intros H. unfold and_then, bind. by rewrite H. Qed.

Lemma run_checks_pass cs s s' :
  run_checks cs s = Done (true, s') ↔ all_pass cs s s'.
Proof.
  split.
  - revert s. induction cs as [|c cs IH]; intros s H; cbn in H.
    + injection H as <-. constructor.
    + unfold and_then, bind in H.
      destruct (c s) as [[[] s1]|] eqn:E; [|done..].
      econstructor; eauto.
  - induction 1 as [|c cs s s1 s2 Hc _ IH]; [done|].
    cbn. by rewrite (and_then_true _ _ _ _ Hc).
Qed.

Lemma run_checks_fail cs s s' :
  run_checks cs s = Done (false, s') ↔ first_failure cs s s'.
Proof.
  split.
  - revert s. induction cs as [|c cs IH]; intros s H; cbn in H; [done|].
    unfold and_then, bind in H.
    destruct (c s) as [[[] s1]|] eqn:E; [| |done].
    + eapply first_failure_later; eauto.
    + injection H as <-. by apply first_failure_here.
  - induction 1 as [c cs s s1 Hc|c cs s s1 s2 Hc _ IH]; cbn.
    + by apply and_then_false.
    + by rewrite (and_then_true _ _ _ _ Hc).
Qed.

Lemma chain_run (a : M bool) (cs : list (M bool)) s :
  foldl and_then a cs s = (a && run_checks cs) s.
Proof.
  revert a. induction cs as [|c cs IH]; intros a; cbn.
  - unfold and_then, bind, ret. by destruct (a s) as [[[] ?]|].
  - rewrite IH. unfold and_then, bind.
    destruct (a s) as [[[] s1]|]; [|done..].
    by destruct (c s1) as [[[] s2]|].
Qed.

(** *** Loops that scan *)

Lemma for_range_none {R} (body : nat → M (option R)) s n i :
  (∀ k, (i ≤ k < i + n)%nat → body k s = Done (None, s)) →
  for_range i n body s = Done (None, s).
Proof.
  revert i. induction n as [|n IH]; intros i H; cbn; [done|].
  unfold bind. rewrite H by lia. apply IH. intros k Hk. apply H. lia.
Qed.

Lemma for_range_first {R} (body : nat → M (option R)) s n i j r s' :
  (i ≤ j < i + n)%nat →
  (∀ k, (i ≤ k < j)%nat → body k s = Done (None, s)) →
  body j s = Done (Some r, s') →
  for_range i n body s = Done (Some r, s').
Proof.
  revert i. induction n as [|n IH]; intros i Hj Hpre Hb; [lia|].
  cbn. unfold bind. destruct (decide (i = j)) as [->|Hne].
  - by rewrite Hb.
  - rewrite Hpre by lia. apply IH; [lia| |done].
    intros k Hk. apply Hpre. lia.
Qed.

Lemma for_range_first_undefined {R} (body : nat → M (option R)) s n i j :
  (i ≤ j < i + n)%nat →
  (∀ k, (i ≤ k < j)%nat → body k s = Done (None, s)) →
  body j s = Undefined →
  for_range i n body s = Undefined.
Proof.
  revert i. induction n as [|n IH]; intros i Hj Hpre Hb; [lia|].
  cbn. unfold bind. destruct (decide (i = j)) as [->|Hne].
  - by rewrite Hb.
  - rewrite Hpre by lia. apply IH; [lia| |done].
    intros k Hk. apply Hpre. lia.
Qed.

(** What a scan that returns has met, when an iteration that goes on
    leaves the reader as it found it. *)
Lemma for_range_inv {R} (body : nat → M (option R)) s n i r s' :
  (∀ k t, (i ≤ k < i + n)%nat → body k s = Done (None, t) → t = s) →
  for_range i n body s = Done (r, s') →
  (r = None ∧ s' = s
   ∧ ∀ k, (i ≤ k < i + n)%nat → body k s = Done (None, s))
  ∨ (∃ j x, r = Some x ∧ (i ≤ j < i + n)%nat
            ∧ (∀ k, (i ≤ k < j)%nat → body k s = Done (None, s))
            ∧ body j s = Done (Some x, s')).
Proof.
  revert i. induction n as [|n IH]; intros i Hkeep H; cbn in H.
  - injection H as <- <-. left. repeat split. lia.
  - unfold bind in H. destruct (body i s) as [[[x|] t]|] eqn:E; [| |done].
    + injection H as <- <-. right. exists i, x. repeat split; [lia..| |done].
      lia.
    + pose proof (Hkeep i t ltac:(lia) E) as ->.
      destruct (IH (S i)) as [(-> & -> & Hall)|(j & x & -> & Hj & Hpre & Hb)];
        [intros k t Hk; apply Hkeep; lia|done| |].
      * left. repeat split. intros k Hk.
        destruct (decide (k = i)) as [->|]; [done|]. apply Hall. lia.
      * right. exists j, x. repeat split; [lia..| |done].
        intros k Hk. destruct (decide (k = i)) as [->|]; [done|].
        apply Hpre. lia.
Qed.

(** A loop of [n + m] iterations is one of [n] then one of [m]. *)
Lemma for_range_app {R} (body : nat → M (option R)) n m i s :
  for_range i (n + m) body s
  = (r <- for_range i n body ;;
     match r with
     | Some x => ret (Some x)
     | None => for_range (i + n) m body
     end) s.
Proof.
  revert i s. induction n as [|n IH]; intros i s; cbn [for_range Nat.add].
  - by rewrite bind_ret, Nat.add_0_r.
  - unfold bind. destruct (body i s) as [[[x|] t]|]; [done| |done].
    rewrite IH. unfold bind. by rewrite Nat.add_succ_r.
Qed.

Lemma for_range_total {R} (body : nat → M (option R)) s n i :
  (∀ k, (i ≤ k < i + n)%nat →
        body k s = Done (None, s) ∨ ∃ x t, body k s = Done (Some x, t)) →
  ∃ r s', for_range i n body s = Done (r, s').
Proof.
  revert i. induction n as [|n IH]; intros i H; cbn; [by eexists _, _|].
  unfold bind. destruct (H i) as [->|(x & t & ->)]; [lia| |by eexists _, _].
  apply IH. intros k Hk. apply H. lia.
Qed.

End Monad.

Section Orchestrator.
Context `{P : Platform}.

(** What [readCacheFile] does once the handle is accepted and the
    result object allocated. *)
Lemma readCacheFile_allocated file s :
  valid_handle file → can_allocate s →
  readCacheFile file s =
    match run_checks checks (allocated s) with
    | Done (true, s1) => Done (mpResult s1, set_mpResult None s1)
    | Done (false, s1) => Done (None, s1)
    | Undefined => Undefined
    end.
Proof.
  intros (f & -> & Hfd) Hheap.
  unfold readCacheFile.
  destruct (Z.ltb_spec (getFD f) 0) as [|_]; [lia|].
  change (checkFileSize && _ && _ && _ && _ && _ && _ && _ && _ && _
          && _ && _ && _ && _ && _)
    with (foldl and_then checkFileSize (tail checks)).
  unfold bind at 1.
  assert (allocate EvNew s
          = Done (true, set_heap (tail (heap s))
                          (set_events (events s ++ [EvNew]) s))) as ->.
  { unfold can_allocate in Hheap. destruct s as [? ? ? ? ? ? ? ? hp ? ?].
    cbn in Hheap. unfold allocate, emit, modify, bind, get, ret. cbn.
    by destruct hp as [|[] ?]. }
  unfold bind at 1. unfold modify at 1. cbn [negb].
  unfold bind at 1. fold (allocated s).
  rewrite chain_run.
  change (checkFileSize && run_checks (tail checks))
    with (run_checks checks).
  by destruct (run_checks checks (allocated s)) as [[[] s1]|].
Qed.

Lemma readCacheFile_rejected_handle file s :
  ¬ valid_handle file → readCacheFile file s = Done (None, s).
Proof.
  intros H. unfold readCacheFile. destruct file as [f|]; [|done].
  destruct (Z.ltb_spec (getFD f) 0) as [|Hfd]; [done|].
  destruct H. by exists f.
Qed.

Lemma readCacheFile_no_memory file s :
  valid_handle file → ¬ can_allocate s →
  readCacheFile file s =
    Done (None, set_mpResult None
                  (set_heap (tail (heap s))
                     (set_events
                        (events s ++
                           [EvNew;
                            EvLOGE "Unable to allocate ScriptCached object." []])
                        s))).
Proof.
  intros (f & -> & Hfd) Hheap.
  unfold readCacheFile.
  destruct (Z.ltb_spec (getFD f) 0) as [|_]; [lia|].
  unfold can_allocate in Hheap. destruct s as [? ? ? ? ? ? ? ? hp ? ?].
  cbn in Hheap.
  destruct hp as [|[] ?]; cbn in Hheap; try (destruct Hheap; congruence).
  unfold bind, allocate, emit, modify, bind, get, ret, LOGE, emit, modify.
  cbn. by rewrite <- app_assoc.
Qed.

End Orchestrator.

Ltac unfold_monad :=
  unfold and_then, the_file, the_result, the_header, modify_result, fstat,
    FileHandle_seek, FileHandle_read, allocate, LOGE, LOGI, emit, modify,
    get, put, deref, undefined, bind, ret in *.

Section FileSize.
Context `{P : Platform}.


End FileSize.

Section Open.
Context `{P : Platform}.

Lemma valid_handle_dec file : {valid_handle file} + {¬ valid_handle file}.
Proof.
  destruct file as [f|].
  - destruct (decide (0 ≤ getFD f)) as [H|H].
    + left. by exists f.
    + right. intros (f' & [= <-] & ?). lia.
  - right. by intros (f' & [=] & ?).
Qed.

Lemma can_allocate_dec s : {can_allocate s} + {¬ can_allocate s}.
Proof.
  unfold can_allocate. destruct (head (heap s)) as [[]|].
  - left. congruence.
  - right. intros H. by apply H.
  - left. congruence.
Qed.

(** C10. When the file handle argument is null or its descriptor is
    negative, [readCacheFile] returns null at once: the reader is left
    as it was, with no result object allocated, no event (no byte read)
    and no check run. *)
Theorem readCacheFile_null_handle file s :
  file = None ∨ (∃ f, file = Some f ∧ getFD f < 0) →
  readCacheFile file s = Done (None, s).
Proof.
  intros H. apply readCacheFile_rejected_handle.
  intros (f & -> & Hfd). destruct H as [[=]|(f' & [= <-] & ?)]. lia.
Qed.


End Open.

Section Order.
Context `{P : Platform}.

(** A loop whose body leaves the reader alone leaves it alone. *)
Lemma for_fold_state {A} (body : nat → A → M A) n i acc s x s' :
  (∀ j a t y t', body j a t = Done (y, t') → t' = t) →
  for_fold i n acc body s = Done (x, s') → s' = s.
Proof.
  intros Hbody. revert i acc s.
  induction n as [|n IH]; intros i acc s H; cbn in H.
  - by injection H as _ <-.
  - unfold bind in H. destruct (body i acc s) as [[y t]|] eqn:E; [|done].
    apply Hbody in E as ->. eauto.
Qed.

(** [checkContext] returns only when there is a result object, and
    keeps it where it is. *)
Lemma checkContext_keeps_result s b s' :
  checkContext s = Done (b, s') → mpResult s' = mpResult s ∧ is_Some (mpResult s').
Proof.
  unfold checkContext. intros H.
  apply bind_Done in H as (h & ? & [_ ->]%the_header_Done & H).
  apply bind_Done in H as (res & ? & [Hres ->]%the_result_Done & H).
  apply bind_Done in H as (sum & s3 & E & H).
  apply for_fold_state in E as ->.
  - destruct (sum =? 0); unfold bind, LOGE, LOGI, emit, modify, ret in H;
      cbn in H; injection H as _ <-; destruct s; cbn in *; by rewrite Hres.
  - intros j a t y t' Hb.
    apply bind_Done in Hb as (? & ? & [_ ->]%deref_Done & Hb).
    apply bind_Done in Hb as (? & ? & [_ ->]%deref_Done & Hb).
    by injection Hb as _ <-.
Qed.

Lemma all_pass_result s s1 :
  all_pass checks s s1 → is_Some (mpResult s1).
Proof.
  unfold checks. intros H.
  repeat match goal with
         | H : all_pass (_ :: _) _ _ |- _ => inversion H; clear H; subst
         end.
  match goal with H : all_pass [] _ _ |- _ => inversion H; clear H; subst end.
  match goal with H : checkContext _ = _ |- _ =>
    by apply checkContext_keeps_result in H as [_ ?] end.
Qed.

(** C1. For an accepted file handle, and once the result object is
    allocated, [readCacheFile] returns a non-null artifact exactly when
    every check of the ordered list succeeds, each run on the reader
    the previous one left; it returns null exactly when one of them
    fails, all those before it having succeeded, and then the reader is
    as that check left it: no later check has run, and the caller gets
    no artifact. *)
Theorem readCacheFile_iff_all_checks file s :
  valid_handle file → can_allocate s →
  (∀ art s', readCacheFile file s = Done (Some art, s') ↔
     ∃ s1, all_pass checks (allocated s) s1
           ∧ mpResult s1 = Some art ∧ s' = set_mpResult None s1)
  ∧ (∀ s1, all_pass checks (allocated s) s1 →
       ∃ art, readCacheFile file s = Done (Some art, set_mpResult None s1))
  ∧ (∀ s', readCacheFile file s = Done (None, s') ↔
       first_failure checks (allocated s) s').
Proof.
  intros Hv Ha. rewrite (readCacheFile_allocated _ _ Hv Ha).
  split; [|split].
  - intros art s'. split.
    + destruct (run_checks checks (allocated s)) as [[[] s1]|] eqn:E; [|done..].
      intros [= Hart <-]. exists s1. by rewrite <- run_checks_pass.
    + intros (s1 & Hpass & Hart & ->).
      apply run_checks_pass in Hpass as ->. by rewrite Hart.
  - intros s1 Hpass. destruct (all_pass_result _ _ Hpass) as [art Hart].
    exists art. apply run_checks_pass in Hpass as ->. by rewrite Hart.
  - intros s'. split.
    + destruct (run_checks checks (allocated s)) as [[[] s1]|] eqn:E; [| |done].
      * apply run_checks_pass in E.
        destruct (all_pass_result _ _ E) as [art Hart]. by rewrite Hart.
      * intros [= <-]. by apply run_checks_fail.
    + intros Hfail. by apply run_checks_fail in Hfail as ->.
Qed.

End Order.

Section Machine.
Context `{P : Platform}.

Lemma checkFileSize_total s f :
  mFile s = Some f →
  ∃ b s' evs, checkFileSize s = Done (b, s')
              ∧ mFile s' = Some f
              ∧ events s' = events s ++ evs ∧ no_read evs.
Proof.
  intros Hf. destruct s as [mf ? ? ? ? ? ? ? ? ? evs0]. cbn in Hf.
  subst mf. unfold checkFileSize. unfold_monad. cbn.
  destruct (getFD f <? 0); cbn.
  - eexists _, _, _. split; [done|]. cbn. rewrite <- app_assoc.
    repeat split. by repeat constructor.
  - destruct ((_ <? sizeof_OBCC_Header) || _)%bool; cbn;
      eexists _, _, _; (split; [done|]); cbn; rewrite <- ?app_assoc;
      repeat split; by repeat constructor.
Qed.

Lemma readHeader_total s f :
  mFile s = Some f →
  ∃ b s' evs, readHeader s = Done (b, s')
              ∧ events s' = events s ++ evs ∧ only_header_read evs
              ∧ (b = true →
                 mpHeader s' = Some (take (Z.to_nat sizeof_OBCC_Header)
                                       (contents f))).
Proof.
  intros Hf. destruct s as [mf ? ? ? ? ? ? ? hp ? evs0]. cbn in Hf.
  subst mf. unfold readHeader. unfold_monad. cbn.
  destruct (getFD f <? 0) eqn:Hfd; cbn.
  - eexists _, _, _. split; [done|]. cbn. rewrite <- app_assoc.
    repeat split; [by repeat constructor|done].
  - destruct hp as [|[] hp]; cbn; rewrite ?Hfd; cbn;
      try destruct (_ =? sizeof_OBCC_Header); cbn;
      eexists _, _, _; (split; [done|]); cbn; rewrite <- ?app_assoc;
      (split; [done|]); (split; [by repeat constructor|done]).
Qed.

Lemma checkHeader_total s hb :
  mpHeader s = Some hb →
  ∃ b s' evs, checkHeader s = Done (b, s')
              ∧ mpHeader s' = Some hb
              ∧ events s' = events s ++ evs ∧ no_read evs.
Proof.
  intros Hh. destruct s as [? ? mh ? ? ? ? ? ? ? evs0]. cbn in Hh.
  subst mh. unfold checkHeader. unfold_monad. cbn.
  destruct (memcmp_ne (magic _) _ _); cbn; [|destruct (memcmp_ne _ _ _); cbn];
    eexists _, _, _; (split; [done|]); cbn; repeat split;
    try by repeat constructor.
  by rewrite app_nil_r.
Qed.

Lemma wrap_unsigned_id bits z : 0 ≤ z < 2 ^ bits → wrap_unsigned bits z = z.
Proof. intros H. unfold wrap_unsigned. by apply Z.mod_small. Qed.

Lemma checkMachineIntType_eval s hb :
  mpHeader s = Some hb →
  (machine_reads_agree (as_Header hb) →
   checkMachineIntType s = Done (true, s))
  ∧ (¬ machine_reads_agree (as_Header hb) →
     ∃ msg, checkMachineIntType s
            = Done (false, set_events (events s ++ [EvLOGE msg []]) s)).
Proof.
  intros Hh. unfold checkMachineIntType. rewrite (bind_the_header _ _ _ Hh).
  cbv zeta. fold (as_unsigned_int (h_sizeof_off_t (as_Header hb))).
  fold (as_unsigned_int (h_sizeof_size_t (as_Header hb))).
  fold (as_unsigned_int (h_sizeof_ptr_t (as_Header hb))).
  unfold machine_reads_agree, native_endianness. split.
  - intros (He & Eo & Es & Ep). rewrite He, Eo, Es, Ep, !Z.eqb_refl.
    by destruct isLittleEndian.
  - intros Hno.
    destruct ((isLittleEndian && _) || _)%bool eqn:Hend; [by eexists|].
    destruct (negb (_ =? sizeof_off_t) || _ || _)%bool eqn:Hw; [by eexists|].
    destruct Hno.
    apply orb_false_iff in Hw
      as [[Ho'%negb_false_iff Hs'%negb_false_iff]%orb_false_iff
            Hp'%negb_false_iff].
    apply Z.eqb_eq in Ho', Hs', Hp'. repeat split; try done.
    destruct isLittleEndian; cbn in Hend.
    + rewrite orb_false_r in Hend.
      by apply negb_false_iff, Ascii.eqb_eq in Hend.
    + by apply negb_false_iff, Ascii.eqb_eq in Hend.
Qed.

Lemma machine_reads_agree_dec h :
  machine_reads_agree h ∨ ¬ machine_reads_agree h.
Proof.
  unfold machine_reads_agree.
  destruct (decide (endianness h = native_endianness)); [|right; tauto].
  destruct (decide (as_unsigned_int (h_sizeof_off_t h) = sizeof_off_t));
    [|right; tauto].
  destruct (decide (as_unsigned_int (h_sizeof_size_t h) = sizeof_size_t));
    [|right; tauto].
  destruct (decide (as_unsigned_int (h_sizeof_ptr_t h) = sizeof_ptr));
    [left|right]; tauto.
Qed.

Lemma machine_reads_agree_unsigned h :
  widths_unsigned h → machine_reads_agree h ↔ machine_agrees h.
Proof.
  intros (Ho & Hs & Hp). unfold machine_reads_agree, machine_agrees.
  unfold as_unsigned_int. by rewrite !wrap_unsigned_id.
Qed.

Lemma no_read_only_header evs : no_read evs → only_header_read evs.
Proof.
  unfold no_read, only_header_read. intros H.
  eapply Forall_impl; [exact H|]. cbn. by intros e -> [=].
Qed.

Lemma mismatch_stops_checks s f :
  mFile s = Some f →
  ¬ machine_reads_agree (file_header f) →
  ∃ s' evs, run_checks checks s = Done (false, s')
            ∧ events s' = events s ++ evs ∧ only_header_read evs.
Proof.
  intros Hf Hno. unfold checks. cbn [run_checks].
  destruct (checkFileSize_total s f Hf) as (b1 & s1 & evs1 & E1 & Hf1 & Hev1 & Hr1).
  apply no_read_only_header in Hr1.
  destruct b1; [rewrite (and_then_true _ _ _ _ E1)
               |rewrite (and_then_false _ _ _ _ E1); by eauto].
  destruct (readHeader_total s1 f Hf1) as (b2 & s2 & evs2 & E2 & Hev2 & Hr2 & Hh2).
  assert (only_header_read (evs1 ++ evs2)) as Hr12 by by apply Forall_app.
  destruct b2; [rewrite (and_then_true _ _ _ _ E2)
               |rewrite (and_then_false _ _ _ _ E2);
                exists s2, (evs1 ++ evs2); by rewrite Hev2, Hev1, app_assoc].
  specialize (Hh2 eq_refl).
  destruct (checkHeader_total s2 _ Hh2) as (b3 & s3 & evs3 & E3 & Hh3 & Hev3 & Hr3).
  apply no_read_only_header in Hr3.
  assert (only_header_read (evs1 ++ evs2 ++ evs3)) as Hr123
    by by rewrite app_assoc; apply Forall_app.
  destruct b3; [rewrite (and_then_true _ _ _ _ E3)
               |rewrite (and_then_false _ _ _ _ E3);
                exists s3, (evs1 ++ evs2 ++ evs3);
                by rewrite Hev3, Hev2, Hev1, <- !app_assoc].
  destruct (proj2 (checkMachineIntType_eval s3 _ Hh3) Hno) as (msg & E4).
  rewrite (and_then_false _ _ _ _ E4).
  eexists _, (evs1 ++ evs2 ++ evs3 ++ [EvLOGE msg []]). split; [done|].
  split.
  - destruct s3; cbn in *. by rewrite Hev3, Hev2, Hev1, <- !app_assoc.
  - rewrite !app_assoc. apply Forall_app. split.
    + by rewrite <- app_assoc.
    + by repeat constructor.
Qed.

(** C7, amended. [checkMachineIntType] compares the endianness tag of
    the header with the byte order of the host, and the three recorded
    widths, each converted to [unsigned int], with the widths of the
    host: it accepts the header exactly when all four so agree, and
    rejects it with a message otherwise.  A reader whose cache file
    has a header that does not so agree makes [readCacheFile] return
    null with no read of that file other than that of the header, so
    before any section is read.  For recorded widths that an
    [unsigned int] holds, to agree so is for the widths to be those of
    the host. *)
Theorem checkMachineIntType_mismatch_rejected :
  (∀ s hb, mpHeader s = Some hb →
     (checkMachineIntType s = Done (true, s) ↔
      machine_reads_agree (as_Header hb))
     ∧ (¬ machine_reads_agree (as_Header hb) →
        ∃ msg, checkMachineIntType s
               = Done (false, set_events (events s ++ [EvLOGE msg []]) s)))
  ∧ (∀ file s f, mFile s = Some f →
       ¬ machine_reads_agree (file_header f) →
       ∃ s' evs, readCacheFile file s = Done (None, s')
                 ∧ events s' = events s ++ evs ∧ only_header_read evs)
  ∧ (∀ h, widths_unsigned h → machine_reads_agree h ↔ machine_agrees h).
Proof.
  split; [|split].
  - intros s hb Hh. destruct (checkMachineIntType_eval s hb Hh) as [Hyes Hno].
    split; [|exact Hno]. split; [|exact Hyes].
    intros E. destruct (machine_reads_agree_dec (as_Header hb)) as [|Hn];
      [done|].
    destruct (Hno Hn) as (msg & E'). congruence.
  - intros file s f Hf Hno.
    destruct (valid_handle_dec file) as [Hv|Hv].
    + destruct (can_allocate_dec s) as [Ha|Ha].
      * rewrite (readCacheFile_allocated _ _ Hv Ha).
        destruct (mismatch_stops_checks (allocated s) f) as (s' & evs & -> & Hev & Hr);
          [by destruct s|done|].
        exists s', (EvNew :: evs). split; [done|]. split.
        -- rewrite Hev. destruct s; cbn. by rewrite <- app_assoc.
        -- by constructor.
      * rewrite (readCacheFile_no_memory _ _ Hv Ha).
        eexists _, _. split; [done|]. split; [by destruct s|].
        by repeat constructor.
    + rewrite (readCacheFile_rejected_handle _ _ Hv).
      exists s, []. split; [done|]. split; [by rewrite app_nil_r|constructor].
  - apply machine_reads_agree_unsigned.
Qed.

End Machine.

Section StringPool.
Context `{P : Platform}.

Lemma vector_at_Done {A} (v : list A) (i : nat) x s :
  v !! i = Some x → vector_at v (Z.of_nat i) s = Done (x, s).
Proof.
  intros H. unfold vector_at.
  destruct (Z.leb_spec 0 (Z.of_nat i)); [|lia]. by rewrite Nat2Z.id, H.
Qed.

(** One iteration of the loop of [checkStringPool]. *)
Lemma checkStringPool_entry (s : CacheReader) raw es i e c :
  pool_loaded s raw es → es !! i = Some e → terminator raw e = Some c →
  ∀ res, mpResult s = Some res →
  checkStringPool_body (mpStringPoolRaw res) (mStringPool res) i s
  = if Ascii.eqb c NUL then Done (None, s)
    else Done (Some false, set_events (events s ++ [unterminated_message i]) s).
Proof.
  intros (res' & Hres & Hraw & [_ Hat] & Hpool) He Hc res Hres'.
  assert (res' = res) as -> by congruence.
  unfold checkStringPool_body.
  rewrite Hraw, bind_deref_Some, (Hat _ _ He), bind_deref_Some.
  unfold bind at 1. erewrite vector_at_Done; last first.
  { rewrite Hpool, list_lookup_fmap, He. done. }
  unfold terminator in Hc. rewrite Hc, bind_deref_Some.
  by destruct (Ascii.eqb c NUL).
Qed.

(** One iteration of the loop, whatever the entry points to: a read
    outside the blob is undefined. *)
Lemma checkStringPool_body_eval (s : CacheReader) raw es i e res :
  pool_loaded s raw es → es !! i = Some e → mpResult s = Some res →
  checkStringPool_body (mpStringPoolRaw res) (mStringPool res) i s
  = match terminator raw e with
    | Some c =>
        if Ascii.eqb c NUL then Done (None, s)
        else Done (Some false,
                   set_events (events s ++ [unterminated_message i]) s)
    | None => Undefined
    end.
Proof.
  intros Hl He Hres. destruct (terminator raw e) as [c|] eqn:Hc.
  - by apply (checkStringPool_entry s raw es i e c Hl He Hc res Hres).
  - destruct Hl as (res' & Hres' & Hraw & [_ Hat] & Hpool).
    assert (res' = res) as -> by congruence.
    unfold checkStringPool_body.
    rewrite Hraw, bind_deref_Some, (Hat _ _ He), bind_deref_Some.
    unfold bind at 1. erewrite vector_at_Done; last first.
    { rewrite Hpool, list_lookup_fmap, He. done. }
    unfold terminator in Hc. by rewrite Hc.
Qed.

Lemma checkStringPool_loop s raw es :
  pool_loaded s raw es →
  ∃ res,
    mpResult s = Some res
    ∧ checkStringPool s
      = (r <- for_range 0 (List.length es)
                (checkStringPool_body (mpStringPoolRaw res) (mStringPool res)) ;;
         ret (default true r)) s.
Proof.
  intros (res & Hres & Hraw & [(count & Hcount & Hn) Hat] & Hpool).
  exists res. split; [done|].
  unfold checkStringPool. rewrite (bind_the_result _ _ _ Hres). cbn zeta.
  unfold bind at 1 2. rewrite Hraw. cbn [deref ret]. rewrite Hcount.
  cbn [deref ret]. by rewrite Hn.
Qed.

(** Either every entry is terminated in the blob, or one is the first
    that is not. *)
Lemma first_unterminated_cases raw es :
  (∀ e, e ∈ es → terminator raw e = Some NUL)
  ∨ ∃ i e, first_unterminated raw es i e.
Proof.
  induction es as [|e es IH].
  - left. by intros e []%elem_of_nil.
  - destruct (decide (terminator raw e = Some NUL)) as [Ht|Ht].
    + destruct IH as [Hall|(i & e' & He' & Hne & Hpre)].
      * left. intros e' [->|?]%elem_of_cons; [done|by apply Hall].
      * right. exists (S i), e'. split; [done|]. split; [done|].
        intros [|j] e2 Hj He2; [by injection He2 as <-|].
        apply (Hpre j); [lia|done].
    + right. exists 0%nat, e. split; [done|]. split; [done|]. lia.
Qed.

Lemma checkStringPool_all s raw es :
  pool_loaded s raw es →
  (∀ e, e ∈ es → terminator raw e = Some NUL) →
  checkStringPool s = Done (true, s).
Proof.
  intros Hl Hall. destruct (checkStringPool_loop s raw es Hl) as (res & Hres & ->).
  unfold bind. rewrite for_range_none; [done|].
  intros k Hk. destruct (lookup_lt_is_Some_2 es k) as [e He]; [lia|].
  rewrite (checkStringPool_body_eval s raw es k e res Hl He Hres).
  rewrite (Hall e) by (by eapply list_elem_of_lookup_2). done.
Qed.

Lemma checkStringPool_first s raw es i e :
  pool_loaded s raw es → first_unterminated raw es i e →
  checkStringPool s
  = match terminator raw e with
    | Some _ =>
        Done (false, set_events (events s ++ [unterminated_message i]) s)
    | None => Undefined
    end.
Proof.
  intros Hl (He & Hne & Hpre).
  destruct (checkStringPool_loop s raw es Hl) as (res & Hres & ->).
  pose proof (lookup_lt_Some _ _ _ He) as Hi.
  assert (∀ k, (0 ≤ k < i)%nat →
            checkStringPool_body (mpStringPoolRaw res) (mStringPool res) k s
            = Done (None, s)) as Hbefore.
  { intros k Hk. destruct (lookup_lt_is_Some_2 es k) as [e' He']; [lia|].
    rewrite (checkStringPool_body_eval s raw es k e' res Hl He' Hres).
    rewrite (Hpre k e') by (done || lia). done. }
  pose proof (checkStringPool_body_eval s raw es i e res Hl He Hres) as Hat.
  unfold bind. destruct (terminator raw e) as [c|].
  - destruct (Ascii.eqb_spec c NUL) as [->|_]; [done|].
    by erewrite for_range_first; [|split; [lia|exact Hi]|exact Hbefore|exact Hat].
  - by erewrite for_range_first_undefined;
      [|split; [lia|exact Hi]|exact Hbefore|exact Hat].
Qed.

(** C6, amended. [checkStringPool] reads, entry after entry, the byte
    at position [offset + length], without asking whether that position
    lies in the blob.  It succeeds exactly when every entry has a NUL
    of the blob there; it fails exactly when the first entry that has
    not has another byte of the blob there, and then reports that
    entry; and when the position of that first entry lies outside the
    blob, the read is out of bounds. *)
Theorem checkStringPool_terminators s raw es :
  pool_loaded s raw es →
  (checkStringPool s = Done (true, s) ↔
   ∀ e, e ∈ es → terminator raw e = Some NUL)
  ∧ (∀ s', checkStringPool s = Done (true, s') → s' = s)
  ∧ (∀ s', checkStringPool s = Done (false, s') ↔
       ∃ i e, first_unterminated raw es i e
              ∧ is_Some (terminator raw e)
              ∧ s' = set_events (events s ++ [unterminated_message i]) s)
  ∧ (checkStringPool s = Undefined ↔
     ∃ i e, first_unterminated raw es i e ∧ terminator raw e = None).
Proof.
  intros Hl.
  destruct (first_unterminated_cases raw es) as [Hall|(i & e & Hfirst)].
  - rewrite (checkStringPool_all s raw es Hl Hall).
    assert (∀ j e', ¬ first_unterminated raw es j e') as Hnone.
    { intros j e' (He' & Hne & _). apply Hne, Hall.
      by eapply list_elem_of_lookup_2. }
    split; [done|]. split; [by intros s' [= <-]|]. split.
    + intros s'. split; [done|]. intros (j & e' & Hf & _). by destruct (Hnone j e').
    + split; [done|]. intros (j & e' & Hf & _). by destruct (Hnone j e').
  - rewrite (checkStringPool_first s raw es i e Hl Hfirst).
    assert (∀ j e', first_unterminated raw es j e' → j = i ∧ e' = e) as Huniq.
    { intros j e' (He' & Hne' & Hpre').
      destruct Hfirst as (He & Hne & Hpre).
      destruct (Nat.lt_trichotomy j i) as [Hlt|[->|Hgt]].
      - by destruct Hne', (Hpre j e').
      - split; [done|congruence].
      - by destruct Hne, (Hpre' i e). }
    assert (¬ ∀ e', e' ∈ es → terminator raw e' = Some NUL) as Hnot.
    { intros Hall. destruct Hfirst as (He & Hne & _). apply Hne, Hall.
      by eapply list_elem_of_lookup_2. }
    destruct (terminator raw e) as [c|] eqn:Hc.
    + split; [done|]. split; [done|]. split.
      * intros s'. split.
        -- intros [= <-]. exists i, e. split; [exact Hfirst|].
           split; [by eexists|done].
        -- intros (j & e' & Hf & _ & ->). by destruct (Huniq j e' Hf) as [-> _].
      * split; [done|]. intros (j & e' & Hf & Hn).
        destruct (Huniq j e' Hf) as [_ ->]. congruence.
    + split; [done|]. split; [done|]. split.
      * intros s'. split; [done|]. intros (j & e' & Hf & [c Hs] & _).
        destruct (Huniq j e' Hf) as [_ ->]. congruence.
      * split; [|done]. intros _. by exists i, e.
Qed.

End StringPool.

Section Context.
Context `{P : Platform}.

Lemma byte_val_range b : 0 ≤ byte_val b < 2 ^ 8.
Proof.
  unfold byte_val. pose proof (N_ascii_bounded b). change (2 ^ 8) with 256. lia.
Qed.

Lemma byte_val_flip j b :
  (j < 8)%nat → byte_val (flip_bit j b) = Z.lxor (byte_val b) (2 ^ Z.of_nat j).
Proof.
  intros Hj. unfold byte_val, flip_bit.
  do 8 (destruct j as [|j]; [by destruct b as [[] [] [] [] [] [] [] []]|]).
  lia.
Qed.

Lemma byte_val_high b n : 8 ≤ n → Z.testbit (byte_val b) n = false.
Proof.
  intros Hn. pose proof (byte_val_range b) as Hb.
  destruct (decide (byte_val b = 0)) as [->|Hne]; [apply Z.bits_0|].
  apply Z.bits_above_log2; [lia|].
  assert (Z.log2 (byte_val b) < 8); [|lia].
  apply Z.log2_lt_pow2; lia.
Qed.

(** Flipping a bit that [r] does not have commutes with [lor r]. *)
Lemma lor_lxor_pow2 x r m :
  0 ≤ m → Z.testbit r m = false →
  Z.lor (Z.lxor x (2 ^ m)) r = Z.lxor (Z.lor x r) (2 ^ m).
Proof.
  intros Hm Hr. apply Z.bits_inj'. intros n Hn.
  rewrite Z.lor_spec, !Z.lxor_spec, Z.lor_spec, Z.pow2_bits_eqb by done.
  destruct (Z.eqb_spec m n) as [->|_].
  - rewrite Hr. by destruct (Z.testbit x n).
  - by destruct (Z.testbit x n), (Z.testbit r n).
Qed.

Lemma lor_lxor_pow2_r x r m :
  0 ≤ m → Z.testbit r m = false →
  Z.lor r (Z.lxor x (2 ^ m)) = Z.lxor (Z.lor r x) (2 ^ m).
Proof.
  intros Hm Hr. rewrite (Z.lor_comm r), (Z.lor_comm r).
  by apply lor_lxor_pow2.
Qed.

Lemma shiftl_lxor_pow2 x m k :
  0 ≤ m → 0 ≤ k →
  Z.shiftl (Z.lxor x (2 ^ m)) k = Z.lxor (Z.shiftl x k) (2 ^ (k + m)).
Proof.
  intros Hm Hk. rewrite Z.shiftl_lxor. f_equal.
  rewrite Z.shiftl_mul_pow2, Z.pow_add_r by done. lia.
Qed.

(** Bit [n] of a byte placed at bit [k]. *)
Lemma shifted_byte_bit b k n :
  0 ≤ k → 0 ≤ n → (n < k ∨ k + 8 ≤ n) →
  Z.testbit (Z.shiftl (byte_val b) k) n = false.
Proof.
  intros Hk Hn [Hlow|Hhigh].
  - by apply Z.shiftl_spec_low.
  - rewrite Z.shiftl_spec by done. apply byte_val_high. lia.
Qed.

(** Flipping bit [j] of the byte in place [q] of a word flips bit
    [8 * q + j] of the word. *)
Lemma uint32_of_bytes_flip (q j : nat) b0 b1 b2 b3 :
  (q < 4)%nat → (j < 8)%nat →
  uint32_of_bytes
    (if decide (q = 0%nat) then flip_bit j b0 else b0)
    (if decide (q = 1%nat) then flip_bit j b1 else b1)
    (if decide (q = 2%nat) then flip_bit j b2 else b2)
    (if decide (q = 3%nat) then flip_bit j b3 else b3)
  = Z.lxor (uint32_of_bytes b0 b1 b2 b3) (2 ^ (8 * Z.of_nat q + Z.of_nat j)).
Proof.
  intros Hq Hj. unfold uint32_of_bytes.
  destruct q as [|[|[|[|q]]]]; [| | | |lia]; cbn [decide decide_rel];
    repeat case_decide; try lia; rewrite byte_val_flip by done.
  - rewrite lor_lxor_pow2; [done|lia|].
    rewrite !Z.lor_spec, !shifted_byte_bit by lia. done.
  - rewrite shiftl_lxor_pow2 by lia.
    rewrite lor_lxor_pow2; [|lia|].
    + rewrite lor_lxor_pow2_r; [done|lia|]. apply byte_val_high. lia.
    + rewrite !Z.lor_spec, !shifted_byte_bit by lia. done.
  - rewrite shiftl_lxor_pow2 by lia.
    rewrite lor_lxor_pow2; [|lia|apply shifted_byte_bit; lia].
    rewrite lor_lxor_pow2_r; [|lia|apply shifted_byte_bit; lia].
    rewrite lor_lxor_pow2_r; [done|lia|]. apply byte_val_high. lia.
  - rewrite shiftl_lxor_pow2 by lia.
    rewrite lor_lxor_pow2_r; [|lia|apply shifted_byte_bit; lia].
    rewrite lor_lxor_pow2_r; [|lia|apply shifted_byte_bit; lia].
    rewrite lor_lxor_pow2_r; [done|lia|]. apply byte_val_high. lia.
Qed.

(** The word at [4 * i] once bit [j] of byte [k] is flipped: the same
    word, with one bit flipped if [k] is one of its bytes. *)
Lemma load_uint32_flip ctx k j i w :
  (j < 8)%nat → load_uint32 ctx (4 * i) = Some w →
  ∃ m, 0 ≤ m ∧
    load_uint32 (flip_context_bit k j ctx) (4 * i)
    = Some (if decide (k `div` 4 = i)%nat then Z.lxor w (2 ^ m) else w).
Proof.
  intros Hj. unfold load_uint32, flip_context_bit.
  destruct (ctx !! (4 * i)%nat) as [b0|] eqn:E0; [|done].
  destruct (ctx !! S (4 * i)) as [b1|] eqn:E1; [|done].
  destruct (ctx !! S (S (4 * i))) as [b2|] eqn:E2; [|done].
  destruct (ctx !! S (S (S (4 * i)))) as [b3|] eqn:E3; [|done].
  intros [= <-].
  pose proof (Nat.div_mod_eq k 4) as Hk.
  pose proof (Nat.mod_upper_bound k 4 ltac:(lia)) as Hr.
  destruct (decide (k `div` 4 = i)%nat) as [Hi|Hi].
  - set (q := (k `mod` 4)%nat) in *.
    assert (∀ p b, ctx !! (4 * i + p)%nat = Some b →
                   alter (flip_bit j) k ctx !! (4 * i + p)%nat
                   = Some (if decide (q = p) then flip_bit j b else b)) as Hp.
    { intros p b Hb. case_decide as Hqp.
      - replace k with (4 * i + p)%nat by lia.
        by rewrite list_lookup_alter, decide_True, Hb.
      - rewrite list_lookup_alter_ne by lia. done. }
    replace (4 * i)%nat with (4 * i + 0)%nat in E0 |- * by lia.
    replace (S (4 * i + 0)) with (4 * i + 1)%nat by lia.
    replace (S (4 * i + 1)) with (4 * i + 2)%nat by lia.
    replace (S (4 * i + 2)) with (4 * i + 3)%nat by lia.
    replace (S (4 * i)) with (4 * i + 1)%nat in E1 by lia.
    replace (S (S (4 * i))) with (4 * i + 2)%nat in E2 by lia.
    replace (S (S (S (4 * i)))) with (4 * i + 3)%nat in E3 by lia.
    rewrite (Hp _ _ E0), (Hp _ _ E1), (Hp _ _ E2), (Hp _ _ E3).
    destruct isLittleEndian.
    + exists (8 * Z.of_nat q + Z.of_nat j). split; [lia|].
      by rewrite uint32_of_bytes_flip.
    + exists (8 * Z.of_nat (3 - q) + Z.of_nat j). split; [lia|].
      rewrite <- (uint32_of_bytes_flip (3 - q) j b3 b2 b1 b0) by lia.
      do 2 f_equal; repeat case_decide; try done; lia.
  - exists 0. split; [done|].
    rewrite !list_lookup_alter_ne by lia. by rewrite E0, E1, E2, E3.
Qed.

Lemma foldl_lxor_seed acc l :
  foldl Z.lxor acc l = Z.lxor acc (foldl Z.lxor 0 l).
Proof.
  revert acc. induction l as [|x l IH]; intros acc; cbn.
  - by rewrite Z.lxor_0_r.
  - rewrite (IH (Z.lxor acc x)), (IH (Z.lxor 0 x)), Z.lxor_0_l, Z.lxor_assoc.
    done.
Qed.

(** XOR-folding a list one element of which was XOR-ed with [d]. *)
Lemma foldl_lxor_insert acc l q w d :
  l !! q = Some w →
  foldl Z.lxor acc (<[q := Z.lxor w d]> l) = Z.lxor (foldl Z.lxor acc l) d.
Proof.
  revert acc q. induction l as [|x l IH]; intros acc q Hq; [done|].
  destruct q as [|q]; cbn in *.
  - injection Hq as ->.
    rewrite (foldl_lxor_seed (Z.lxor acc (Z.lxor w d))), (foldl_lxor_seed (Z.lxor acc w)).
    rewrite !Z.lxor_assoc. do 2 f_equal. apply Z.lxor_comm.
  - by apply IH.
Qed.

(** *** The loop of [checkContext] *)

Lemma whole_context_word ctx i :
  whole_context ctx → (i < Z.to_nat (BCC_CONTEXT_SIZE / 4))%nat →
  is_Some (load_uint32 ctx (4 * i)).
Proof.
  unfold whole_context. intros Hlen Hi. unfold load_uint32.
  assert (4 * Z.of_nat i + 3 < BCC_CONTEXT_SIZE) as Hb.
  { pose proof (Z.mul_div_le BCC_CONTEXT_SIZE 4 ltac:(lia)). lia. }
  destruct (lookup_lt_is_Some_2 ctx (4 * i)) as [? ->]; [lia|].
  destruct (lookup_lt_is_Some_2 ctx (S (4 * i))) as [? ->]; [lia|].
  destruct (lookup_lt_is_Some_2 ctx (S (S (4 * i)))) as [? ->]; [lia|].
  destruct (lookup_lt_is_Some_2 ctx (S (S (S (4 * i))))) as [? ->]; [lia|].
  done.
Qed.

Lemma for_fold_xor ctx s n i acc :
  (∀ k, (i ≤ k < i + n)%nat → is_Some (load_uint32 ctx (4 * k))) →
  for_fold i n acc
    (λ i sum, ctx <- deref (Some ctx) ;;
              w <- deref (load_uint32 ctx (4 * i)) ;;
              ret (Z.lxor sum w)) s
  = Done (foldl Z.lxor acc
            ((λ i, default 0 (load_uint32 ctx (4 * i))) <$> seq i n), s).
Proof.
  revert i acc. induction n as [|n IH]; intros i acc Hw; [done|].
  cbn [for_fold seq fmap list_fmap foldl].
  unfold bind at 1 2. cbn [deref ret].
  destruct (Hw i) as [w Hwi]; [lia|]. rewrite Hwi. unfold bind at 1. cbn.
  apply IH. intros k Hk. apply Hw. lia.
Qed.

Lemma checkContext_eval s hb res ctx :
  mpHeader s = Some hb → mpResult s = Some res → mContext res = Some ctx →
  whole_context ctx →
  checkContext s
  = if parity (context_parity_checksum (as_Header hb)) ctx =? 0
    then Done (true,
               set_events
                 (events s ++ [EvLOGI "Passed checksum even parity verification."])
                 s)
    else Done (false,
               set_events (events s ++ [EvLOGE "Checksum check failed" []]) s).
Proof.
  intros Hh Hres Hctx Hlen. unfold checkContext.
  rewrite (bind_the_header _ _ _ Hh), (bind_the_result _ _ _ Hres).
  rewrite Hctx. unfold bind at 1. rewrite (for_fold_xor ctx) by
    (intros k Hk; apply whole_context_word; [done|lia]).
  fold (context_words ctx).
  fold (parity (context_parity_checksum (as_Header hb)) ctx).
  by destruct (parity _ ctx =? 0).
Qed.

Lemma context_words_flip ctx k j :
  whole_context ctx → BCC_CONTEXT_SIZE mod 4 = 0 →
  (k < List.length ctx)%nat → (j < 8)%nat →
  ∃ m w, 0 ≤ m ∧ context_words ctx !! (k `div` 4)%nat = Some w
         ∧ context_words (flip_context_bit k j ctx)
           = <[(k `div` 4)%nat := Z.lxor w (2 ^ m)]> (context_words ctx).
Proof.
  intros Hlen Hmod Hk Hj. pose proof Hlen as Hlen'. unfold whole_context in Hlen'.
  set (n := Z.to_nat (BCC_CONTEXT_SIZE / 4)).
  assert (k `div` 4 < n)%nat as Hq.
  { subst n. pose proof (Z.div_mod BCC_CONTEXT_SIZE 4 ltac:(lia)).
    pose proof (Nat.div_mod_eq k 4).
    pose proof (Nat.mod_upper_bound k 4 ltac:(lia)). lia. }
  destruct (whole_context_word ctx (k `div` 4) Hlen Hq) as [w Hw].
  destruct (load_uint32_flip ctx k j (k `div` 4) w Hj Hw) as (m & Hm & Hflip).
  rewrite decide_True in Hflip by done.
  exists m, w. split; [done|]. split.
  { unfold context_words. fold n.
    rewrite list_lookup_fmap, lookup_seq_lt, Nat.add_0_l by done.
    cbn -[Nat.mul Nat.div]. by rewrite Hw. }
  apply list_eq. intros i. unfold context_words. fold n.
  destruct (decide (i = k `div` 4)%nat) as [->|Hne].
  - rewrite list_lookup_insert_eq by by rewrite length_fmap, length_seq.
    rewrite list_lookup_fmap, lookup_seq_lt by done.
    cbn -[Nat.mul Nat.div]. by rewrite Hflip.
  - rewrite list_lookup_insert_ne by done.
    rewrite !list_lookup_fmap.
    destruct (seq 0 n !! i) as [i'|] eqn:Hi; [|done].
    apply lookup_seq in Hi as [-> Hi]. cbn -[Nat.mul Nat.div]. f_equal.
    destruct (whole_context_word ctx i Hlen Hi) as [w' Hw'].
    destruct (load_uint32_flip ctx k j i w' Hj Hw') as (m' & _ & ->).
    rewrite decide_False by done. by rewrite Hw'.
Qed.

(** C5. On a reader whose loaded context has [BCC_CONTEXT_SIZE] bytes,
    a multiple of four, [checkContext] succeeds exactly when the XOR of
    the header's checksum word with all the words of the context is
    zero, and fails otherwise; and when it succeeds, it fails on the
    same reader once any one bit of the context is flipped. *)
Theorem checkContext_parity s hb res ctx :
  mpHeader s = Some hb → mpResult s = Some res → mContext res = Some ctx →
  whole_context ctx → BCC_CONTEXT_SIZE mod 4 = 0 →
  ((∃ s', checkContext s = Done (true, s')) ↔
   parity (context_parity_checksum (as_Header hb)) ctx = 0)
  ∧ ((∃ s', checkContext s = Done (false, s')) ↔
     parity (context_parity_checksum (as_Header hb)) ctx ≠ 0)
  ∧ ((∃ s', checkContext s = Done (true, s')) →
     ∀ k j, (k < List.length ctx)%nat → (j < 8)%nat →
       ∃ s', checkContext (with_context (flip_context_bit k j ctx) s)
             = Done (false, s')).
Proof.
  intros Hh Hres Hctx Hlen Hmod.
  rewrite (checkContext_eval s hb res ctx) by done.
  set (seed := context_parity_checksum (as_Header hb)).
  assert (Hzero : (∃ s', (if parity seed ctx =? 0
                          then Done (true, set_events (events s ++
                                 [EvLOGI "Passed checksum even parity verification."]) s)
                          else Done (false, set_events (events s ++
                                 [EvLOGE "Checksum check failed" []]) s))
                         = Done (true, s')) ↔ parity seed ctx = 0).
  { destruct (Z.eqb_spec (parity seed ctx) 0) as [E|E]; split; try done.
    - by eexists.
    - by intros [? [=]]. }
  split; [done|]. split.
  - destruct (Z.eqb_spec (parity seed ctx) 0) as [E|E]; split; try done.
    + by intros [? [=]].
    + by eexists.
  - intros Hpass%Hzero k j Hk Hj.
    destruct (context_words_flip ctx k j Hlen Hmod Hk Hj) as (m & w & Hm & Hw & Hwords).
    erewrite (checkContext_eval _ hb _ (flip_context_bit k j ctx)); cycle 1.
    + by destruct s.
    + destruct s; cbn in *. by rewrite Hres.
    + done.
    + unfold whole_context, flip_context_bit in *. by rewrite length_alter.
    + fold seed. unfold parity in *. rewrite Hwords.
      rewrite (foldl_lxor_insert _ _ _ _ _ Hw), Hpass, Z.lxor_0_l.
      destruct (Z.eqb_spec (2 ^ m) 0) as [E|_]; [|by eexists].
      pose proof (Z.pow_pos_nonneg 2 m ltac:(lia) Hm). lia.
Qed.

End Context.

Section Dependency.
Context `{P : Platform}.

(** Resolution of a string pool index, as the reader does it. *)
Lemma resolve_eval {B} (k : string → M B) s res idx :
  mpResult s = Some res →
  (p <- vector_at (mStringPool res) idx ;;
   name <- pool_c_str p ;; k name) s
  = match pool_string res idx with
    | Some name => k name s
    | None => Undefined
    end.
Proof.
  intros Hres. unfold pool_string, pool_entry, vector_at, pool_c_str.
  destruct (if 0 <=? idx then mStringPool res !! Z.to_nat idx else None)
    as [p|]; cbn [deref].
  - unfold bind at 1. cbn [ret]. unfold bind at 1.
    rewrite (bind_the_result _ _ _ Hres).
    destruct (mpStringPoolRaw res) as [raw|]; [|done].
    unfold bind at 1. cbn [deref ret]. by destruct (c_str raw p).
  - unfold bind at 1. cbn. by destruct (mpStringPoolRaw res).
Qed.

Lemma bytes20_eval {B} (k : list byte → M B) p s :
  (x <- bytes20 p ;; k x) s
  = if decide (List.length p < 20)%nat then Undefined else k (take 20 p) s.
Proof. unfold bytes20, bind. by case_decide. Qed.

Lemma memcmp_ne_20 a b :
  memcmp_ne (take 20 a) (take 20 b) 20 = negb (bool_decide (take 20 a = take 20 b)).
Proof. unfold memcmp_ne. by rewrite !take_take. Qed.

Lemma checkDependency_unfold s tab count res :
  dependency_table s tab count res →
  checkDependency s
  = if negb (Z.of_nat (List.length (mDependencies s)) =? count)
    then Done (false,
               set_events
                 (events s ++
                    [EvLOGE "Dependencies count mismatch. (%lu vs %lu)"
                       [ArgZ (Z.of_nat (List.length (mDependencies s)));
                        ArgZ count]]) s)
    else (r <- for_range 0 (Z.to_nat count) (checkDependency_body s tab res) ;;
          ret (default true r)) s.
Proof.
  intros (Htab & Hcount & Hres). unfold checkDependency.
  unfold bind at 1. unfold get at 1.
  rewrite Htab, bind_deref_Some, Hcount, bind_deref_Some.
  destruct (negb _); [done|].
  by rewrite (bind_the_result _ _ _ Hres).
Qed.

(** What one iteration does, by cases on the record it meets. *)
Lemma checkDependency_body_cases s tab res i dep rec :
  mpResult s = Some res →
  mDependencies s !! i = Some dep →
  ov_at as_DependencyTable tab i = Some rec →
  (dependency_matches res dep rec
   ∧ checkDependency_body s tab res i s = Done (None, s))
  ∨ (dependency_mismatches res dep rec
     ∧ ∃ s', checkDependency_body s tab res i s = Done (Some false, s'))
  ∨ (¬ dependency_matches res dep rec ∧ ¬ dependency_mismatches res dep rec
     ∧ checkDependency_body s tab res i s = Undefined).
Proof.
  intros Hres Hdep Hrec. unfold checkDependency_body.
  cbn zeta. rewrite Hdep, bind_deref_Some, Hrec, bind_deref_Some.
  rewrite (resolve_eval _ s res _ Hres).
  unfold dependency_matches, dependency_mismatches, same_fingerprint.
  destruct (pool_string res (res_name_strp_index rec)) as [name|];
    [|right; right; split; [|split]; [by intros [[=] _]|by intros (? & [=] & _)|done]].
  destruct (String.eqb_spec dep.1 name) as [<-|Hname]; cbn [negb].
  - rewrite bytes20_eval. case_decide as Hg.
    { right; right. split; [|split]; [intros (_ & (? & _) & _); lia| |done].
      intros (? & [= <-] & [?|(? & _)]); [done|lia]. }
    rewrite bytes20_eval. case_decide as Hc.
    { right; right. split; [|split]; [intros (_ & (_ & ? & _) & _); lia| |done].
      intros (? & [= <-] & [?|(_ & ? & _)]); [done|lia]. }
    rewrite memcmp_ne_20. case_bool_decide as Hsha; cbn [negb].
    + destruct (Z.eqb_spec dep.2.1 (res_type rec)) as [Hty|Hty]; cbn [negb].
      * left. repeat split; [lia..|done|done].
      * right; left. split; [|by eexists].
        exists dep.1. split; [done|]. right. repeat split; [lia..|by right].
    + right; left. split; [|by eexists].
      exists dep.1. split; [done|]. right. repeat split; [lia..|by left].
  - right; left. split; [|by eexists].
    exists name. split; [done|]. by left.
Qed.

Lemma checkDependency_body_Done s tab res i r t :
  checkDependency_body s tab res i s = Done (r, t) →
  ∃ dep rec, mDependencies s !! i = Some dep
             ∧ ov_at as_DependencyTable tab i = Some rec.
Proof.
  unfold checkDependency_body. intros H.
  apply bind_Done in H as (dep & ? & [Hdep ->]%deref_Done & H).
  apply bind_Done in H as (rec & ? & [Hrec ->]%deref_Done & H).
  by exists dep, rec.
Qed.

Lemma matches_not_mismatches res dep rec :
  dependency_matches res dep rec → ¬ dependency_mismatches res dep rec.
Proof.
  intros (Hname & (_ & _ & Hsha) & Hty) (name & Hname' & Hdiff).
  rewrite Hname in Hname'. injection Hname' as <-.
  destruct Hdiff as [?|(_ & _ & [?|?])]; done.
Qed.

Lemma checkDependency_body_match s tab res i dep rec :
  mpResult s = Some res →
  mDependencies s !! i = Some dep →
  ov_at as_DependencyTable tab i = Some rec →
  dependency_matches res dep rec →
  checkDependency_body s tab res i s = Done (None, s).
Proof.
  intros Hres Hdep Hrec Hm.
  destruct (checkDependency_body_cases s tab res i dep rec Hres Hdep Hrec)
    as [[_ ?]|[[Hmis _]|(Hno & _)]]; [done| |done].
  by destruct (matches_not_mismatches res dep rec).
Qed.

Lemma checkDependency_body_mismatch s tab res i dep rec :
  mpResult s = Some res →
  mDependencies s !! i = Some dep →
  ov_at as_DependencyTable tab i = Some rec →
  dependency_mismatches res dep rec →
  ∃ s', checkDependency_body s tab res i s = Done (Some false, s').
Proof.
  intros Hres Hdep Hrec Hm.
  destruct (checkDependency_body_cases s tab res i dep rec Hres Hdep Hrec)
    as [[Hmatch _]|[[_ ?]|(_ & Hno & _)]]; [|done|done].
  by destruct (matches_not_mismatches res dep rec).
Qed.

Lemma checkDependency_body_None s tab res i t :
  mpResult s = Some res →
  checkDependency_body s tab res i s = Done (None, t) →
  t = s ∧ ∃ dep rec, mDependencies s !! i = Some dep
                     ∧ ov_at as_DependencyTable tab i = Some rec
                     ∧ dependency_matches res dep rec.
Proof.
  intros Hres H.
  destruct (checkDependency_body_Done _ _ _ _ _ _ H) as (dep & rec & Hdep & Hrec).
  destruct (checkDependency_body_cases s tab res i dep rec Hres Hdep Hrec)
    as [[Hm E]|[[_ [s' E]]|(_ & _ & E)]]; rewrite E in H; [|done..].
  injection H as <-. split; [done|]. by exists dep, rec.
Qed.

(** C4. [checkDependency] returns true exactly when the cached table
    has as many records as the caller gave dependencies and, taken
    together in the order of the caller's map, every record resolves
    through the string pool to the name of its dependency, has the same
    20 bytes of fingerprint and the same type; it returns false when
    the counts differ, and at the first record that resolves but
    differs by one of the three, whatever the records behind it. *)
Theorem checkDependency_iff_match s :
  (∀ s', checkDependency s = Done (true, s') ↔ s' = s ∧ dependencies_match s)
  ∧ (∀ tab count res,
       dependency_table s tab count res →
       count ≠ Z.of_nat (List.length (mDependencies s)) →
       ∃ s', checkDependency s = Done (false, s'))
  ∧ (∀ tab count res i dep rec,
       dependency_table s tab count res →
       count = Z.of_nat (List.length (mDependencies s)) →
       dependencies_match_upto s tab res i →
       mDependencies s !! i = Some dep →
       ov_at as_DependencyTable tab i = Some rec →
       dependency_mismatches res dep rec →
       ∃ s', checkDependency s = Done (false, s')).
Proof.
  split; [|split].
  - intros s'. split.
    + intros H. pose proof H as H0. unfold checkDependency in H0.
      apply bind_Done in H0 as (? & ? & [= <- <-] & H0).
      apply bind_Done in H0 as (tab & ? & [Htab ->]%deref_Done & H0).
      apply bind_Done in H0 as (count & ? & [Hcount ->]%deref_Done & H0).
      destruct (Z.eqb_spec (Z.of_nat (List.length (mDependencies s))) count)
        as [Hn|Hn]; cbn [negb] in H0; [|by apply bind_Done in H0 as (? & ? & _ & [=])].
      apply bind_Done in H0 as (res & ? & [Hres ->]%the_result_Done & _).
      rewrite (checkDependency_unfold s tab count res) in H by done.
      rewrite <- Hn, Z.eqb_refl in H. cbn [negb] in H.
      apply bind_Done in H as (r & s1 & Hloop & Hret).
      apply for_range_inv in Hloop
        as [(-> & -> & Hall)|(j & x & -> & Hj & _ & Hb)].
      * injection Hret as <-. split; [done|].
        exists tab, count, res. repeat split; [done..|].
        intros i dep Hi Hdep. rewrite Nat2Z.id in Hall.
        destruct (checkDependency_body_None s tab res i s Hres (Hall i ltac:(lia)))
          as (_ & dep' & rec & Hdep' & Hrec & Hm).
        exists rec. split; [done|]. congruence.
      * injection Hret as -> _.
        destruct (checkDependency_body_Done _ _ _ _ _ _ Hb) as (dep & rec & Hdep & Hrec).
        destruct (checkDependency_body_cases s tab res j dep rec Hres Hdep Hrec)
          as [[_ E]|[[_ [t E]]|(_ & _ & E)]]; rewrite E in Hb; done.
      * intros k t _ Hk. by apply (checkDependency_body_None s tab res k t Hres).
    + intros (-> & tab & count & res & Htable & -> & Hall).
      rewrite (checkDependency_unfold s tab _ res Htable).
      rewrite Z.eqb_refl, Nat2Z.id. cbn [negb].
      apply bind_Done. exists None, s. split; [|done].
      apply for_range_none. intros k Hk.
      destruct (lookup_lt_is_Some_2 (mDependencies s) k) as [dep Hdep]; [lia|].
      destruct (Hall k dep ltac:(lia) Hdep) as (rec & Hrec & Hm).
      destruct Htable as (_ & _ & Hres).
      by apply (checkDependency_body_match s tab res k dep rec).
  - intros tab count res Htable Hn.
    rewrite (checkDependency_unfold s tab count res Htable).
    destruct (Z.eqb_spec (Z.of_nat (List.length (mDependencies s))) count);
      [done|by eexists].
  - intros tab count res i dep rec Htable -> Hupto Hdep Hrec Hmis.
    rewrite (checkDependency_unfold s tab _ res Htable).
    rewrite Z.eqb_refl, Nat2Z.id. cbn [negb].
    destruct Htable as (_ & _ & Hres).
    destruct (checkDependency_body_mismatch s tab res i dep rec Hres Hdep Hrec Hmis)
      as [s' Hb].
    exists s'. apply bind_Done. exists (Some false), s'. split; [|done].
    apply (for_range_first _ _ _ _ i); [| |done].
    + apply lookup_lt_Some in Hdep. lia.
    + intros k Hk.
      destruct (lookup_lt_is_Some_2 (mDependencies s) k) as [dep' Hdep'].
      { apply lookup_lt_Some in Hdep. lia. }
      destruct (Hupto k dep' ltac:(lia) Hdep') as (rec' & Hrec' & Hm).
      by apply (checkDependency_body_match s tab res k dep' rec').
Qed.

End Dependency.

Section SectionReader.
Context `{P : Platform}.

(** A section that can be read whole is handed to what follows the
    macro, on a reader that differs by the events of the read, the
    position in the file, the memory left and the holder. *)
Ltac read_section NAME_offset :=
  let hb := fresh "hb" in
  let f := fresh "f" in
  let Hh := fresh in let Hf := fresh in let Ha := fresh in
  let Hfd := fresh in let Hoff := fresh in let Hlen := fresh in
  let mf := fresh "mf" in let mh := fresh "mh" in let hp := fresh "hp" in
  let Efd := fresh in let Eoff := fresh in let Eneg := fresh in
  intros (hb & f & Hh & Hf & Ha & Hfd & Hoff & -> & Hlen);
  match goal with s : CacheReader |- _ =>
    destruct s as [mf ? mh ? ? ? ? ? hp ? ?] end;
  cbn in Hh, Hf, Ha; subst mf mh;
  assert ((getFD f <? 0) = false) as Efd by (apply Z.ltb_ge; lia);
  assert ((NAME_offset (as_Header hb) <? 0) = false) as Eoff
    by (apply Z.ltb_ge; lia);
  assert ((NAME_offset (as_Header hb) =? -1) = false) as Eneg
    by (apply Z.eqb_neq; lia);
  unfold CACHE_READER_READ_SECTION, in_reader, can_allocate in *;
  unfold_monad;
  destruct hp as [|[] hp]; cbn in Ha |- *; try done;
  rewrite ?Efd, ?Eoff; cbn; rewrite ?Eneg; cbn; rewrite ?Efd; cbn;
  rewrite Hlen, Z.eqb_refl; cbn;
  (eexists _, hb; split; [reflexivity|]; cbn;
   rewrite <- ?app_assoc; done).

Lemma read_pragma_list_eval k s raw :
  section_in_file s pragma_list_offset pragma_list_size raw →
  ∃ s1 hb,
    CACHE_READER_READ_SECTION (in_reader set_mpPragmaList) "pragma_list"
      pragma_list_offset pragma_list_size k s
    = k raw s1
    ∧ mpHeader s = Some hb
    ∧ mpResult s1 = mpResult s
    ∧ events s1
      = events s
        ++ section_events (as_Header hb) pragma_list_offset pragma_list_size.
Proof. read_section pragma_list_offset. Qed.

Lemma read_func_table_eval k s raw :
  section_in_file s func_table_offset func_table_size raw →
  ∃ s1 hb,
    CACHE_READER_READ_SECTION (in_reader set_mpFuncTable) "func_table"
      func_table_offset func_table_size k s
    = k raw s1
    ∧ mpHeader s = Some hb
    ∧ mpResult s1 = mpResult s
    ∧ events s1
      = events s
        ++ section_events (as_Header hb) func_table_offset func_table_size.
Proof. read_section func_table_offset. Qed.

End SectionReader.

Section FuncTable.
Context `{P : Platform}.

Lemma readFuncTable_body_eval raw i t r rec name :
  mpResult t = Some r →
  ov_at as_FuncTable raw i = Some rec →
  pool_string r (name_strp_index rec) = Some name →
  readFuncTable_body raw i t
  = Done (None,
          set_mpResult
            (Some (set_mFunctions
                     (map_insert name (cached_addr rec, func_size rec)
                        (mFunctions r)) r)) t).
Proof.
  intros Hr Hrec Hname. unfold readFuncTable_body.
  rewrite Hrec, bind_deref_Some, (bind_the_result _ _ _ Hr).
  rewrite (resolve_eval _ t r _ Hr), Hname.
  unfold modify_result. unfold bind at 1.
  by rewrite (bind_the_result _ _ _ Hr).
Qed.

Lemma readFuncTable_loop raw recs i t r :
  mpResult t = Some r →
  (∀ j rec name, recs !! j = Some (rec, name) →
     ov_at as_FuncTable raw (i + j) = Some rec
     ∧ pool_string r (name_strp_index rec) = Some name) →
  for_range i (List.length recs) (readFuncTable_body raw) t
  = Done (None,
          set_mpResult
            (Some (set_mFunctions (insert_all recs (mFunctions r)) r)) t).
Proof.
  revert i t r. induction recs as [|[rec name] recs IH]; intros i t r Hr Hrecs.
  - cbn. unfold ret. f_equal. f_equal. destruct t, r; cbn in *. by rewrite Hr.
  - cbn [List.length for_range].
    destruct (Hrecs 0%nat rec name eq_refl) as [Hrec Hname].
    rewrite Nat.add_0_r in Hrec.
    unfold bind at 1.
    rewrite (readFuncTable_body_eval raw i t r rec name Hr Hrec Hname).
    rewrite (IH (S i) _
               (set_mFunctions
                  (map_insert name (cached_addr rec, func_size rec)
                     (mFunctions r)) r)); [done|done|].
    intros j rec' name' Hj.
    destruct (Hrecs (S j) rec' name' Hj) as [Hrec' Hname'].
    by rewrite Nat.add_succ_r in Hrec'.
Qed.

Lemma map_insert_new k v (m : gmap string (Z * Z)) :
  m !! k = None → map_insert k v m !! k = Some v.
Proof. intros H. unfold map_insert. rewrite H. apply lookup_insert_eq. Qed.

Lemma map_insert_ne k k' v (m : gmap string (Z * Z)) :
  k ≠ k' → map_insert k v m !! k' = m !! k'.
Proof.
  intros H. unfold map_insert. destruct (m !! k); [done|].
  by apply lookup_insert_ne.
Qed.

(** An insertion never replaces what the table already maps. *)
Lemma map_insert_keeps k k' v w (m : gmap string (Z * Z)) :
  m !! k' = Some w → map_insert k v m !! k' = Some w.
Proof.
  intros H. destruct (decide (k = k')) as [->|Hne].
  - unfold map_insert. by rewrite H.
  - by rewrite map_insert_ne.
Qed.

Lemma insert_all_cons p recs (m : gmap string (Z * Z)) :
  insert_all (p :: recs) m
  = insert_all recs (map_insert p.2 (cached_addr p.1, func_size p.1) m).
Proof. done. Qed.

Lemma insert_all_keeps recs (m : gmap string (Z * Z)) name v :
  m !! name = Some v → insert_all recs m !! name = Some v.
Proof.
  revert m. induction recs as [|p recs IH]; intros m Hm; [done|].
  rewrite insert_all_cons. by apply IH, map_insert_keeps.
Qed.

Lemma insert_all_first recs (m : gmap string (Z * Z)) name i rec :
  first_occurrence recs name i rec → m !! name = None →
  insert_all recs m !! name = Some (cached_addr rec, func_size rec).
Proof.
  revert m i. induction recs as [|[rec0 n0] recs IH]; intros m i [Hi Hfirst] Hm;
    [done|].
  rewrite insert_all_cons. destruct i as [|i]; cbn in Hi.
  - injection Hi as -> ->. by apply insert_all_keeps, map_insert_new.
  - assert (n0 ≠ name) as Hne.
    { intros ->. by apply (Hfirst 0%nat rec0 ltac:(lia)). }
    apply (IH _ i).
    + split; [done|]. intros j rec' Hj. apply (Hfirst (S j) rec'). lia.
    + by rewrite map_insert_ne.
Qed.

Lemma insert_all_absent recs (m : gmap string (Z * Z)) name :
  (∀ i rec, recs !! i ≠ Some (rec, name)) →
  insert_all recs m !! name = m !! name.
Proof.
  revert m. induction recs as [|[rec0 n0] recs IH]; intros m Hno; [done|].
  assert (n0 ≠ name) as Hne.
  { intros ->. by apply (Hno 0%nat rec0). }
  rewrite insert_all_cons, IH.
  - by apply map_insert_ne.
  - intros i rec. apply (Hno (S i) rec).
Qed.

(** C9. When the function table section can be read and its records
    resolve to names, [readFuncTable] succeeds without a message, and
    the mapping of the result object gives, to every name the mapping
    did not have before, the address and size of the first record that
    bears it: the later records with that name change nothing; names no
    record bears are as they were. *)
Theorem readFuncTable_first_wins s res raw recs :
  mpResult s = Some res →
  section_in_file s func_table_offset func_table_size raw →
  function_records res raw recs →
  ∃ s' res' hb,
    readFuncTable s = Done (true, s')
    ∧ mpResult s' = Some res'
    ∧ (∀ i rec name,
         first_occurrence recs name i rec →
         mFunctions res !! name = None →
         mFunctions res' !! name = Some (cached_addr rec, func_size rec))
    ∧ (∀ name, (∀ i rec, recs !! i ≠ Some (rec, name)) →
         mFunctions res' !! name = mFunctions res !! name)
    ∧ mpHeader s = Some hb
    ∧ events s'
      = events s
        ++ section_events (as_Header hb) func_table_offset func_table_size.
Proof.
  intros Hres Hsec [(count & Hcount & Hn) Hrecs].
  unfold readFuncTable.
  match goal with |- context [CACHE_READER_READ_SECTION _ _ _ _ ?k] =>
    destruct (read_func_table_eval k s raw Hsec)
      as (s1 & hb & -> & Hh & Hres1 & Hev) end.
  rewrite Hres in Hres1.
  rewrite Hcount, bind_deref_Some, Hn.
  unfold bind at 1.
  rewrite (readFuncTable_loop raw recs 0 s1 res Hres1) by (intros; by apply Hrecs).
  eexists _, _, hb. split; [reflexivity|]. split; [reflexivity|].
  cbn [mFunctions set_mFunctions].
  split; [|split; [|split]].
  - intros i rec name. apply insert_all_first.
  - intros name. apply insert_all_absent.
  - done.
  - by destruct s1.
Qed.

End FuncTable.

Section Index.
Context `{P : Platform}.

Lemma pool_entry_in res idx : index_in_pool res idx → is_Some (pool_entry res idx).
Proof.
  intros [H0 H1]. unfold pool_entry.
  destruct (Z.leb_spec 0 idx); [|lia]. apply lookup_lt_is_Some_2. lia.
Qed.

Lemma pool_entry_out res idx : ¬ index_in_pool res idx → pool_entry res idx = None.
Proof.
  intros H. unfold pool_entry. destruct (Z.leb_spec 0 idx); [|done].
  apply lookup_ge_None_2. unfold index_in_pool in H. lia.
Qed.

Lemma pool_string_out res idx : ¬ index_in_pool res idx → pool_string res idx = None.
Proof.
  intros H. unfold pool_string. rewrite (pool_entry_out _ _ H).
  by destruct (mpStringPoolRaw res).
Qed.

(** [strPool[idx]] is the pool entry when there is one, and undefined
    otherwise. *)
Lemma vector_at_pool {B} (k : Z → M B) res idx s :
  (x <- vector_at (mStringPool res) idx ;; k x) s
  = match pool_entry res idx with
    | Some p => k p s
    | None => Undefined
    end.
Proof.
  unfold vector_at. fold (pool_entry res idx).
  by destruct (pool_entry res idx).
Qed.

Lemma readPragmaList_body_eval raw i t r p :
  mpResult t = Some r →
  ov_at as_PragmaList raw i = Some p →
  readPragmaList_body raw i t
  = match pragma_pair r p with
    | Some kv =>
        Done (None,
              set_mpResult (Some (set_mPragmas (mPragmas r ++ [kv]) r)) t)
    | None => Undefined
    end.
Proof.
  intros Hr Hp. unfold readPragmaList_body, pragma_pair.
  rewrite Hp, bind_deref_Some, (bind_the_result _ _ _ Hr), vector_at_pool.
  destruct (pool_entry r (key_strp_index p)) as [k|]; [|done].
  rewrite vector_at_pool.
  destruct (pool_entry r (value_strp_index p)) as [v|]; [|done].
  unfold modify_result. unfold bind at 1.
  by rewrite (bind_the_result _ _ _ Hr).
Qed.

Lemma readPragmaList_loop raw ps pairs i t r :
  mpResult t = Some r →
  (∀ j p, ps !! j = Some p → ov_at as_PragmaList raw (i + j) = Some p) →
  Forall2 (λ p kv, pragma_pair r p = Some kv) ps pairs →
  for_range i (List.length ps) (readPragmaList_body raw) t
  = Done (None,
          set_mpResult (Some (set_mPragmas (mPragmas r ++ pairs) r)) t).
Proof.
  revert pairs i t r.
  induction ps as [|p ps IH]; intros pairs i t r Hr Hat Hall.
  - apply Forall2_nil_inv_l in Hall as ->.
    cbn. unfold ret. do 2 f_equal. rewrite app_nil_r.
    destruct t, r; cbn in *. by rewrite Hr.
  - apply Forall2_cons_inv_l in Hall as (kv & pairs' & Hp & Hall & ->).
    cbn [List.length for_range]. unfold bind at 1.
    rewrite (readPragmaList_body_eval raw i t r p Hr); last first.
    { specialize (Hat 0%nat p eq_refl). by rewrite Nat.add_0_r in Hat. }
    rewrite Hp.
    rewrite (IH pairs' (S i) _ (set_mPragmas (mPragmas r ++ [kv]) r));
      [|done| |exact Hall].
    + cbn. by rewrite <- app_assoc.
    + intros j p' Hj. specialize (Hat (S j) p' Hj).
      by rewrite Nat.add_succ_r in Hat.
Qed.

Lemma pragma_pairs_exist res ps :
  Forall (pragma_in_pool res) ps →
  ∃ pairs, Forall2 (λ p kv, pragma_pair res p = Some kv) ps pairs.
Proof.
  induction 1 as [|p ps [Hk Hv] _ [pairs IH]]; [by exists []|].
  destruct (pool_entry_in _ _ Hk) as [k Ek].
  destruct (pool_entry_in _ _ Hv) as [v Ev].
  exists ((k, v) :: pairs). constructor; [|done].
  unfold pragma_pair. by rewrite Ek, Ev.
Qed.

Lemma pragma_pair_out res p :
  ¬ pragma_in_pool res p → pragma_pair res p = None.
Proof.
  intros H. unfold pragma_pair.
  destruct (pool_entry res (key_strp_index p)) as [k|] eqn:Ek; [|done].
  destruct (pool_entry res (value_strp_index p)) as [v|] eqn:Ev; [|done].
  destruct H. split.
  - destruct (decide (index_in_pool res (key_strp_index p))) as [|Hn]; [done|].
    by rewrite (pool_entry_out _ _ Hn) in Ek.
  - destruct (decide (index_in_pool res (value_strp_index p))) as [|Hn]; [done|].
    by rewrite (pool_entry_out _ _ Hn) in Ev.
Qed.

Lemma readPragmaList_loop_out raw ps i p t r :
  mpResult t = Some r →
  (∀ j p, ps !! j = Some p → ov_at as_PragmaList raw j = Some p) →
  ps !! i = Some p →
  Forall (pragma_in_pool r) (take i ps) → ¬ pragma_in_pool r p →
  for_range 0 (List.length ps) (readPragmaList_body raw) t = Undefined.
Proof.
  intros Hr Hat Hp Hpre Hout.
  pose proof (lookup_lt_Some _ _ _ Hp) as Hi.
  destruct (pragma_pairs_exist r _ Hpre) as [pairs Hpairs].
  replace (List.length ps) with (List.length (take i ps) + S (List.length ps - S i))%nat
    by (rewrite length_take; lia).
  rewrite for_range_app. unfold bind.
  rewrite (readPragmaList_loop raw (take i ps) pairs 0 t r Hr); [|  |done].
  - cbn [for_range]. unfold bind.
    rewrite (readPragmaList_body_eval raw _ _
               (set_mPragmas (mPragmas r ++ pairs) r) p); [|done|].
    + change (pragma_pair (set_mPragmas (mPragmas r ++ pairs) r) p)
        with (pragma_pair r p).
      by rewrite (pragma_pair_out _ _ Hout).
    + rewrite length_take, Nat.min_l by lia. by apply Hat.
  - intros j p' Hj. apply Hat. rewrite lookup_take_Some in Hj. by destruct Hj.
Qed.

Lemma readFuncTable_loop_out raw recs n rec t r :
  mpResult t = Some r →
  (∀ j rec name, recs !! j = Some (rec, name) →
     ov_at as_FuncTable raw j = Some rec
     ∧ pool_string r (name_strp_index rec) = Some name) →
  (List.length recs < n)%nat →
  ov_at as_FuncTable raw (List.length recs) = Some rec →
  ¬ index_in_pool r (name_strp_index rec) →
  for_range 0 n (readFuncTable_body raw) t = Undefined.
Proof.
  intros Hr Hat Hn Hrec Hout.
  replace n with (List.length recs + S (n - S (List.length recs)))%nat by lia.
  rewrite for_range_app. unfold bind.
  rewrite (readFuncTable_loop raw recs 0 t r Hr) by done.
  cbn [for_range]. unfold bind. unfold readFuncTable_body.
  rewrite Nat.add_0_l, Hrec, bind_deref_Some.
  erewrite bind_the_result by reflexivity.
  erewrite resolve_eval by reflexivity.
  change (pool_string (set_mFunctions _ r)) with (pool_string r).
  by rewrite (pool_string_out _ _ Hout).
Qed.

Lemma resolved_match_or_mismatch res dep rec name :
  pool_string res (res_name_strp_index rec) = Some name →
  (20 ≤ List.length dep.2.2)%nat → (20 ≤ List.length (sha1 rec))%nat →
  dependency_matches res dep rec ∨ dependency_mismatches res dep rec.
Proof.
  intros Hname Hg Hc. unfold dependency_matches, dependency_mismatches,
    same_fingerprint.
  destruct (decide (name = dep.1)) as [->|Hn];
    [|right; exists name; split; [done|by left]].
  destruct (decide (take 20 dep.2.2 = take 20 (sha1 rec))) as [Hs|Hs];
    [|right; exists dep.1; split; [done|]; right; repeat split; try done;
      by left].
  destruct (decide (dep.2.1 = res_type rec)) as [Ht|Ht].
  - by left.
  - right. exists dep.1. split; [done|]. right. repeat split; try done.
    by right.
Qed.

(** C2, as the code has it.  The string-pool index of a record of the
    dependency table, the pragma list or the function table is used to
    index the pool as it is, with no check of its range.  An index
    within the pool gives the pool's entry at that index, and tables
    whose indices all lie within the pool (and, where the name is read,
    select strings that end inside the blob) are read to the end; an
    index out of range, in the first record that has one, makes the step
    undefined: it does not return, be it with a failure. *)
Theorem string_pool_index_unchecked s res :
  mpResult s = Some res →
  (∀ idx B (k : Z → M B),
     (x <- vector_at (mStringPool res) idx ;; k x) s
     = match pool_entry res idx with
       | Some p => k p s
       | None => Undefined
       end)
  ∧ (∀ raw ps,
       section_in_file s pragma_list_offset pragma_list_size raw →
       pragma_records raw ps →
       (Forall (pragma_in_pool res) ps →
        ∃ s' res' pairs,
          readPragmaList s = Done (true, s')
          ∧ mpResult s' = Some res'
          ∧ mPragmas res' = mPragmas res ++ pairs
          ∧ Forall2 (λ p kv, pragma_pair res p = Some kv) ps pairs)
       ∧ (∀ i p, ps !! i = Some p →
            Forall (pragma_in_pool res) (take i ps) →
            ¬ pragma_in_pool res p →
            readPragmaList s = Undefined))
  ∧ (∀ raw recs,
       section_in_file s func_table_offset func_table_size raw →
       (function_records res raw recs →
        ∃ s', readFuncTable s = Done (true, s'))
       ∧ (∀ count rec,
            ov_count as_FuncTable raw = Some count →
            (∀ j rec name, recs !! j = Some (rec, name) →
               ov_at as_FuncTable raw j = Some rec
               ∧ pool_string res (name_strp_index rec) = Some name) →
            (List.length recs < Z.to_nat count)%nat →
            ov_at as_FuncTable raw (List.length recs) = Some rec →
            ¬ index_in_pool res (name_strp_index rec) →
            readFuncTable s = Undefined))
  ∧ (∀ tab count,
       dependency_table s tab count res →
       (dependencies_resolve s tab res →
        ∃ b s', checkDependency s = Done (b, s'))
       ∧ (∀ i dep rec,
            count = Z.of_nat (List.length (mDependencies s)) →
            dependencies_match_upto s tab res i →
            mDependencies s !! i = Some dep →
            ov_at as_DependencyTable tab i = Some rec →
            ¬ index_in_pool res (res_name_strp_index rec) →
            checkDependency s = Undefined)).
Proof.
  intros Hres. split; [|split; [|split]].
  - intros idx B k. apply vector_at_pool.
  - intros raw ps Hsec [(count & Hcount & Hn) Hat]. unfold readPragmaList.
    match goal with |- context [CACHE_READER_READ_SECTION _ _ _ _ ?k] =>
      destruct (read_pragma_list_eval k s raw Hsec)
        as (s1 & hb & -> & Hh & Hres1 & Hev) end.
    rewrite Hres in Hres1. rewrite Hcount, bind_deref_Some, Hn. split.
    + intros Hall. destruct (pragma_pairs_exist res ps Hall) as [pairs Hpairs].
      unfold bind at 1.
      rewrite (readPragmaList_loop raw ps pairs 0 s1 res Hres1) by done.
      by eexists _, _, pairs.
    + intros i p Hp Hpre Hout. unfold bind at 1.
      by rewrite (readPragmaList_loop_out raw ps i p s1 res).
  - intros raw recs Hsec. unfold readFuncTable.
    match goal with |- context [CACHE_READER_READ_SECTION _ _ _ _ ?k] =>
      destruct (read_func_table_eval k s raw Hsec)
        as (s1 & hb & -> & Hh & Hres1 & Hev) end.
    rewrite Hres in Hres1. split.
    + intros [(count & Hcount & Hn) Hat].
      rewrite Hcount, bind_deref_Some, Hn. unfold bind at 1.
      rewrite (readFuncTable_loop raw recs 0 s1 res Hres1) by done.
      by eexists.
    + intros count rec Hcount Hat Hn Hrec Hout.
      rewrite Hcount, bind_deref_Some. unfold bind at 1.
      by rewrite (readFuncTable_loop_out raw recs _ rec s1 res).
  - intros tab count Htable.
    rewrite (checkDependency_unfold s tab count res Htable). split.
    + intros Hresolve.
      destruct (Z.eqb_spec (Z.of_nat (List.length (mDependencies s))) count)
        as [Hc|Hc]; cbn [negb]; [|by eexists _, _].
      * destruct (for_range_total (checkDependency_body s tab res) s
                    (Z.to_nat count) 0) as (r & s' & Hloop).
        { intros k Hk.
          destruct (lookup_lt_is_Some_2 (mDependencies s) k) as [dep Hdep]; [lia|].
          destruct (Hresolve k dep Hdep) as (rec & name & Hrec & Hname & Hg & Hcd).
          destruct (resolved_match_or_mismatch res dep rec name Hname Hg Hcd)
            as [Hm|Hm].
          - left. by apply (checkDependency_body_match s tab res k dep rec).
          - right.
            destruct (checkDependency_body_mismatch s tab res k dep rec)
              as [t Ht]; try done. by eexists _, _. }
        exists (default true r), s'. apply bind_Done. by exists r, s'.
    + intros i dep rec -> Hupto Hdep Hrec Hout.
      rewrite Z.eqb_refl, Nat2Z.id. cbn [negb]. unfold bind at 1.
      rewrite (for_range_first_undefined _ s _ 0 i); [done| | |].
      * apply lookup_lt_Some in Hdep. lia.
      * intros k Hk.
        destruct (lookup_lt_is_Some_2 (mDependencies s) k) as [dep' Hdep'].
        { apply lookup_lt_Some in Hdep. lia. }
        destruct (Hupto k dep' ltac:(lia) Hdep') as (rec' & Hrec' & Hm).
        by apply (checkDependency_body_match s tab res k dep' rec').
      * destruct (checkDependency_body_cases s tab res i dep rec Hres Hdep Hrec)
          as [[(Hname & _) _]|[[(name & Hname & _) _]|(_ & _ & E)]]; [| |done];
          by rewrite (pool_string_out _ _ Hout) in Hname.
Qed.

End Index.

Section Sections.
Context `{P : Platform}.

(** When a section passes [CHECK_SECTION_OFFSET], it is as the macro
    asks, and the function goes on with the reader as it was. *)
Lemma CHECK_SECTION_OFFSET_pass NAME NAME_offset NAME_size k s s' hb :
  mpHeader s = Some hb →
  CHECK_SECTION_OFFSET NAME NAME_offset NAME_size k s = Done (true, s') →
  section_checked (mFileSize s) (NAME_offset (as_Header hb))
    (NAME_size (as_Header hb))
  ∧ k s = Done (true, s').
Proof.
  intros Hh. unfold CHECK_SECTION_OFFSET, section_checked.
  rewrite (bind_the_header _ _ _ Hh). unfold bind at 1. unfold get at 1.
  set (offset := NAME_offset (as_Header hb)).
  set (size := wrap_signed off_t_bits (NAME_size (as_Header hb))).
  cbn zeta. intros H.
  apply bind_Done in H as (overflow & s1 & Hov & H).
  assert (s1 = s ∧ overflow = false → offset ≤ mFileSize s
                                      ∧ offset + size ≤ mFileSize s) as Hb.
  { destruct (Z.ltb_spec (mFileSize s) offset) as [|Hle].
    - injection Hov as <- <-. by intros [_ [=]].
    - unfold off_t_add in Hov. unfold bind at 1 in Hov.
      destruct (fits_signed off_t_bits (offset + size)); [|done].
      cbn in Hov. injection Hov as <- <-. intros [_ Hlt].
      apply Z.ltb_ge in Hlt. lia. }
  assert (s1 = s) as ->.
  { destruct (mFileSize s <? offset); [by injection Hov|].
    unfold off_t_add, bind in Hov.
    destruct (fits_signed off_t_bits (offset + size)); [|done].
    by injection Hov. }
  destruct overflow; [by apply bind_Done in H as (? & ? & _ & [=])|].
  destruct (Z.eqb_spec (off_t_mod_size_t offset sizeof_int) 0) as [Hal|];
    cbn [negb] in H; [|by apply bind_Done in H as (? & ? & _ & [=])].
  destruct (Z.ltb_spec size sizeof_size_t) as [|Hsz];
    [by apply bind_Done in H as (? & ? & _ & [=])|].
  destruct Hb as [? ?]; [done|]. done.
Qed.

(** The sections [checkSectionOffsetAndSize] checks: when it succeeds,
    the string pool, the dependency table, the relocation table, the
    two export lists and the pragma list are as the macro asks. *)
Lemma checkSectionOffsetAndSize_checked s s' hb :
  mpHeader s = Some hb →
  checkSectionOffsetAndSize s = Done (true, s') →
  let h := as_Header hb in
  section_checked (mFileSize s) (str_pool_offset h) (str_pool_size h)
  ∧ section_checked (mFileSize s) (depend_tab_offset h) (depend_tab_size h)
  ∧ section_checked (mFileSize s) (reloc_tab_offset h) (reloc_tab_size h)
  ∧ section_checked (mFileSize s)
      (export_var_list_offset h) (export_var_list_size h)
  ∧ section_checked (mFileSize s)
      (export_func_list_offset h) (export_func_list_size h)
  ∧ section_checked (mFileSize s) (pragma_list_offset h) (pragma_list_size h).
Proof.
  intros Hh H. unfold checkSectionOffsetAndSize in H.
  apply (CHECK_SECTION_OFFSET_pass _ _ _ _ _ _ _ Hh) in H as [H1 H].
  apply (CHECK_SECTION_OFFSET_pass _ _ _ _ _ _ _ Hh) in H as [H2 H].
  apply (CHECK_SECTION_OFFSET_pass _ _ _ _ _ _ _ Hh) in H as [H3 H].
  apply (CHECK_SECTION_OFFSET_pass _ _ _ _ _ _ _ Hh) in H as [H4 H].
  apply (CHECK_SECTION_OFFSET_pass _ _ _ _ _ _ _ Hh) in H as [H5 H].
  apply (CHECK_SECTION_OFFSET_pass _ _ _ _ _ _ _ Hh) in H as [H6 H].
  done.
Qed.

End Sections.

Section Primitives.
Context `{P : Platform}.

Lemma allocate_eval e s :
  allocate e s
  = Done (default true (head (heap s)),
          set_heap (tail (heap s)) (set_events (events s ++ [e]) s)).
Proof. destruct s as [? ? ? ? ? ? ? ? hp ? ?]. by destruct hp. Qed.

Lemma seek_eval off s f :
  mFile s = Some f →
  FileHandle_seek off s
  = if ((getFD f <? 0) || (off <? 0))%bool
    then Done (-1, set_events (events s ++ [EvSeek off]) s)
    else Done (off,
               set_mFile (Some (set_position off f))
                 (set_events (events s ++ [EvSeek off]) s)).
Proof.
  intros Hf. unfold FileHandle_seek. rewrite (bind_the_file _ _ _ Hf).
  unfold bind, emit, modify, ret.
  by destruct ((getFD f <? 0) || (off <? 0))%bool.
Qed.

Lemma read_eval n s f :
  mFile s = Some f →
  FileHandle_read n s
  = if getFD f <? 0
    then Done ((-1, []), set_events (events s ++ [EvRead (position f) n]) s)
    else
      let bs := take (Z.to_nat n) (drop (Z.to_nat (position f)) (contents f)) in
      Done ((Z.of_nat (List.length bs), bs),
            set_mFile
              (Some (set_position (position f + Z.of_nat (List.length bs)) f))
              (set_events (events s ++ [EvRead (position f) n]) s)).
Proof.
  intros Hf. unfold FileHandle_read. rewrite (bind_the_file _ _ _ Hf).
  unfold bind, emit, modify, ret. by destruct (getFD f <? 0).
Qed.

Lemma LOGE_false {A} fmt args (x : A) s r s' :
  (LOGE fmt args ;;; ret x) s = Done (r, s') → r = x.
Proof. unfold bind, LOGE, emit, modify, ret. by intros [= <- _]. Qed.

Lemma keeps_in_reader set :
  (∀ v t, mpHeader (set v t) = mpHeader t ∧ mFile (set v t) = mFile t
          ∧ events (set v t) = events t ∧ heap (set v t) = heap t) →
  keeps (in_reader set).
Proof. intros H v t u t' [= _ <-]. apply H. Qed.

Lemma keeps_in_result set : keeps (in_result set).
Proof.
  intros v t u t' H. unfold in_result, modify_result in H.
  apply bind_Done in H as (res & ? & [Hres ->]%the_result_Done & H).
  injection H as _ <-. by destruct t.
Qed.

(** What the section reader has done when the function that expands it
    returns true. *)
Lemma read_section_true hold NAME NAME_offset NAME_size k s s' :
  keeps hold →
  CACHE_READER_READ_SECTION hold NAME NAME_offset NAME_size k s
  = Done (true, s') →
  ∃ hb f raw s0 s1 u,
    section_in_file s NAME_offset NAME_size raw
    ∧ mpHeader s = Some hb ∧ mFile s = Some f
    ∧ hold (Some raw) s0 = Done (u, s1)
    ∧ k raw s1 = Done (true, s')
    ∧ events s1
      = events s ++ section_events (as_Header hb) NAME_offset NAME_size
    ∧ mpHeader s1 = Some hb
    ∧ mFile s1
      = Some (set_position
                (NAME_offset (as_Header hb) + Z.of_nat (List.length raw)) f).
Proof.
  intros Hkeep H. unfold CACHE_READER_READ_SECTION in H.
  apply bind_Done in H as (h & ? & [(hb & Hh & ->) ->]%the_header_Done & H).
  set (h := as_Header hb) in *.
  apply bind_Done in H as (ok & sa & Ha & H). rewrite allocate_eval in Ha.
  injection Ha as <- <-.
  destruct (default true (head (heap s))) eqn:Hok; cbn [negb] in H;
    [|by apply LOGE_false in H].
  apply bind_Done in H as (u0 & sb & Hb & H).
  destruct (Hkeep _ _ _ _ Hb) as (Hhb & Hfb & Heb & _). cbn in Hhb, Hfb, Heb.
  apply bind_Done in H as (h' & ? & [(hb' & Hh' & ->) ->]%the_header_Done & H).
  assert (hb' = hb) as -> by congruence. fold h in H.
  apply bind_Done in H as (r & sc & Hseek & H).
  destruct (mFile s) as [f|] eqn:Hf; last first.
  { unfold FileHandle_seek in Hseek.
    apply bind_Done in Hseek as (? & ? & [Hn _]%the_file_Done & _). congruence. }
  rewrite (seek_eval _ sb f Hfb) in Hseek.
  destruct (Z.ltb_spec (getFD f) 0) as [|Hfd]; cbn [orb] in Hseek.
  { injection Hseek as <- <-. cbn in H. by apply LOGE_false in H. }
  destruct (Z.ltb_spec (NAME_offset h) 0) as [|Hoff].
  { injection Hseek as <- <-. cbn in H. by apply LOGE_false in H. }
  injection Hseek as <- <-.
  destruct (Z.eqb_spec (NAME_offset h) (-1)) as [|_]; [lia|].
  apply bind_Done in H as (h2 & ? & [(hb2 & Hh2 & ->) ->]%the_header_Done & H).
  cbn in Hh2. assert (hb2 = hb) as -> by congruence. fold h in H.
  apply bind_Done in H as (rd & sd & Hread & H).
  erewrite read_eval in Hread by reflexivity.
  destruct (Z.ltb_spec (getFD (set_position (NAME_offset h) f)) 0) as [|_];
    [cbn in *; lia|].
  cbn [position set_position] in Hread. cbv zeta in Hread.
  injection Hread as <- <-. cbn [fst snd] in H.
  set (raw := take (Z.to_nat (NAME_size h))
                (drop (Z.to_nat (NAME_offset h)) (contents f))) in *.
  apply bind_Done in H as (u1 & se & He & H).
  destruct (Hkeep _ _ _ _ He) as (Hhe & Hfe & Hee & _). cbn in Hhe, Hfe, Hee.
  destruct (Z.eqb_spec (Z.of_nat (List.length raw))
              (wrap_signed size_t_bits (NAME_size h))) as [Hlen|];
    cbn [negb] in H; [|by apply LOGE_false in H].
  exists hb, f, raw. eexists _, se, u1.
  split; [|split; [done|split; [done|split; [exact He|split; [exact H|]]]]].
  - exists hb, f. repeat split; try done.
    unfold can_allocate. destruct (head (heap s)) as [[]|]; cbn in Hok; congruence.
  - split; [|split].
    + rewrite Hee, Heb. unfold section_events. by rewrite <- !app_assoc.
    + congruence.
    + by rewrite Hfe.
Qed.

Lemma frame_refl s : frame s s.
Proof. done. Qed.

Lemma frame_trans s1 s2 s3 : frame s1 s2 → frame s2 s3 → frame s1 s3.
Proof. intros (? & ? & ?) (? & ? & ?). repeat split; congruence. Qed.

Lemma modify_result_frame f t u t' :
  modify_result f t = Done (u, t') → frame t t'.
Proof.
  intros H. unfold modify_result in H.
  apply bind_Done in H as (res & ? & [Hres ->]%the_result_Done & H).
  injection H as _ <-. by destruct t.
Qed.

(** A loop whose iterations keep the frame keeps it. *)
Lemma for_range_frame {R} (body : nat → M (option R)) n i s r s' :
  (∀ k t x t', body k t = Done (x, t') → frame t t') →
  for_range i n body s = Done (r, s') → frame s s'.
Proof.
  intros Hbody. revert i s. induction n as [|n IH]; intros i s H; cbn in H.
  - injection H as _ <-. apply frame_refl.
  - apply bind_Done in H as (x & t & Hb & H).
    apply Hbody in Hb as Hf. destruct x as [x|].
    + injection H as _ <-. done.
    + eapply frame_trans; [exact Hf|]. by eapply IH.
Qed.

(** A scanning loop that goes to its end has left the reader alone,
    when the iterations that go on do. *)
Lemma for_range_None_state {R} (body : nat → M (option R)) n i s s' :
  (∀ k t t', body k t = Done (None, t') → t' = t) →
  for_range i n body s = Done (None, s') → s' = s.
Proof.
  intros Hbody. revert i s. induction n as [|n IH]; intros i s H; cbn in H.
  - by injection H as <-.
  - apply bind_Done in H as (x & t & Hb & H). destruct x as [x|]; [done|].
    apply Hbody in Hb as ->. by eapply IH.
Qed.

(** What a scanning loop returns early is what an iteration returned. *)
Lemma for_range_Some {R} (body : nat → M (option R)) n i s x s' :
  for_range i n body s = Done (Some x, s') →
  ∃ k t, body k t = Done (Some x, s').
Proof.
  revert i s. induction n as [|n IH]; intros i s H; cbn in H; [done|].
  apply bind_Done in H as (y & t & Hb & H). destruct y as [y|].
  - injection H as <- <-. by exists i, s.
  - by eapply IH.
Qed.

End Primitives.

Section Steps.
Context `{P : Platform}.

(** *** What each step has done when it returns true *)

Lemma checkFileSize_eval s f :
  mFile s = Some f →
  checkFileSize s
  = if getFD f <? 0
    then Done (false,
               set_events
                 (events s ++ [EvFstat (getFD f);
                               EvLOGE "Unable to stat cache file." []]) s)
    else
      let size := Z.of_nat (List.length (contents f)) in
      if ((size <? sizeof_OBCC_Header) || (size <? BCC_CONTEXT_SIZE))%bool
      then Done (false,
                 set_mFileSize size
                   (set_events
                      (events s ++
                         [EvFstat (getFD f);
                          EvLOGE "Cache file is too small to be correct." []])
                      s))
      else Done (true,
                 set_mFileSize size
                   (set_events (events s ++ [EvFstat (getFD f)]) s)).
Proof.
  intros Hf. destruct s as [mf ? ? ? ? ? ? ? ? ? ?]. cbn in Hf. subst mf.
  unfold checkFileSize. unfold_monad. cbn.
  destruct (getFD f <? 0); cbn; [by rewrite <- app_assoc|].
  destruct ((_ <? sizeof_OBCC_Header) || _)%bool; cbn; [|done].
  by rewrite <- app_assoc.
Qed.

Lemma readHeader_eval s f :
  mFile s = Some f →
  readHeader s
  = if getFD f <? 0
    then Done (false,
               set_events
                 (events s ++ [EvSeek 0;
                               EvLOGE "Unable to seek to 0. (reason: %s)" []]) s)
    else
      let s1 := set_mFile (Some (set_position 0 f))
                  (set_heap (tail (heap s)) s) in
      if negb (default true (head (heap s)))
      then Done (false,
                 set_mpHeader None
                   (set_events
                      (events s ++
                         [EvSeek 0; EvMalloc sizeof_OBCC_Header;
                          EvLOGE "Unable to allocate for cache header." []])
                      s1))
      else
        let bs := take (Z.to_nat sizeof_OBCC_Header) (contents f) in
        let got := Z.of_nat (List.length bs) in
        let s2 := set_mpHeader (Some bs)
                    (set_mFile (Some (set_position got f))
                       (set_heap (tail (heap s)) s)) in
        if negb (got =? sizeof_OBCC_Header)
        then Done (false,
                   set_events
                     (events s ++
                        [EvSeek 0; EvMalloc sizeof_OBCC_Header;
                         EvRead 0 sizeof_OBCC_Header;
                         EvLOGE "Unable to read cache header." []]) s2)
        else Done (true,
                   set_events
                     (events s ++
                        [EvSeek 0; EvMalloc sizeof_OBCC_Header;
                         EvRead 0 sizeof_OBCC_Header]) s2).
Proof.
  intros Hf. destruct s as [mf ? ? ? ? ? ? ? hp ? ?]. cbn in Hf. subst mf.
  unfold readHeader. unfold_monad. cbn.
  destruct (getFD f <? 0) eqn:Hfd; cbn; [by rewrite <- app_assoc|].
  destruct hp as [|[] hp]; cbn; rewrite ?Hfd; cbn;
    try destruct (_ =? sizeof_OBCC_Header); cbn;
    by rewrite <- ?app_assoc.
Qed.

Lemma checkHeader_true s s' :
  checkHeader s = Done (true, s') →
  s' = s
  ∧ ∃ hb, mpHeader s = Some hb
          ∧ take 4 (magic (as_Header hb)) = take 4 OBCC_MAGIC
          ∧ take 4 (version (as_Header hb)) = take 4 OBCC_VERSION.
Proof.
  unfold checkHeader. intros H.
  apply bind_Done in H as (h & ? & [(hb & Hh & ->) ->]%the_header_Done & H).
  unfold memcmp_ne in H.
  case_bool_decide as Hm; cbn [negb] in H; [|by apply LOGE_false in H].
  case_bool_decide as Hv; cbn [negb] in H; [|by apply LOGE_false in H].
  injection H as <-. split; [done|]. by exists hb.
Qed.

Lemma checkMachineIntType_true s s' :
  checkMachineIntType s = Done (true, s') → s' = s.
Proof.
  unfold checkMachineIntType. intros H.
  apply bind_Done in H as (h & ? & [_ ->]%the_header_Done & H).
  destruct ((isLittleEndian && _) || _)%bool; [by apply LOGE_false in H|].
  cbv zeta in H.
  destruct (negb _ || _ || _)%bool; [by apply LOGE_false in H|].
  by injection H as <-.
Qed.

Lemma CHECK_SECTION_OFFSET_state NAME NAME_offset NAME_size k s s' :
  (∀ t', k s = Done (true, t') → t' = s) →
  CHECK_SECTION_OFFSET NAME NAME_offset NAME_size k s = Done (true, s') →
  s' = s.
Proof.
  intros Hk H.
  pose proof H as H0. unfold CHECK_SECTION_OFFSET in H0.
  apply bind_Done in H0 as (h & s0 & [(hb & Hh & Eh) Es]%the_header_Done & _).
  apply (CHECK_SECTION_OFFSET_pass _ _ _ _ _ _ _ Hh) in H as [_ H]. auto.
Qed.

Lemma checkSectionOffsetAndSize_true s s' :
  checkSectionOffsetAndSize s = Done (true, s') →
  s' = s
  ∧ ∃ hb, mpHeader s = Some hb
      ∧ context_offset (as_Header hb) ≤ mFileSize s
      ∧ context_offset (as_Header hb) + BCC_CONTEXT_SIZE ≤ mFileSize s
      ∧ Z.rem (context_offset (as_Header hb)) pagesize = 0
      ∧ context_cached_addr (as_Header hb) mod pagesize = 0.
Proof.
  intros H. pose proof H as H0. unfold checkSectionOffsetAndSize in H0.
  unfold CHECK_SECTION_OFFSET at 1 in H0.
  apply bind_Done in H0 as (h & s0 & [(hb & Hh & Eh) Es]%the_header_Done & _).
  clear h s0 Eh Es. revert H. intros H. unfold checkSectionOffsetAndSize in H.
  do 6 apply (CHECK_SECTION_OFFSET_pass _ _ _ _ _ _ _ Hh) in H as [? H].
  rewrite (bind_the_header _ _ _ Hh) in H.
  unfold bind at 1 in H. unfold get at 1 in H.
  set (h := as_Header hb) in *.
  apply bind_Done in H as (overflow & s1 & Hov & H).
  assert (s1 = s ∧ (overflow = false →
                    context_offset h ≤ mFileSize s
                    ∧ context_offset h + BCC_CONTEXT_SIZE ≤ mFileSize s))
    as [-> Hb].
  { destruct (Z.ltb_spec (mFileSize s) (context_offset h)) as [|Hle].
    - injection Hov as <- <-. by split.
    - unfold off_t_add, bind in Hov.
      destruct (fits_signed off_t_bits (context_offset h + BCC_CONTEXT_SIZE));
        [|done].
      cbn in Hov. injection Hov as <- <-. split; [done|].
      intros Hlt%Z.ltb_ge. lia. }
  destruct overflow; [by apply LOGE_false in H|].
  destruct (Z.eqb_spec (Z.rem (context_offset h) pagesize) 0) as [Hrem|];
    cbn [negb] in H; [|by apply LOGE_false in H].
  destruct (Z.eqb_spec (context_cached_addr h mod pagesize) 0) as [Hmod|];
    cbn [negb] in H; [|by apply LOGE_false in H].
  injection H as <-. split; [done|]. exists hb.
  destruct Hb as [? ?]; done.
Qed.

Lemma frame_step_ok s s' :
  frame s s' → (∃ hb f, mpHeader s = Some hb ∧ mFile s = Some f) →
  step_ok (λ _ _, []) s s'.
Proof.
  intros (He & Hh & Hf) (hb & f & Hhb & Hfb). exists hb, f, f.
  rewrite Hh, Hf, He, app_nil_r. done.
Qed.

Lemma step_ok_trans e1 e2 s1 s2 s3 :
  step_ok e1 s1 s2 → step_ok e2 s2 s3 →
  step_ok (λ h fd, e1 h fd ++ e2 h fd) s1 s3.
Proof.
  intros (hb & f & f' & H1 & H2 & H3 & H4 & H5 & H6 & H7)
         (hb' & g & g' & G1 & G2 & G3 & G4 & G5 & G6 & G7).
  assert (hb' = hb) as -> by congruence. assert (g = f') as -> by congruence.
  exists hb, f, g'. repeat split; try congruence.
  rewrite G7, H7, H5. by rewrite <- app_assoc.
Qed.

Lemma step_ok_frame e s1 s2 s3 :
  step_ok e s1 s2 → frame s2 s3 → step_ok e s1 s3.
Proof.
  intros (hb & f & f' & H1 & H2 & H3 & H4 & H5 & H6 & H7) (He & Hh & Hf).
  exists hb, f, f'. repeat split; congruence.
Qed.

(** A function that is one expansion of the section reader, followed by
    code that keeps the frame, is a step that reads its section. *)
Lemma read_section_step hold NAME NAME_offset NAME_size k s s' :
  keeps hold →
  (∀ raw t t', k raw t = Done (true, t') → frame t t') →
  CACHE_READER_READ_SECTION hold NAME NAME_offset NAME_size k s
  = Done (true, s') →
  step_ok (λ h _, section_events h NAME_offset NAME_size) s s'.
Proof.
  intros Hkeep Hk H.
  apply (read_section_true _ _ _ _ _ _ _ Hkeep) in H
    as (hb & f & raw & s0 & s1 & u & _ & Hh & Hf & _ & Hks & He & Hh1 & Hf1).
  apply Hk in Hks.
  eapply step_ok_frame; [|exact Hks].
  exists hb, f,
    (set_position
       (NAME_offset (as_Header hb) + Z.of_nat (List.length raw)) f).
  repeat split; done.
Qed.

Lemma ret_true_frame (raw : list byte) t t' :
  (λ _ : list byte, ret true) raw t = Done (true, t') → frame t t'.
Proof. intros [= <-]. apply frame_refl. Qed.

Lemma keeps_set_mpCachedDependTable : keeps (in_reader set_mpCachedDependTable).
Proof. apply keeps_in_reader. by intros v []. Qed.

Lemma keeps_set_mpPragmaList : keeps (in_reader set_mpPragmaList).
Proof. apply keeps_in_reader. by intros v []. Qed.

Lemma keeps_set_mpFuncTable : keeps (in_reader set_mpFuncTable).
Proof. apply keeps_in_reader. by intros v []. Qed.

Lemma readStringPool_step s s' :
  readStringPool s = Done (true, s') →
  step_ok (λ h _, section_events h str_pool_offset str_pool_size) s s'.
Proof.
  apply read_section_step; [apply keeps_in_result|].
  intros raw t t' H.
  apply bind_Done in H as (count & ? & [_ ->]%deref_Done & H).
  apply bind_Done in H as (r & t1 & Hloop & H). injection H as <-.
  eapply for_range_frame; [|exact Hloop].
  intros k t0 x t0' Hb. unfold readStringPool_body in Hb.
  apply bind_Done in Hb as (e & ? & [_ ->]%deref_Done & Hb).
  apply bind_Done in Hb as (u & t2 & Hm & Hb). injection Hb as _ <-.
  by eapply modify_result_frame.
Qed.

Lemma readDependencyTable_step s s' :
  readDependencyTable s = Done (true, s') →
  step_ok (λ h _, section_events h depend_tab_offset depend_tab_size) s s'.
Proof.
  apply read_section_step;
    [apply keeps_set_mpCachedDependTable|apply ret_true_frame].
Qed.

Lemma readExportVarList_step s s' :
  readExportVarList s = Done (true, s') →
  step_ok (λ h _, section_events h export_var_list_offset export_var_list_size)
    s s'.
Proof.
  apply read_section_step; [apply keeps_in_result|apply ret_true_frame].
Qed.

Lemma readExportFuncList_step s s' :
  readExportFuncList s = Done (true, s') →
  step_ok
    (λ h _, section_events h export_func_list_offset export_func_list_size)
    s s'.
Proof.
  apply read_section_step; [apply keeps_in_result|apply ret_true_frame].
Qed.

Lemma readPragmaList_step s s' :
  readPragmaList s = Done (true, s') →
  step_ok (λ h _, section_events h pragma_list_offset pragma_list_size) s s'.
Proof.
  apply read_section_step; [apply keeps_set_mpPragmaList|].
  intros raw t t' H.
  apply bind_Done in H as (count & ? & [_ ->]%deref_Done & H).
  apply bind_Done in H as (r & t1 & Hloop & H). injection H as <-.
  eapply for_range_frame; [|exact Hloop].
  intros k t0 x t0' Hb. unfold readPragmaList_body in Hb.
  apply bind_Done in Hb as (e & ? & [_ ->]%deref_Done & Hb).
  apply bind_Done in Hb as (res & ? & [_ ->]%the_result_Done & Hb).
  unfold vector_at in Hb.
  apply bind_Done in Hb as (key & ? & [_ ->]%deref_Done & Hb).
  apply bind_Done in Hb as (value & ? & [_ ->]%deref_Done & Hb).
  apply bind_Done in Hb as (u & t2 & Hm & Hb). injection Hb as _ <-.
  by eapply modify_result_frame.
Qed.

Lemma pool_c_str_Done p t name t' :
  pool_c_str p t = Done (name, t') → t' = t.
Proof.
  unfold pool_c_str. intros H.
  apply bind_Done in H as (res & ? & [_ ->]%the_result_Done & H).
  apply bind_Done in H as (raw & ? & [_ ->]%deref_Done & H).
  by apply deref_Done in H as [_ ->].
Qed.

Lemma readFuncTable_step s s' :
  readFuncTable s = Done (true, s') →
  step_ok (λ h _, section_events h func_table_offset func_table_size) s s'.
Proof.
  apply read_section_step; [apply keeps_set_mpFuncTable|].
  intros raw t t' H.
  apply bind_Done in H as (count & ? & [_ ->]%deref_Done & H).
  apply bind_Done in H as (r & t1 & Hloop & H). injection H as <-.
  eapply for_range_frame; [|exact Hloop].
  intros k t0 x t0' Hb. unfold readFuncTable_body in Hb.
  apply bind_Done in Hb as (e & ? & [_ ->]%deref_Done & Hb).
  apply bind_Done in Hb as (res & ? & [_ ->]%the_result_Done & Hb).
  unfold vector_at in Hb.
  apply bind_Done in Hb as (str & ? & [_ ->]%deref_Done & Hb).
  apply bind_Done in Hb as (name & ? & ->%pool_c_str_Done & Hb).
  apply bind_Done in Hb as (u & t2 & Hm & Hb). injection Hb as _ <-.
  by eapply modify_result_frame.
Qed.

Lemma checkStringPool_true s s' :
  checkStringPool s = Done (true, s') → s' = s.
Proof.
  unfold checkStringPool. intros H.
  apply bind_Done in H as (res & ? & [_ ->]%the_result_Done & H).
  cbv zeta in H.
  apply bind_Done in H as (count & t & Hc & H).
  apply bind_Done in Hc as (raw & ? & [_ ->]%deref_Done & [_ ->]%deref_Done).
  apply bind_Done in H as (r & t1 & Hloop & H). injection H as Hr <-.
  assert (∀ k t0 x t0',
            checkStringPool_body (mpStringPoolRaw res) (mStringPool res) k t0
            = Done (x, t0') →
            (x = None ∧ t0' = t0) ∨ x = Some false) as Hbody.
  { intros k t0 x t0' Hb. unfold checkStringPool_body, vector_at in Hb.
    apply bind_Done in Hb as (? & ? & [_ ->]%deref_Done & Hb).
    apply bind_Done in Hb as (? & ? & [_ ->]%deref_Done & Hb).
    apply bind_Done in Hb as (? & ? & [_ ->]%deref_Done & Hb).
    apply bind_Done in Hb as (c & ? & [_ ->]%deref_Done & Hb).
    destruct (negb _).
    - right. by apply LOGE_false in Hb.
    - left. by injection Hb as <- <-. }
  destruct r as [x|].
  - apply for_range_Some in Hloop as (k & t0 & Hb).
    destruct (Hbody _ _ _ _ Hb) as [[[=] _]|[= ->]]. done.
  - eapply for_range_None_state; [|exact Hloop].
    intros k t0 t0' Hb. by destruct (Hbody _ _ _ _ Hb) as [[_ ->]|[=]].
Qed.

Lemma checkDependency_body_result s tab res k t x t' :
  checkDependency_body s tab res k t = Done (x, t') →
  (x = None ∧ t' = t) ∨ x = Some false.
Proof.
  intros Hb. unfold checkDependency_body, vector_at in Hb. cbv zeta in Hb.
  apply bind_Done in Hb as (dep & ? & [_ ->]%deref_Done & Hb).
  apply bind_Done in Hb as (rec & ? & [_ ->]%deref_Done & Hb).
  apply bind_Done in Hb as (p & ? & [_ ->]%deref_Done & Hb).
  apply bind_Done in Hb as (name & ? & ->%pool_c_str_Done & Hb).
  destruct (negb (String.eqb _ _)).
  { right. apply bind_Done in Hb as (? & ? & _ & Hb).
    apply bind_Done in Hb as (? & ? & _ & Hb). by apply LOGE_false in Hb. }
  unfold bytes20 in Hb.
  apply bind_Done in Hb as (given & ? & [_ ->]%deref_Done & Hb).
  apply bind_Done in Hb as (cached & ? & [_ ->]%deref_Done & Hb).
  destruct (memcmp_ne _ _ _).
  { right. apply bind_Done in Hb as (? & ? & _ & Hb).
    apply bind_Done in Hb as (? & ? & _ & Hb). by apply LOGE_false in Hb. }
  destruct (negb (_ =? _)).
  - right. by apply LOGE_false in Hb.
  - left. by injection Hb as <- <-.
Qed.

Lemma checkDependency_true s s' :
  checkDependency s = Done (true, s') → s' = s.
Proof.
  unfold checkDependency. intros H.
  apply bind_Done in H as (? & ? & [= <- <-] & H).
  apply bind_Done in H as (tab & ? & [_ ->]%deref_Done & H).
  apply bind_Done in H as (count & ? & [_ ->]%deref_Done & H).
  destruct (negb _); [by apply LOGE_false in H|].
  apply bind_Done in H as (res & ? & [_ ->]%the_result_Done & H).
  apply bind_Done in H as (r & t1 & Hloop & H). injection H as Hr <-.
  destruct r as [x|].
  - apply for_range_Some in Hloop as (k & t0 & Hb).
    destruct (checkDependency_body_result _ _ _ _ _ _ _ Hb) as [[[=] _]|[= ->]].
    done.
  - eapply for_range_None_state; [|exact Hloop].
    intros k t0 t0' Hb.
    by destruct (checkDependency_body_result _ _ _ _ _ _ _ Hb) as [[_ ->]|[=]].
Qed.

Lemma readContext_true s s' :
  readContext s = Done (true, s') →
  ∃ hb f res,
    mpHeader s = Some hb ∧ mFile s = Some f ∧ mpResult s = Some res
    ∧ can_map s (context_cached_addr (as_Header hb)) = true
    ∧ s' = set_mpResult
             (Some (set_mContext
                      (Some (take (Z.to_nat BCC_CONTEXT_SIZE)
                               (drop (Z.to_nat (context_offset (as_Header hb)))
                                  (contents f)))) res))
             (set_events
                (events s ++
                   [EvAllocateContext (context_cached_addr (as_Header hb))
                      (getFD f) (context_offset (as_Header hb))]) s).
Proof.
  unfold readContext. intros H.
  apply bind_Done in H as (h & ? & [(hb & Hh & ->) ->]%the_header_Done & H).
  apply bind_Done in H as (f & ? & [Hf ->]%the_file_Done & H).
  apply bind_Done in H as (ctx & t & Hctx & H).
  unfold allocateContext, emit, modify, get, bind, ret in Hctx. cbn in Hctx.
  apply bind_Done in H as (u & t1 & Hm & H).
  unfold modify_result in Hm.
  apply bind_Done in Hm as (res & ? & [Hres ->]%the_result_Done & Hm).
  injection Hm as _ <-.
  destruct (can_map s (context_cached_addr (as_Header hb))) eqn:Hmap;
    injection Hctx as <- <-; [|done].
  injection H as <-. exists hb, f, res.
  destruct s; cbn in *. by subst.
Qed.

Lemma checkContext_true s s' :
  checkContext s = Done (true, s') →
  s' = set_events
         (events s ++ [EvLOGI "Passed checksum even parity verification."]) s.
Proof.
  unfold checkContext. intros H.
  apply bind_Done in H as (h & ? & [_ ->]%the_header_Done & H).
  apply bind_Done in H as (res & ? & [Hres ->]%the_result_Done & H).
  apply bind_Done in H as (sum & s3 & E & H).
  apply for_fold_state in E as ->.
  - destruct (negb _); [by apply LOGE_false in H|].
    unfold bind, LOGI, emit, modify, ret in H. by injection H as <-.
  - intros j a t y t' Hb.
    apply bind_Done in Hb as (? & ? & [_ ->]%deref_Done & Hb).
    apply bind_Done in Hb as (? & ? & [_ ->]%deref_Done & Hb).
    by injection Hb as _ <-.
Qed.

End Steps.

Section OpenTrace.
Context `{P : Platform}.

Lemma all_pass_inv_cons c cs s s2 :
  all_pass (c :: cs) s s2 → ∃ s1, c s = Done (true, s1) ∧ all_pass cs s1 s2.
Proof. inversion 1; subst. eauto. Qed.

Lemma all_pass_inv_nil s s2 : all_pass [] s s2 → s2 = s.
Proof. by inversion 1. Qed.

(** A returned artifact means that the handle was accepted, the result
    object allocated, and all the checks passed. *)
Lemma readCacheFile_Some file s art s' :
  readCacheFile file s = Done (Some art, s') →
  ∃ s1, all_pass checks (allocated s) s1
        ∧ mpResult s1 = Some art ∧ s' = set_mpResult None s1.
Proof.
  intros H.
  destruct (valid_handle_dec file) as [Hv|Hv];
    [|by rewrite (readCacheFile_rejected_handle _ _ Hv) in H].
  destruct (can_allocate_dec s) as [Ha|Ha];
    [|by rewrite (readCacheFile_no_memory _ _ Hv Ha) in H].
  rewrite (readCacheFile_allocated _ _ Hv Ha) in H.
  destruct (run_checks checks (allocated s)) as [[[] s1]|] eqn:E; [|done..].
  injection H as Hart <-. exists s1. by rewrite <- run_checks_pass.
Qed.

(** X1. A successful open has done this to its environment, and nothing
    else: allocated the result object, taken the size of the file, read
    the header, then read, each with one allocation, one seek to the
    offset the header gives and one read of the size the header gives,
    the string pool, the dependency table, the two export lists, the
    pragma list and the function table, in that order, then mapped the
    context and logged the parity message.  The relocation table is not
    read. *)
Theorem readCacheFile_success_trace file s art s' :
  readCacheFile file s = Done (Some art, s') →
  ∃ f, mFile s = Some f
       ∧ events s' = events s ++ open_trace (getFD f) (file_header f).
Proof.
  intros H. apply readCacheFile_Some in H as (s15 & Hpass & _ & ->).
  unfold checks in Hpass.
  apply all_pass_inv_cons in Hpass as (s1 & H1 & Hpass).
  apply all_pass_inv_cons in Hpass as (s2 & H2 & Hpass).
  apply all_pass_inv_cons in Hpass as (s3 & H3 & Hpass).
  apply all_pass_inv_cons in Hpass as (s4 & H4 & Hpass).
  apply all_pass_inv_cons in Hpass as (s5 & H5 & Hpass).
  apply all_pass_inv_cons in Hpass as (s6 & H6 & Hpass).
  apply all_pass_inv_cons in Hpass as (s7 & H7 & Hpass).
  apply all_pass_inv_cons in Hpass as (s8 & H8 & Hpass).
  apply all_pass_inv_cons in Hpass as (s9 & H9 & Hpass).
  apply all_pass_inv_cons in Hpass as (s10 & H10 & Hpass).
  apply all_pass_inv_cons in Hpass as (s11 & H11 & Hpass).
  apply all_pass_inv_cons in Hpass as (s12 & H12 & Hpass).
  apply all_pass_inv_cons in Hpass as (s13 & H13 & Hpass).
  apply all_pass_inv_cons in Hpass as (s14 & H14 & Hpass).
  apply all_pass_inv_cons in Hpass as (s15' & H15 & Hpass).
  apply all_pass_inv_nil in Hpass as ->.
  (* the file *)
  assert (∃ f, mFile s = Some f) as [f Hf].
  { unfold checkFileSize in H1.
    apply bind_Done in H1 as (f & ? & [Hf _]%the_file_Done & _).
    exists f. by destruct s. }
  exists f. split; [done|].
  (* size and header *)
  rewrite (checkFileSize_eval _ f) in H1 by (by destruct s).
  destruct (getFD f <? 0) eqn:Hfd; [done|]. cbv zeta in H1.
  destruct ((_ <? sizeof_OBCC_Header) || _)%bool; [done|].
  injection H1 as <-.
  rewrite (readHeader_eval _ f) in H2 by (by destruct s).
  rewrite Hfd in H2. cbv zeta in H2.
  destruct (negb (default true _)); [done|].
  destruct (negb (_ =? sizeof_OBCC_Header)); [done|].
  injection H2 as <-.
  apply checkHeader_true in H3 as [-> _].
  apply checkMachineIntType_true in H4 as ->.
  apply checkSectionOffsetAndSize_true in H5 as [-> _].
  (* the sections *)
  apply readStringPool_step in H6.
  apply checkStringPool_true in H7 as ->.
  apply readDependencyTable_step in H8.
  apply checkDependency_true in H9 as ->.
  apply readExportVarList_step in H10.
  apply readExportFuncList_step in H11.
  apply readPragmaList_step in H12.
  apply readFuncTable_step in H13.
  pose proof (step_ok_trans _ _ _ _ _ H6
               (step_ok_trans _ _ _ _ _ H8
                  (step_ok_trans _ _ _ _ _ H10
                     (step_ok_trans _ _ _ _ _ H11
                        (step_ok_trans _ _ _ _ _ H12 H13)))))
    as (hb & g & g' & Hh & Hh13 & Hg & Hg13 & Hfd13 & _ & Hev).
  cbn in Hh, Hg. injection Hh as <-. injection Hg as <-.
  cbn [getFD set_position] in Hfd13, Hev.
  (* the context *)
  apply readContext_true in H14
    as (hb' & f14 & res & Hh14 & Hf14 & _ & _ & ->).
  assert (hb' = take (Z.to_nat sizeof_OBCC_Header) (contents f)) as ->
    by congruence.
  assert (f14 = g') as -> by congruence.
  apply checkContext_true in H15 as ->.
  cbn [events set_mpResult set_events]. rewrite Hev, Hfd13.
  unfold open_trace, file_header. destruct s; cbn.
  by rewrite <- !app_assoc.
Qed.

End OpenTrace.

Section Handles.
Context `{P : Platform}.

(** X2. [readCacheFile] only tests the handle it is given: two accepted
    handles give the same outcome on the same reader, whatever files
    they stand for; the file that is read is the one the reader holds
    in [mFile], and when the reader holds none the open is undefined. *)
Theorem readCacheFile_ignores_argument file file' s :
  valid_handle file → valid_handle file' →
  readCacheFile file s = readCacheFile file' s
  ∧ (can_allocate s → mFile s = None → readCacheFile file s = Undefined).
Proof.
  intros Hv Hv'. split.
  - destruct (can_allocate_dec s) as [Ha|Ha].
    + by rewrite !readCacheFile_allocated.
    + by rewrite !readCacheFile_no_memory.
  - intros Ha Hf. rewrite (readCacheFile_allocated _ _ Hv Ha).
    change (run_checks checks) with (checkFileSize && run_checks (tail checks)).
    unfold and_then, bind at 1, checkFileSize, the_file, bind at 1 2, get.
    destruct s; cbn in *. by rewrite Hf.
Qed.

(** X3. When the result object cannot be allocated, [readCacheFile]
    logs it and returns null; the reader then holds no result object,
    and neither the file nor any check has been touched. *)
Theorem readCacheFile_out_of_memory file s :
  valid_handle file → head (heap s) = Some false →
  ∃ s', readCacheFile file s = Done (None, s')
        ∧ mpResult s' = None
        ∧ mFile s' = mFile s ∧ mpHeader s' = mpHeader s
        ∧ mFileSize s' = mFileSize s
        ∧ events s'
          = events s
            ++ [EvNew; EvLOGE "Unable to allocate ScriptCached object." []].
Proof.
  intros Hv Hh. rewrite (readCacheFile_no_memory _ _ Hv).
  - eexists. split; [done|]. by destruct s.
  - unfold can_allocate. rewrite Hh. by intros [].
Qed.

(** X4. [checkFileSize] succeeds exactly when the descriptor can be
    stat-ed and the file has at least the bytes of a header and those
    of a context; it then records the size of the file, and so it does
    when it finds the file too small. *)
Theorem checkFileSize_iff s f :
  mFile s = Some f →
  ((∃ s', checkFileSize s = Done (true, s')) ↔
   0 ≤ getFD f
   ∧ sizeof_OBCC_Header ≤ Z.of_nat (List.length (contents f))
   ∧ BCC_CONTEXT_SIZE ≤ Z.of_nat (List.length (contents f)))
  ∧ (∀ b s', checkFileSize s = Done (b, s') →
       mFileSize s'
       = if getFD f <? 0 then mFileSize s
         else Z.of_nat (List.length (contents f))).
Proof.
  intros Hf. rewrite (checkFileSize_eval s f Hf). cbv zeta.
  destruct (Z.ltb_spec (getFD f) 0) as [Hfd|Hfd].
  - split; [split|].
    + by intros [? [=]].
    + lia.
    + intros b s' [= _ <-]. by destruct s.
  - destruct (Z.ltb_spec (Z.of_nat (List.length (contents f)))
                sizeof_OBCC_Header);
      destruct (Z.ltb_spec (Z.of_nat (List.length (contents f)))
                  BCC_CONTEXT_SIZE); cbn [orb];
      (split; [split; [intros [? [=]]; lia|intros ?; try lia; by eexists]
              |by intros b s' [= _ <-]]).
Qed.

(** X5. [readHeader] reads the header from the start of the file,
    wherever the handle stood: it succeeds exactly when the file is
    open, memory is left and the file has the bytes of a header, and
    then [mpHeader] holds the first [sizeof(OBCC_Header)] bytes of the
    file and the handle stands right behind them. *)
Theorem readHeader_iff s f :
  mFile s = Some f → 0 ≤ sizeof_OBCC_Header →
  ((∃ s', readHeader s = Done (true, s')) ↔
   0 ≤ getFD f ∧ can_allocate s
   ∧ sizeof_OBCC_Header ≤ Z.of_nat (List.length (contents f)))
  ∧ (∀ s', readHeader s = Done (true, s') →
       mpHeader s' = Some (take (Z.to_nat sizeof_OBCC_Header) (contents f))
       ∧ mFile s' = Some (set_position sizeof_OBCC_Header f)).
Proof.
  intros Hf Hhdr. rewrite (readHeader_eval s f Hf). cbv zeta.
  assert (Z.of_nat (List.length (take (Z.to_nat sizeof_OBCC_Header) (contents f)))
          = sizeof_OBCC_Header
          ↔ sizeof_OBCC_Header ≤ Z.of_nat (List.length (contents f))) as Hlen.
  { rewrite length_take. lia. }
  unfold can_allocate.
  destruct (Z.ltb_spec (getFD f) 0) as [Hfd|Hfd].
  { split; [split|]; [by intros [? [=]]|lia|by intros ? [=]]. }
  destruct (head (heap s)) as [[]|]; cbn [default negb].
  2: { split; [split|]; [by intros [? [=]]|by intros (_ & [] & _)|by intros ? [=]]. }
  all: destruct (Z.eqb_spec
                   (Z.of_nat (List.length
                                (take (Z.to_nat sizeof_OBCC_Header) (contents f))))
                   sizeof_OBCC_Header) as [E|E]; cbn [negb];
    (split; [split|]);
    try (by intros [? [=]]); try (by intros ? [=]);
    try (intros _; repeat split; try done; by apply Hlen);
    try (intros (_ & _ & ?%Hlen); done);
    try (intros _; by eexists);
    try (intros s' [= <-]; cbn; by rewrite E).
Qed.

(** X6. [checkHeader] accepts the header exactly when its first four
    bytes are those of the magic word and the next four those of the
    version, leaving the reader as it was; otherwise it returns false
    with one message, that of the magic word when both differ. *)
Theorem checkHeader_iff s hb :
  mpHeader s = Some hb →
  let h := as_Header hb in
  (checkHeader s = Done (true, s) ↔
   take 4 (magic h) = take 4 OBCC_MAGIC
   ∧ take 4 (version h) = take 4 OBCC_VERSION)
  ∧ (take 4 (magic h) ≠ take 4 OBCC_MAGIC →
     checkHeader s
     = Done (false, set_events (events s ++ [EvLOGE "Bad magic word" []]) s))
  ∧ (take 4 (magic h) = take 4 OBCC_MAGIC →
     take 4 (version h) ≠ take 4 OBCC_VERSION →
     checkHeader s
     = Done (false,
             set_events
               (events s ++ [EvLOGE "Bad oBCC version 0x%08x" [ArgB (version h)]])
               s)).
Proof.
  intros Hh h. unfold checkHeader. rewrite (bind_the_header _ _ _ Hh).
  fold h. unfold memcmp_ne.
  case_bool_decide as Hm; cbn [negb].
  - case_bool_decide as Hv; cbn [negb].
    + split; [done|]. split; done.
    + split; [|split; done].
      split; [by intros [=]|]. by intros [_ ?].
  - split; [|split; done].
    split; [by intros [=]|]. by intros [? _].
Qed.

End Handles.

Section SectionChecks.
Context `{P : Platform}.

Lemma CHECK_SECTION_OFFSET_accepted NAME NAME_offset NAME_size k s hb :
  mpHeader s = Some hb →
  section_accepted (mFileSize s) (NAME_offset (as_Header hb))
    (NAME_size (as_Header hb)) →
  CHECK_SECTION_OFFSET NAME NAME_offset NAME_size k s = k s.
Proof.
  intros Hh ((Hoff & Hend & Hal & Hsz) & Hfits).
  unfold CHECK_SECTION_OFFSET. rewrite (bind_the_header _ _ _ Hh).
  unfold bind at 1. unfold get at 1. cbv zeta.
  destruct (Z.ltb_spec (mFileSize s) (NAME_offset (as_Header hb))); [lia|].
  unfold off_t_add. rewrite Hfits. unfold bind at 1 2, ret at 1 2.
  destruct (Z.ltb_spec (mFileSize s)
              (NAME_offset (as_Header hb)
               + wrap_signed off_t_bits (NAME_size (as_Header hb)))); [lia|].
  rewrite Hal. cbn [Z.eqb negb].
  destruct (Z.ltb_spec (wrap_signed off_t_bits (NAME_size (as_Header hb)))
              sizeof_size_t); [lia|done].
Qed.

Lemma CHECK_SECTION_OFFSET_fits NAME NAME_offset NAME_size k s s' hb :
  mpHeader s = Some hb →
  CHECK_SECTION_OFFSET NAME NAME_offset NAME_size k s = Done (true, s') →
  fits_signed off_t_bits
    (NAME_offset (as_Header hb)
     + wrap_signed off_t_bits (NAME_size (as_Header hb))) = true.
Proof.
  intros Hh. unfold CHECK_SECTION_OFFSET.
  rewrite (bind_the_header _ _ _ Hh). unfold bind at 1. unfold get at 1.
  cbv zeta. intros H.
  apply bind_Done in H as (overflow & s1 & Hov & H).
  destruct (mFileSize s <? NAME_offset (as_Header hb)).
  - injection Hov as <- <-. by apply LOGE_false in H.
  - unfold off_t_add in Hov. unfold bind at 1 in Hov.
    by destruct (fits_signed _ _).
Qed.

Lemma CHECK_SECTION_OFFSET_accepts NAME NAME_offset NAME_size k s s' hb :
  mpHeader s = Some hb →
  CHECK_SECTION_OFFSET NAME NAME_offset NAME_size k s = Done (true, s') →
  section_accepted (mFileSize s) (NAME_offset (as_Header hb))
    (NAME_size (as_Header hb))
  ∧ k s = Done (true, s').
Proof.
  intros Hh H.
  pose proof (CHECK_SECTION_OFFSET_fits _ _ _ _ _ _ _ Hh H) as Hfits.
  apply (CHECK_SECTION_OFFSET_pass _ _ _ _ _ _ _ Hh) in H as [Hc H].
  split; [split; [exact Hc|exact Hfits]|exact H].
Qed.

(** X7. [checkSectionOffsetAndSize] accepts a header exactly when the
    string pool, the dependency table, the relocation table, the two
    export lists and the pragma list each start and end within the
    file (with an end that [off_t] can hold), start at a multiple of
    [sizeof(int)] and have at least [sizeof(size_t)] bytes, and the
    context block lies within the file at a page-aligned offset with a
    page-aligned cached address.  An offset is not asked to be
    non-negative.  The reader is left as it was. *)
Theorem checkSectionOffsetAndSize_iff s hb :
  mpHeader s = Some hb →
  let h := as_Header hb in
  let size := mFileSize s in
  ((∃ s', checkSectionOffsetAndSize s = Done (true, s')) ↔
   section_accepted size (str_pool_offset h) (str_pool_size h)
   ∧ section_accepted size (depend_tab_offset h) (depend_tab_size h)
   ∧ section_accepted size (reloc_tab_offset h) (reloc_tab_size h)
   ∧ section_accepted size (export_var_list_offset h) (export_var_list_size h)
   ∧ section_accepted size
       (export_func_list_offset h) (export_func_list_size h)
   ∧ section_accepted size (pragma_list_offset h) (pragma_list_size h)
   ∧ context_accepted size h)
  ∧ (∀ s', checkSectionOffsetAndSize s = Done (true, s') → s' = s).
Proof.
  intros Hh h size. split; [split|].
  - intros [s' H]. unfold checkSectionOffsetAndSize in H.
    apply (CHECK_SECTION_OFFSET_accepts _ _ _ _ _ _ _ Hh) in H as [H1 H].
    apply (CHECK_SECTION_OFFSET_accepts _ _ _ _ _ _ _ Hh) in H as [H2 H].
    apply (CHECK_SECTION_OFFSET_accepts _ _ _ _ _ _ _ Hh) in H as [H3 H].
    apply (CHECK_SECTION_OFFSET_accepts _ _ _ _ _ _ _ Hh) in H as [H4 H].
    apply (CHECK_SECTION_OFFSET_accepts _ _ _ _ _ _ _ Hh) in H as [H5 H].
    apply (CHECK_SECTION_OFFSET_accepts _ _ _ _ _ _ _ Hh) in H as [H6 H].
    do 6 (split; [done|]).
    rewrite (bind_the_header _ _ _ Hh) in H.
    unfold bind at 1 in H. unfold get at 1 in H. fold h in H.
    apply bind_Done in H as (overflow & s1 & Hov & H).
    unfold context_accepted. fold size in Hov.
    destruct (Z.ltb_spec size (context_offset h)) as [|Hle].
    { injection Hov as <- <-. by apply LOGE_false in H. }
    unfold off_t_add in Hov. unfold bind at 1 in Hov.
    destruct (fits_signed off_t_bits (context_offset h + BCC_CONTEXT_SIZE));
      [|done].
    cbn in Hov. injection Hov as <- <-.
    destruct (Z.ltb_spec size (context_offset h + BCC_CONTEXT_SIZE));
      [by apply LOGE_false in H|].
    destruct (Z.eqb_spec (Z.rem (context_offset h) pagesize) 0);
      cbn [negb] in H; [|by apply LOGE_false in H].
    destruct (Z.eqb_spec (context_cached_addr h mod pagesize) 0);
      cbn [negb] in H; [|by apply LOGE_false in H].
    done.
  - intros (H1 & H2 & H3 & H4 & H5 & H6 & Hoff & Hfits & Hend & Hrem & Hmod).
    exists s. unfold checkSectionOffsetAndSize.
    rewrite !(CHECK_SECTION_OFFSET_accepted _ _ _ _ _ _ Hh) by done.
    rewrite (bind_the_header _ _ _ Hh).
    unfold bind at 1. unfold get at 1. fold h. fold size.
    destruct (Z.ltb_spec size (context_offset h)); [lia|].
    unfold off_t_add. rewrite Hfits. unfold bind at 1 2, ret at 1 2.
    destruct (Z.ltb_spec size (context_offset h + BCC_CONTEXT_SIZE)); [lia|].
    by rewrite Hrem, Hmod.
  - intros s' H. by apply checkSectionOffsetAndSize_true in H as [-> _].
Qed.

End SectionChecks.

Section Readers.
Context `{P : Platform}.

Ltac ends_error :=
  match goal with s : CacheReader |- _ => destruct s end;
  cbn; eexists _, _; rewrite last_app; reflexivity.

(** Evaluates an expansion of the section reader, on a reader given by
    its fields, along the outcomes of the allocation, of the seek and
    of the read. *)
Ltac section_reader_eval :=
  let Efd := fresh in let Eoff := fresh in let Eneg := fresh in
  let Elen := fresh in
  match goal with
  | offset := _, size := _, raw := _ |- _ =>
      subst raw; subst offset; subst size
  end;
  unfold section_read, section_bytes;
  match goal with
  | |- context [((getFD ?f <? 0) || (?offset <? 0))%bool] =>
      destruct (getFD f <? 0) eqn:Efd;
      destruct (offset <? 0) eqn:Eoff;
      try (assert ((offset =? -1) = false) as Eneg
             by (apply Z.eqb_neq; apply Z.ltb_ge in Eoff; lia))
  end;
  match goal with
  | |- context [negb (?len =? ?w)] => destruct (len =? w) eqn:Elen
  end;
  cbn [heap];
  match goal with
  | |- context [default true (head ?hp)] => destruct hp as [|[] ?]
  end;
  unfold_monad; cbn;
  rewrite ?Efd, ?Eoff; cbn; rewrite ?Eneg; cbn; rewrite ?Efd; cbn;
  rewrite ?Elen; cbn; rewrite <- ?app_assoc; done.

(** The section reader on a holder of the result object. *)
Lemma read_section_in_result_eval set NAME NAME_offset NAME_size k s hb f res :
  mpHeader s = Some hb → mFile s = Some f → mpResult s = Some res →
  let offset := NAME_offset (as_Header hb) in
  let size := NAME_size (as_Header hb) in
  let raw := section_bytes f offset size in
  CACHE_READER_READ_SECTION (in_result set) NAME NAME_offset NAME_size k s
  = if negb (default true (head (heap s)))
    then Done (false,
               set_heap (tail (heap s))
                 (set_events
                    (events s ++ [EvMalloc size;
                                  EvLOGE ("Unable to allocate for " +:+ NAME) []])
                    s))
    else if ((getFD f <? 0) || (offset <? 0))%bool
    then Done (false,
               set_mpResult (Some (set (Some []) res))
                 (set_heap (tail (heap s))
                    (set_events
                       (events s ++
                          [EvMalloc size; EvSeek offset;
                           EvLOGE ("Unable to seek to " +:+ NAME +:+ " section")
                             []]) s)))
    else
      let s2 := set_mpResult (Some (set (Some raw) (set (Some []) res)))
                  (section_read f offset size s) in
      if negb (Z.of_nat (List.length raw) =? wrap_signed size_t_bits size)
      then Done (false,
                 set_events
                   (events s2 ++ [EvLOGE ("Unable to read " +:+ NAME +:+ ".") []])
                   s2)
      else k raw s2.
Proof.
  intros Hh Hf Hres offset size raw.
  destruct s as [mf ? mh ? ? ? mr ? hp ? ?]. cbn in Hh, Hf, Hres.
  subst mf mh mr.
  unfold CACHE_READER_READ_SECTION, in_result. section_reader_eval.
Qed.

Lemma readDependencyTable_eval s hb f :
  mpHeader s = Some hb → mFile s = Some f →
  let offset := depend_tab_offset (as_Header hb) in
  let size := depend_tab_size (as_Header hb) in
  let raw := section_bytes f offset size in
  readDependencyTable s
  = if negb (default true (head (heap s)))
    then Done (false,
               set_heap (tail (heap s))
                 (set_events
                    (events s ++ [EvMalloc size;
                                  EvLOGE "Unable to allocate for depend_tab" []])
                    s))
    else if ((getFD f <? 0) || (offset <? 0))%bool
    then Done (false,
               set_mpCachedDependTable (Some [])
                 (set_heap (tail (heap s))
                    (set_events
                       (events s ++
                          [EvMalloc size; EvSeek offset;
                           EvLOGE "Unable to seek to depend_tab section" []])
                       s)))
    else
      let s2 := set_mpCachedDependTable (Some raw)
                  (section_read f offset size s) in
      if negb (Z.of_nat (List.length raw) =? wrap_signed size_t_bits size)
      then Done (false,
                 set_events
                   (events s2 ++ [EvLOGE "Unable to read depend_tab." []]) s2)
      else Done (true, s2).
Proof.
  intros Hh Hf offset size raw.
  destruct s as [mf ? mh ? ? ? mr ? hp ? ?]. cbn in Hh, Hf. subst mf mh.
  unfold readDependencyTable, CACHE_READER_READ_SECTION, in_reader.
  section_reader_eval.
Qed.

(** The section can be read whole exactly when none of the three ways
    the section reader fails applies. *)
Lemma section_in_file_cases s NAME_offset NAME_size hb f :
  mpHeader s = Some hb → mFile s = Some f →
  let offset := NAME_offset (as_Header hb) in
  let size := NAME_size (as_Header hb) in
  (∃ raw, section_in_file s NAME_offset NAME_size raw) ↔
  negb (default true (head (heap s))) = false
  ∧ ((getFD f <? 0) || (offset <? 0))%bool = false
  ∧ negb (Z.of_nat (List.length (section_bytes f offset size))
          =? wrap_signed size_t_bits size) = false.
Proof.
  intros Hh Hf offset size. unfold section_in_file, can_allocate. split.
  - intros (raw & hb' & f' & Hh' & Hf' & Ha & Hfd & Hoff & -> & Hlen).
    assert (hb' = hb) as -> by congruence.
    assert (f' = f) as -> by congruence.
    split; [|split].
    + destruct (head (heap s)) as [[]|]; done.
    + apply orb_false_iff. split; apply Z.ltb_ge; done.
    + apply negb_false_iff, Z.eqb_eq. exact Hlen.
  - intros (Ha & [Hfd%Z.ltb_ge Hoff%Z.ltb_ge]%orb_false_iff
            & Hlen%negb_false_iff%Z.eqb_eq).
    exists (section_bytes f offset size), hb, f.
    repeat split; try done.
    destruct (head (heap s)) as [[]|]; done.
Qed.

(** X8. [readDependencyTable], on a reader that has its header and its
    file, always returns: true exactly when memory is left, the file is
    open, the offset of the table is not negative and the file holds
    the whole table from there on, and then [mpCachedDependTable] holds
    these bytes and the file stands right behind them; false with an
    error message as the last event otherwise.  The result object is
    not touched. *)
Theorem readDependencyTable_outcome s hb f :
  mpHeader s = Some hb → mFile s = Some f →
  let offset := depend_tab_offset (as_Header hb) in
  let size := depend_tab_size (as_Header hb) in
  ∃ b s',
    readDependencyTable s = Done (b, s')
    ∧ (b = true ↔
       ∃ raw, section_in_file s depend_tab_offset depend_tab_size raw)
    ∧ mpResult s' = mpResult s
    ∧ (b = true →
       mpCachedDependTable s' = Some (section_bytes f offset size)
       ∧ mFile s' = Some (set_position (offset + wrap_signed size_t_bits size) f)
       ∧ events s'
         = events s
           ++ section_events (as_Header hb) depend_tab_offset depend_tab_size)
    ∧ (b = false → ends_with_error (events s')).
Proof.
  intros Hh Hf offset size.
  pose proof (section_in_file_cases s depend_tab_offset depend_tab_size hb f
                Hh Hf) as Hiff.
  cbv zeta in Hiff. fold offset size in Hiff.
  rewrite (readDependencyTable_eval s hb f Hh Hf). cbv zeta.
  fold offset size.
  destruct (negb (default true (head (heap s)))).
  { eexists _, _. split; [done|].
    split; [rewrite Hiff; by split; [|intros ([=] & _)]|].
    split; [by destruct s|]. split; [done|]. intros _.
    ends_error. }
  destruct ((getFD f <? 0) || (offset <? 0))%bool.
  { eexists _, _. split; [done|].
    split; [rewrite Hiff; by split; [|intros (_ & [=] & _)]|].
    split; [by destruct s|]. split; [done|]. intros _.
    ends_error. }
  destruct (Z.eqb_spec
              (Z.of_nat (List.length (section_bytes f offset size)))
              (wrap_signed size_t_bits size)) as [Hlen|Hlen]; cbn [negb].
  - eexists _, _. split; [done|]. split; [by rewrite Hiff|].
    split; [by destruct s|]. split; [|done]. intros _.
    destruct s; cbn. by rewrite Hlen.
  - eexists _, _. split; [done|].
    split; [rewrite Hiff; by split; [|intros (_ & _ & [=])]|].
    split; [by destruct s|]. split; [done|]. intros _.
    ends_error.
Qed.

Lemma read_export_list_outcome set NAME NAME_offset NAME_size s hb f res :
  mpHeader s = Some hb → mFile s = Some f → mpResult s = Some res →
  (∀ v w r, set v (set w r) = set v r) →
  let offset := NAME_offset (as_Header hb) in
  let size := NAME_size (as_Header hb) in
  ∃ b s',
    CACHE_READER_READ_SECTION (in_result set) NAME NAME_offset NAME_size
      (λ _, ret true) s = Done (b, s')
    ∧ (b = true ↔ ∃ raw, section_in_file s NAME_offset NAME_size raw)
    ∧ (b = true →
       mpResult s' = Some (set (Some (section_bytes f offset size)) res)
       ∧ mFile s' = Some (set_position (offset + wrap_signed size_t_bits size) f)
       ∧ events s'
         = events s ++ section_events (as_Header hb) NAME_offset NAME_size)
    ∧ (b = false → ends_with_error (events s')).
Proof.
  intros Hh Hf Hres Hset offset size.
  pose proof (section_in_file_cases s NAME_offset NAME_size hb f Hh Hf)
    as Hiff.
  cbv zeta in Hiff. fold offset size in Hiff.
  rewrite (read_section_in_result_eval set NAME NAME_offset NAME_size _
             s hb f res Hh Hf Hres).
  cbv zeta. fold offset size.
  destruct (negb (default true (head (heap s)))).
  { eexists _, _. split; [done|].
    split; [rewrite Hiff; by split; [|intros ([=] & _)]|].
    split; [done|]. intros _. ends_error. }
  destruct ((getFD f <? 0) || (offset <? 0))%bool.
  { eexists _, _. split; [done|].
    split; [rewrite Hiff; by split; [|intros (_ & [=] & _)]|].
    split; [done|]. intros _. ends_error. }
  destruct (Z.eqb_spec
              (Z.of_nat (List.length (section_bytes f offset size)))
              (wrap_signed size_t_bits size)) as [Hlen|Hlen]; cbn [negb].
  - eexists _, _. split; [done|]. split; [by rewrite Hiff|].
    split; [|done]. intros _.
    destruct s; cbn. by rewrite Hlen, Hset.
  - eexists _, _. split; [done|].
    split; [rewrite Hiff; by split; [|intros (_ & _ & [=])]|].
    split; [done|]. intros _. ends_error.
Qed.

(** X9. [readExportVarList] and [readExportFuncList], on a reader that
    has its header, its file and its result object, always return:
    true exactly when the list can be read whole from the file, and
    then the result object holds the bytes of the list, in
    [mpExportVars] for the one and [mpExportFuncs] for the other, with
    nothing else of it changed; false with an error message as the last
    event otherwise.  Neither looks at what the list holds. *)
Theorem readExportLists_outcome s hb f res :
  mpHeader s = Some hb → mFile s = Some f → mpResult s = Some res →
  let h := as_Header hb in
  (∃ b s',
     readExportVarList s = Done (b, s')
     ∧ (b = true ↔
        ∃ raw,
          section_in_file s export_var_list_offset export_var_list_size raw)
     ∧ (b = true →
        mpResult s'
        = Some (set_mpExportVars
                  (Some (section_bytes f (export_var_list_offset h)
                           (export_var_list_size h))) res)
        ∧ events s'
          = events s
            ++ section_events h export_var_list_offset export_var_list_size)
     ∧ (b = false → ends_with_error (events s')))
  ∧ (∃ b s',
       readExportFuncList s = Done (b, s')
       ∧ (b = true ↔
          ∃ raw,
            section_in_file s export_func_list_offset export_func_list_size
              raw)
       ∧ (b = true →
          mpResult s'
          = Some (set_mpExportFuncs
                    (Some (section_bytes f (export_func_list_offset h)
                             (export_func_list_size h))) res)
          ∧ events s'
            = events s
              ++ section_events h export_func_list_offset
                   export_func_list_size)
       ∧ (b = false → ends_with_error (events s'))).
Proof.
  intros Hh Hf Hres h. split.
  - destruct (read_export_list_outcome set_mpExportVars "export_var_list"
                export_var_list_offset export_var_list_size s hb f res
                Hh Hf Hres) as (b & s' & E & Hiff & Ht & Hfalse).
    { by intros v w []. }
    exists b, s'. split; [exact E|]. split; [exact Hiff|].
    split; [|exact Hfalse]. intros Hb. by destruct (Ht Hb) as (? & _ & ?).
  - destruct (read_export_list_outcome set_mpExportFuncs "export_func_list"
                export_func_list_offset export_func_list_size s hb f res
                Hh Hf Hres) as (b & s' & E & Hiff & Ht & Hfalse).
    { by intros v w []. }
    exists b, s'. split; [exact E|]. split; [exact Hiff|].
    split; [|exact Hfalse]. intros Hb. by destruct (Ht Hb) as (? & _ & ?).
Qed.

End Readers.

Section Strings.
Context `{P : Platform}.

Lemma readStringPool_body_eval raw i t r e :
  mpResult t = Some r → ov_at as_StringPool raw i = Some e →
  readStringPool_body raw i t
  = Done (None,
          set_mpResult
            (Some (set_mStringPool (mStringPool r ++ [str_offset e]) r)) t).
Proof.
  intros Hr He. unfold readStringPool_body.
  rewrite He, bind_deref_Some. unfold modify_result.
  unfold bind at 1 2. rewrite (proj2 (the_result_Done t r t)) by done.
  done.
Qed.

Lemma readStringPool_loop raw es i t r :
  mpResult t = Some r →
  (∀ j e, es !! j = Some e → ov_at as_StringPool raw (i + j) = Some e) →
  for_range i (List.length es) (readStringPool_body raw) t
  = Done (None,
          set_mpResult
            (Some (set_mStringPool (mStringPool r ++ (str_offset <$> es)) r))
            t).
Proof.
  revert i t r. induction es as [|e es IH]; intros i t r Hr Hat.
  - cbn. unfold ret. do 2 f_equal. rewrite app_nil_r.
    destruct t, r; cbn in *. by rewrite Hr.
  - cbn [List.length for_range]. unfold bind at 1.
    rewrite (readStringPool_body_eval raw i t r e Hr); last first.
    { specialize (Hat 0%nat e eq_refl). by rewrite Nat.add_0_r in Hat. }
    rewrite (IH (S i) _ (set_mStringPool (mStringPool r ++ [str_offset e]) r));
      [|done|].
    + cbn. by rewrite <- app_assoc.
    + intros j e' Hj. specialize (Hat (S j) e' Hj).
      by rewrite Nat.add_succ_r in Hat.
Qed.

(** The loop of [readStringPool] over [n] entries either finds them
    all in the blob or reads outside it. *)
Lemma readStringPool_loop_cases raw n i t r :
  mpResult t = Some r →
  (∃ es, List.length es = n
         ∧ ∀ j e, es !! j = Some e → ov_at as_StringPool raw (i + j) = Some e)
  ∨ for_range i n (readStringPool_body raw) t = Undefined.
Proof.
  revert i t r. induction n as [|n IH]; intros i t r Hr.
  { left. by exists []. }
  destruct (ov_at as_StringPool raw i) as [e|] eqn:He; last first.
  { right. cbn [for_range]. unfold bind, readStringPool_body at 1.
    by rewrite He. }
  cbn [for_range]. unfold bind at 1.
  rewrite (readStringPool_body_eval raw i t r e Hr He).
  destruct (IH (S i)
              (set_mpResult
                 (Some (set_mStringPool (mStringPool r ++ [str_offset e]) r)) t)
              (set_mStringPool (mStringPool r ++ [str_offset e]) r))
    as [(es & Hlen & Hat)|Hundef]; [by destruct t| |by right].
  left. exists (e :: es). split; [cbn; by rewrite Hlen|].
  intros [|j] e' Hj.
  - injection Hj as <-. by rewrite Nat.add_0_r.
  - rewrite Nat.add_succ_r. by apply Hat.
Qed.

(** Once the section is read, what is left of [readStringPool] is the
    loop over the entries. *)
Lemma readStringPool_read s raw res :
  section_in_file s str_pool_offset str_pool_size raw →
  mpResult s = Some res →
  ∃ s2 hb,
    readStringPool s
    = (count <- deref (ov_count as_StringPool raw) ;;
       for_range 0 (Z.to_nat count) (readStringPool_body raw) ;;;
       ret true) s2
    ∧ mpResult s2 = Some (set_mpStringPoolRaw (Some raw) res)
    ∧ mpHeader s = Some hb
    ∧ events s2
      = events s ++ section_events (as_Header hb) str_pool_offset str_pool_size.
Proof.
  intros Hin Hres.
  pose proof Hin as (hb & f & Hh & Hf & _ & _ & _ & Hraw & _).
  pose proof (proj1 (section_in_file_cases s str_pool_offset str_pool_size
                       hb f Hh Hf) (ex_intro _ raw Hin))
    as (Ha & Hseek & Hlen).
  unfold readStringPool.
  rewrite (read_section_in_result_eval set_mpStringPoolRaw "str_pool"
             str_pool_offset str_pool_size _ s hb f res Hh Hf Hres).
  cbv zeta. rewrite Ha, Hseek, Hlen.
  fold (section_bytes f (str_pool_offset (as_Header hb))
          (str_pool_size (as_Header hb))) in Hraw.
  rewrite <- Hraw.
  eexists _, hb. split; [reflexivity|]. split; [|split; [done|]].
  - cbn. by destruct res.
  - by destruct s.
Qed.

(** X10. When the string pool section can be read whole from the file
    and its blob holds the entries its count announces, [readStringPool]
    succeeds: the result object then holds the bytes of the section
    and, appended in order to the strings it had, one pointer an entry
    of the pool, at the offset the entry gives, whatever that offset
    is; so a fresh result object holds the loaded pool, and nothing
    else is read from the file.  When the blob does not hold the
    entries its count announces, [readStringPool] reads outside the
    blob.  Once the section is read it never returns false: the count
    and the offsets are not validated. *)
Theorem readStringPool_loads s raw res :
  section_in_file s str_pool_offset str_pool_size raw →
  mpResult s = Some res →
  (∀ es, pool_entries raw es →
     ∃ s' hb,
       readStringPool s = Done (true, s')
       ∧ mpResult s'
         = Some (set_mStringPool (mStringPool res ++ (str_offset <$> es))
                   (set_mpStringPoolRaw (Some raw) res))
       ∧ (mStringPool res = [] → pool_loaded s' raw es)
       ∧ mpHeader s = Some hb
       ∧ events s'
         = events s
           ++ section_events (as_Header hb) str_pool_offset str_pool_size)
  ∧ ((¬ ∃ es, pool_entries raw es) → readStringPool s = Undefined)
  ∧ (∀ s', readStringPool s ≠ Done (false, s')).
Proof.
  intros Hin Hres.
  destruct (readStringPool_read s raw res Hin Hres)
    as (s2 & hb & -> & Hres2 & Hh & Hev).
  assert (∀ es, pool_entries raw es →
            (count <- deref (ov_count as_StringPool raw) ;;
             for_range 0 (Z.to_nat count) (readStringPool_body raw) ;;;
             ret true) s2
            = Done (true,
                    set_mpResult
                      (Some (set_mStringPool
                               (mStringPool res ++ (str_offset <$> es))
                               (set_mpStringPoolRaw (Some raw) res))) s2))
    as Hgood.
  { intros es [(count & Hcount & Hn) Hat].
    rewrite Hcount, bind_deref_Some, Hn. unfold bind at 1.
    by rewrite (readStringPool_loop raw es 0 s2
                  (set_mpStringPoolRaw (Some raw) res)). }
  assert ((∃ es, pool_entries raw es)
          ∨ (count <- deref (ov_count as_StringPool raw) ;;
             for_range 0 (Z.to_nat count) (readStringPool_body raw) ;;;
             ret true) s2 = Undefined) as Hcases.
  { destruct (ov_count as_StringPool raw) as [count|] eqn:Hcount;
      [|by right].
    rewrite bind_deref_Some.
    destruct (readStringPool_loop_cases raw (Z.to_nat count) 0 s2 _ Hres2)
      as [(es & Hlen & Hat)|Hundef].
    - left. exists es. split; [by exists count|]. intros i e. apply Hat.
    - right. unfold bind. by rewrite Hundef. }
  split; [|split].
  - intros es Hes. rewrite (Hgood es Hes).
    eexists _, hb. split; [reflexivity|]. split; [by destruct s2|].
    split; [|split; [done|by destruct s2]].
    intros Hempty. eexists. split; [by destruct s2|]. cbn.
    split; [done|]. split; [done|]. by rewrite Hempty.
  - intros Hno. by destruct Hcases as [Hes|Hundef].
  - intros s' E. destruct Hcases as [[es Hes]|Hundef]; [|congruence].
    by rewrite (Hgood es Hes) in E.
Qed.

(** *** C strings *)

Lemma c_str_from_spec bs name :
  c_str_from bs = Some name →
  ∃ rest, bs = list_ascii_of_string name ++ NUL :: rest
          ∧ NUL ∉ list_ascii_of_string name.
Proof.
  revert name. induction bs as [|b bs IH]; intros name H; cbn in H; [done|].
  destruct (Ascii.eqb_spec b NUL) as [->|Hb].
  - injection H as <-. exists bs. split; [done|]. cbn. apply not_elem_of_nil.
  - destruct (c_str_from bs) as [n|]; [|done]. injection H as <-.
    destruct (IH n eq_refl) as (rest & -> & Hnot).
    exists rest. split; [done|]. cbn. apply not_elem_of_cons. by split.
Qed.

Lemma c_str_from_terminated bs n :
  bs !! n = Some NUL →
  ∃ name, c_str_from bs = Some name ∧ (String.length name ≤ n)%nat.
Proof.
  revert n. induction bs as [|b bs IH]; intros n H; [done|]. cbn.
  destruct (Ascii.eqb_spec b NUL) as [->|Hb].
  - exists EmptyString. split; [done|]. cbn. lia.
  - destruct n as [|n]; [cbn in H; congruence|].
    destruct (IH n H) as (name & -> & Hlen).
    exists (String b name). split; [done|]. cbn. lia.
Qed.

Lemma length_list_ascii_of_string name :
  List.length (list_ascii_of_string name) = String.length name.
Proof. induction name as [|a name IH]; cbn; [done|]. by rewrite IH. Qed.

Lemma checkStringPool_body_None s raw es res i e x t :
  pool_loaded s raw es → mpResult s = Some res → es !! i = Some e →
  checkStringPool_body (mpStringPoolRaw res) (mStringPool res) i s
  = Done (x, t) →
  (x = None ∧ t = s ∧ terminator raw e = Some NUL) ∨ x = Some false.
Proof.
  intros Hl Hres He H.
  destruct (terminator raw e) as [c|] eqn:Hc.
  - rewrite (checkStringPool_entry s raw es i e c Hl He Hc res Hres) in H.
    destruct (Ascii.eqb_spec c NUL) as [Ec|Ec].
    + left. rewrite <- Ec. by injection H as <- <-.
    + right. by injection H as <- _.
  - destruct Hl as (res' & Hres' & Hraw & [_ Hat] & Hpool).
    assert (res' = res) as -> by congruence.
    unfold checkStringPool_body in H.
    rewrite Hraw, bind_deref_Some, (Hat _ _ He), bind_deref_Some in H.
    unfold bind at 1 in H. erewrite vector_at_Done in H; last first.
    { rewrite Hpool, list_lookup_fmap, He. done. }
    unfold terminator in Hc. by rewrite Hc in H.
Qed.

Lemma checkStringPool_true_terminators s raw es s' :
  pool_loaded s raw es →
  checkStringPool s = Done (true, s') →
  ∀ i e, es !! i = Some e → terminator raw e = Some NUL.
Proof.
  intros Hl H.
  pose proof Hl as (res & Hres & Hraw & [(count & Hcount & Hn) Hat] & Hpool).
  unfold checkStringPool in H. rewrite (bind_the_result _ _ _ Hres) in H.
  cbn zeta in H. unfold bind at 1 2 in H. rewrite Hraw in H.
  cbn [deref ret] in H. rewrite Hcount in H. cbn [deref ret] in H.
  rewrite Hn in H.
  apply bind_Done in H as (r & s1 & Hloop & Hret).
  apply for_range_inv in Hloop
    as [(-> & -> & Hall)|(j & x & -> & Hj & _ & Hb)].
  - intros i e He. apply lookup_lt_Some in He as Hi.
    specialize (Hall i ltac:(lia)). rewrite <- Hraw in Hall.
    by destruct (checkStringPool_body_None _ _ _ _ _ _ _ _ Hl Hres He Hall)
      as [(_ & _ & ?)|[=]].
  - destruct (lookup_lt_is_Some_2 es j) as [e He]; [lia|].
    rewrite <- Hraw in Hb.
    destruct (checkStringPool_body_None _ _ _ _ _ _ _ _ Hl Hres He Hb)
      as [([=] & _)|[= ->]].
    by injection Hret.
  - intros k t Hk Hb.
    destruct (lookup_lt_is_Some_2 es k) as [e He]; [lia|].
    rewrite <- Hraw in Hb.
    by destruct (checkStringPool_body_None _ _ _ _ _ _ _ _ Hl Hres He Hb)
      as [(_ & -> & _)|[=]].
Qed.

(** X11. What [checkStringPool] buys: once it has accepted the loaded
    pool, every entry with a non-negative offset and length resolves to
    a C string that ends within the bytes the entry declares, so
    reading a name never runs past the declared end of its entry.  The
    string is a prefix of the declared bytes, and is all of them when
    they hold no NUL. *)
Theorem checkStringPool_bounds_strings s raw es res s' :
  pool_loaded s raw es → mpResult s = Some res →
  checkStringPool s = Done (true, s') →
  ∀ i e, es !! i = Some e → 0 ≤ str_offset e → 0 ≤ str_length e →
    ∃ name,
      pool_string res (Z.of_nat i) = Some name
      ∧ list_ascii_of_string name `prefix_of` declared_bytes raw e
      ∧ (NUL ∉ declared_bytes raw e →
         list_ascii_of_string name = declared_bytes raw e).
Proof.
  intros Hl Hres H i e He Hoff Hlen.
  pose proof (checkStringPool_true_terminators s raw es s' Hl H i e He) as Ht.
  destruct Hl as (res' & Hres' & Hraw & _ & Hpool).
  assert (res' = res) as -> by congruence.
  unfold pool_string, pool_entry. rewrite Hraw.
  destruct (Z.leb_spec 0 (Z.of_nat i)); [|lia].
  rewrite Nat2Z.id, Hpool, list_lookup_fmap, He. cbn [fmap option_fmap option_map].
  unfold c_str. destruct (Z.leb_spec 0 (str_offset e)); [|lia].
  unfold terminator, byte_at in Ht.
  destruct (Z.leb_spec 0 (str_offset e + str_length e)); [|lia].
  assert (drop (Z.to_nat (str_offset e)) raw !! Z.to_nat (str_length e)
          = Some NUL) as Hnul.
  { rewrite lookup_drop. rewrite <- Ht. f_equal. lia. }
  destruct (c_str_from_terminated _ _ Hnul) as (name & Hname & Hle).
  exists name. split; [exact Hname|].
  destruct (c_str_from_spec _ _ Hname) as (rest & Hsplit & Hnot).
  unfold declared_bytes. rewrite Hsplit.
  rewrite take_app. rewrite length_list_ascii_of_string.
  rewrite take_ge by (rewrite length_list_ascii_of_string; lia).
  split; [by eexists|].
  intros Hfree.
  destruct (Z.to_nat (str_length e) - String.length name)%nat as [|n] eqn:En.
  - by rewrite app_nil_r.
  - exfalso. apply Hfree. apply elem_of_app. right. cbn. apply elem_of_cons.
    by left.
Qed.

End Strings.

Section ContextBlock.
Context `{P : Platform}.

(** X12. [readContext], on a reader that has its header, its file and
    its result object, asks the context manager for the block at the
    cached address and returns whether it got it; it stores what it got
    in the result object, null included, and logs nothing, so a refusal
    of the context manager is silent.  On a file whose size
    [checkFileSize] has recorded and whose header
    [checkSectionOffsetAndSize] accepts, with a non-negative context
    offset, the block it gets has all its [BCC_CONTEXT_SIZE] bytes. *)
Theorem readContext_outcome s hb f res :
  mpHeader s = Some hb → mFile s = Some f → mpResult s = Some res →
  let h := as_Header hb in
  let got := if can_map s (context_cached_addr h)
             then Some (context_block f (context_offset h)) else None in
  readContext s
  = Done (can_map s (context_cached_addr h),
          set_mpResult (Some (set_mContext got res))
            (set_events
               (events s ++
                  [EvAllocateContext (context_cached_addr h) (getFD f)
                     (context_offset h)]) s))
  ∧ (mFileSize s = Z.of_nat (List.length (contents f)) →
     context_accepted (mFileSize s) h →
     0 ≤ context_offset h → 0 ≤ BCC_CONTEXT_SIZE →
     whole_context (context_block f (context_offset h))).
Proof.
  intros Hh Hf Hres h got. split.
  - unfold readContext.
    rewrite (bind_the_header _ _ _ Hh), (bind_the_file _ _ _ Hf). fold h.
    subst got. unfold allocateContext, modify_result, context_block.
    destruct s as [mf ? mh ? ? ? mr ? ? cm ?]. cbn in Hh, Hf, Hres.
    subst mf mh mr. unfold_monad. cbn.
    by destruct (cm (context_cached_addr h)).
  - intros Hsize (_ & _ & Hend & _) Hoff Hctx.
    unfold whole_context, context_block.
    rewrite length_take, length_drop. lia.
Qed.

Lemma load_uint32_flip_at ctx k j i w :
  (j < 8)%nat → load_uint32 ctx (4 * i) = Some w →
  load_uint32 (flip_context_bit k j ctx) (4 * i)
  = Some (if decide (k `div` 4 = i)%nat
          then Z.lxor w (2 ^ bit_of_word k j) else w).
Proof.
  intros Hj. unfold load_uint32, flip_context_bit, bit_of_word.
  destruct (ctx !! (4 * i)%nat) as [b0|] eqn:E0; [|done].
  destruct (ctx !! S (4 * i)) as [b1|] eqn:E1; [|done].
  destruct (ctx !! S (S (4 * i))) as [b2|] eqn:E2; [|done].
  destruct (ctx !! S (S (S (4 * i)))) as [b3|] eqn:E3; [|done].
  intros [= <-].
  pose proof (Nat.div_mod_eq k 4) as Hk.
  pose proof (Nat.mod_upper_bound k 4 ltac:(lia)) as Hr.
  destruct (decide (k `div` 4 = i)%nat) as [Hi|Hi].
  - set (q := (k `mod` 4)%nat) in *.
    assert (∀ p b, ctx !! (4 * i + p)%nat = Some b →
                   alter (flip_bit j) k ctx !! (4 * i + p)%nat
                   = Some (if decide (q = p) then flip_bit j b else b)) as Hp.
    { intros p b Hb. case_decide as Hqp.
      - replace k with (4 * i + p)%nat by lia.
        by rewrite list_lookup_alter, decide_True, Hb.
      - rewrite list_lookup_alter_ne by lia. done. }
    replace (4 * i)%nat with (4 * i + 0)%nat in E0 |- * by lia.
    replace (S (4 * i + 0)) with (4 * i + 1)%nat by lia.
    replace (S (4 * i + 1)) with (4 * i + 2)%nat by lia.
    replace (S (4 * i + 2)) with (4 * i + 3)%nat by lia.
    replace (S (4 * i)) with (4 * i + 1)%nat in E1 by lia.
    replace (S (S (4 * i))) with (4 * i + 2)%nat in E2 by lia.
    replace (S (S (S (4 * i)))) with (4 * i + 3)%nat in E3 by lia.
    rewrite (Hp _ _ E0), (Hp _ _ E1), (Hp _ _ E2), (Hp _ _ E3).
    destruct isLittleEndian.
    + by rewrite uint32_of_bytes_flip.
    + rewrite <- (uint32_of_bytes_flip (3 - q) j b3 b2 b1 b0) by lia.
      do 2 f_equal; repeat case_decide; try done; lia.
  - rewrite !list_lookup_alter_ne by lia. by rewrite E0, E1, E2, E3.
Qed.

Lemma context_words_flip_at ctx k j :
  whole_context ctx → BCC_CONTEXT_SIZE mod 4 = 0 →
  (k < List.length ctx)%nat → (j < 8)%nat →
  ∃ w, context_words ctx !! (k `div` 4)%nat = Some w
       ∧ context_words (flip_context_bit k j ctx)
         = <[(k `div` 4)%nat := Z.lxor w (2 ^ bit_of_word k j)]>
             (context_words ctx).
Proof.
  intros Hlen Hmod Hk Hj. pose proof Hlen as Hlen'. unfold whole_context in Hlen'.
  set (n := Z.to_nat (BCC_CONTEXT_SIZE / 4)).
  assert (k `div` 4 < n)%nat as Hq.
  { subst n. pose proof (Z.div_mod BCC_CONTEXT_SIZE 4 ltac:(lia)).
    pose proof (Nat.div_mod_eq k 4).
    pose proof (Nat.mod_upper_bound k 4 ltac:(lia)). lia. }
  destruct (whole_context_word ctx (k `div` 4) Hlen Hq) as [w Hw].
  pose proof (load_uint32_flip_at ctx k j (k `div` 4) w Hj Hw) as Hflip.
  rewrite decide_True in Hflip by done.
  exists w. split.
  { unfold context_words. fold n.
    rewrite list_lookup_fmap, lookup_seq_lt, Nat.add_0_l by done.
    cbn -[Nat.mul Nat.div]. by rewrite Hw. }
  apply list_eq. intros i. unfold context_words. fold n.
  destruct (decide (i = k `div` 4)%nat) as [->|Hne].
  - rewrite list_lookup_insert_eq by by rewrite length_fmap, length_seq.
    rewrite list_lookup_fmap, lookup_seq_lt by done.
    cbn -[Nat.mul Nat.div]. by rewrite Hflip.
  - rewrite list_lookup_insert_ne by done.
    rewrite !list_lookup_fmap.
    destruct (seq 0 n !! i) as [i'|] eqn:Hi; [|done].
    apply lookup_seq in Hi as [-> Hi]. cbn -[Nat.mul Nat.div]. f_equal.
    destruct (whole_context_word ctx i Hlen Hi) as [w' Hw'].
    rewrite (load_uint32_flip_at ctx k j i w' Hj Hw').
    rewrite decide_False by done. by rewrite Hw'.
Qed.

(** The parity of the context with one bit flipped. *)
Lemma parity_flip seed ctx k j :
  whole_context ctx → BCC_CONTEXT_SIZE mod 4 = 0 →
  (k < List.length ctx)%nat → (j < 8)%nat →
  parity seed (flip_context_bit k j ctx)
  = Z.lxor (parity seed ctx) (2 ^ bit_of_word k j).
Proof.
  intros Hlen Hmod Hk Hj.
  destruct (context_words_flip_at ctx k j Hlen Hmod Hk Hj) as (w & Hw & Hwords).
  unfold parity. rewrite Hwords. by apply foldl_lxor_insert.
Qed.

(** X13. The checksum is blind to an even number of flips of one bit
    position: with bit [j] flipped in two bytes that have the same
    place in their words, [checkContext] returns what it returns on the
    context as it was. *)
Theorem checkContext_misses_paired_flips s hb res ctx k k' j :
  mpHeader s = Some hb → mpResult s = Some res → mContext res = Some ctx →
  whole_context ctx → BCC_CONTEXT_SIZE mod 4 = 0 →
  (k < List.length ctx)%nat → (k' < List.length ctx)%nat → (j < 8)%nat →
  (k `mod` 4 = k' `mod` 4)%nat →
  ∀ b, (∃ s', checkContext s = Done (b, s')) ↔
       (∃ s', checkContext
                (with_context (flip_context_bit k' j (flip_context_bit k j ctx))
                   s) = Done (b, s')).
Proof.
  intros Hh Hres Hctx Hlen Hmod Hk Hk' Hj Hsame b.
  rewrite (checkContext_eval s hb res ctx) by done.
  assert (whole_context (flip_context_bit k j ctx)) as Hlen1.
  { unfold whole_context, flip_context_bit in *. by rewrite length_alter. }
  erewrite (checkContext_eval _ hb _
              (flip_context_bit k' j (flip_context_bit k j ctx))); cycle 1.
  - by destruct s.
  - destruct s; cbn in *. by rewrite Hres.
  - done.
  - unfold whole_context, flip_context_bit in *. by rewrite !length_alter.
  - rewrite (parity_flip _ (flip_context_bit k j ctx) k' j), parity_flip;
      [|done..| |done].
    2: { unfold flip_context_bit. by rewrite length_alter. }
    replace (bit_of_word k' j) with (bit_of_word k j)
      by (unfold bit_of_word; by rewrite Hsame).
    rewrite Z.lxor_assoc, Z.lxor_nilpotent, Z.lxor_0_r.
    destruct (parity _ ctx =? 0); split; intros [s' E]; injection E as <- _;
      by eexists.
Qed.

(** X14. One checksum lets a context through: [checkContext] succeeds
    exactly when the checksum word of the header is the XOR of the
    words of the context, which is how a cache must be written to be
    read back. *)
Theorem checkContext_accepts_one_checksum s hb res ctx :
  mpHeader s = Some hb → mpResult s = Some res → mContext res = Some ctx →
  whole_context ctx →
  (∃ s', checkContext s = Done (true, s')) ↔
  context_parity_checksum (as_Header hb) = parity 0 ctx.
Proof.
  intros Hh Hres Hctx Hlen.
  rewrite (checkContext_eval s hb res ctx) by done.
  unfold parity. rewrite foldl_lxor_seed.
  destruct (Z.eqb_spec
              (Z.lxor (context_parity_checksum (as_Header hb))
                 (foldl Z.lxor 0 (context_words ctx))) 0) as [E|E].
  - apply Z.lxor_eq in E. split; [done|]. intros _. by eexists.
  - split; [by intros [? [=]]|]. intros E'. rewrite E' in E.
    by rewrite Z.lxor_nilpotent in E.
Qed.

End ContextBlock.

Section Artifact.
Context `{P : Platform}.

Lemma section_bytes_contents f g offset size :
  contents g = contents f →
  section_bytes g offset size = section_bytes f offset size.
Proof. unfold section_bytes. by intros ->. Qed.

Lemma holds_buffer_in_result i set :
  (∀ v r, [mpStringPoolRaw (set v r); mpExportVars (set v r);
           mpExportFuncs (set v r); mContext (set v r)]
          = <[i := v]> [mpStringPoolRaw r; mpExportVars r;
                        mpExportFuncs r; mContext r]) →
  ∀ j, j = match i with 0 => 1 | 1 => 3 | 2 => 4 | _ => 7 end%nat →
  (i < 4)%nat →
  holds_buffer j (in_result set).
Proof.
  intros Hset j -> Hi v t u t' H. unfold in_result, modify_result in H.
  apply bind_Done in H as (res & ? & [Hres ->]%the_result_Done & H).
  injection H as _ <-. specialize (Hset v res).
  destruct t; cbn in *. rewrite Hres. unfold buffers. cbn.
  destruct i as [|[|[|[|i]]]]; [| | | |lia]; cbn in Hset |- *;
    injection Hset as ? ? ? ?; congruence.
Qed.

Lemma modify_result_buffers g t u t' :
  (∀ r, mpStringPoolRaw (g r) = mpStringPoolRaw r
        ∧ mpExportVars (g r) = mpExportVars r
        ∧ mpExportFuncs (g r) = mpExportFuncs r
        ∧ mContext (g r) = mContext r) →
  modify_result g t = Done (u, t') → buffers t' = buffers t.
Proof.
  intros Hg H. unfold modify_result in H.
  apply bind_Done in H as (res & ? & [Hres ->]%the_result_Done & H).
  injection H as _ <-. destruct (Hg res) as (E1 & E2 & E3 & E4).
  destruct t; cbn in *. rewrite Hres. unfold buffers. cbn.
  by rewrite E1, E2, E3, E4.
Qed.

Lemma for_range_buffers {R} (body : nat → M (option R)) n i s r s' :
  (∀ k t x t', body k t = Done (x, t') → buffers t' = buffers t) →
  for_range i n body s = Done (r, s') → buffers s' = buffers s.
Proof.
  intros Hbody. revert i s. induction n as [|n IH]; intros i s H; cbn in H.
  - by injection H as _ <-.
  - apply bind_Done in H as (x & t & Hb & H).
    apply Hbody in Hb as Hf. destruct x as [x|].
    + by injection H as _ <-.
    + rewrite <- Hf. by eapply IH.
Qed.

(** What the section reader has put in its holder when the function
    that expands it returns true. *)
Lemma read_section_loads i hold NAME NAME_offset NAME_size k s s' :
  keeps hold → holds_buffer i hold →
  (∀ raw t t', k raw t = Done (true, t') → buffers t' = buffers t) →
  CACHE_READER_READ_SECTION hold NAME NAME_offset NAME_size k s
  = Done (true, s') →
  loads i NAME_offset NAME_size s s'.
Proof.
  intros Hkeep Hhold Hk H. unfold CACHE_READER_READ_SECTION in H.
  apply bind_Done in H as (h & ? & [(hb & Hh & ->) ->]%the_header_Done & H).
  set (h := as_Header hb) in *.
  apply bind_Done in H as (ok & sa & Ha & H). rewrite allocate_eval in Ha.
  injection Ha as <- <-.
  destruct (default true (head (heap s))) eqn:Hok; cbn [negb] in H;
    [|by apply LOGE_false in H].
  apply bind_Done in H as (u0 & sb & Hb & H).
  destruct (Hkeep _ _ _ _ Hb) as (Hhb & Hfb & Heb & _). cbn in Hhb, Hfb, Heb.
  apply Hhold in Hb as Hbuf_b.
  apply bind_Done in H as (h' & ? & [(hb' & Hh' & ->) ->]%the_header_Done & H).
  assert (hb' = hb) as -> by congruence. fold h in H.
  apply bind_Done in H as (r & sc & Hseek & H).
  destruct (mFile s) as [f|] eqn:Hf; last first.
  { unfold FileHandle_seek in Hseek.
    apply bind_Done in Hseek as (? & ? & [Hn _]%the_file_Done & _). congruence. }
  rewrite (seek_eval _ sb f Hfb) in Hseek.
  destruct (Z.ltb_spec (getFD f) 0) as [|Hfd]; cbn [orb] in Hseek.
  { injection Hseek as <- <-. cbn in H. by apply LOGE_false in H. }
  destruct (Z.ltb_spec (NAME_offset h) 0) as [|Hoff].
  { injection Hseek as <- <-. cbn in H. by apply LOGE_false in H. }
  injection Hseek as <- <-.
  destruct (Z.eqb_spec (NAME_offset h) (-1)) as [|_]; [lia|].
  apply bind_Done in H as (h2 & ? & [(hb2 & Hh2 & ->) ->]%the_header_Done & H).
  cbn in Hh2. assert (hb2 = hb) as -> by congruence. fold h in H.
  apply bind_Done in H as (rd & sd & Hread & H).
  erewrite read_eval in Hread by reflexivity.
  destruct (Z.ltb_spec (getFD (set_position (NAME_offset h) f)) 0) as [|_];
    [cbn in *; lia|].
  cbn [position set_position] in Hread. cbv zeta in Hread.
  injection Hread as <- <-. cbn [fst snd] in H.
  fold (section_bytes f (NAME_offset h) (NAME_size h)) in H.
  set (raw := section_bytes f (NAME_offset h) (NAME_size h)) in *.
  apply bind_Done in H as (u1 & se & He & H).
  apply Hhold in He as Hbuf_e.
  destruct (Z.of_nat (List.length raw) =? wrap_signed size_t_bits (NAME_size h));
    cbn [negb] in H; [|by apply LOGE_false in H].
  apply Hk in H. exists hb, f. split; [done|]. split; [done|].
  rewrite H, Hbuf_e. fold h. fold raw.
  replace (buffers (set_mFile _ (set_events _ (set_mFile _ (set_events _ sb)))))
    with (buffers sb) by (by destruct sb).
  rewrite Hbuf_b, list_insert_insert_eq. by destruct s.
Qed.

Lemma readStringPool_loads_buffer s s' :
  readStringPool s = Done (true, s') →
  loads 1 str_pool_offset str_pool_size s s'.
Proof.
  apply read_section_loads; [apply keeps_in_result| |].
  - apply (holds_buffer_in_result 0); [by intros v []|done|lia].
  - intros raw t t' H.
    apply bind_Done in H as (count & ? & [_ ->]%deref_Done & H).
    apply bind_Done in H as (r & t1 & Hloop & H). injection H as <-.
    eapply for_range_buffers; [|exact Hloop].
    intros k t0 x t0' Hb. unfold readStringPool_body in Hb.
    apply bind_Done in Hb as (e & ? & [_ ->]%deref_Done & Hb).
    apply bind_Done in Hb as (u & t2 & Hm & Hb). injection Hb as _ <-.
    eapply modify_result_buffers; [|exact Hm]. by intros [].
Qed.

Lemma holds_buffer_in_reader i set :
  (∀ v t, buffers (set v t) = <[i := v]> (buffers t)) →
  holds_buffer i (in_reader set).
Proof. intros H v t u t' [= _ <-]. apply H. Qed.

Lemma readDependencyTable_loads_buffer s s' :
  readDependencyTable s = Done (true, s') →
  loads 2 depend_tab_offset depend_tab_size s s'.
Proof.
  apply read_section_loads; [apply keeps_set_mpCachedDependTable| |].
  - apply holds_buffer_in_reader. by intros v [].
  - by intros raw t t' [= <-].
Qed.

Lemma readExportVarList_loads_buffer s s' :
  readExportVarList s = Done (true, s') →
  loads 3 export_var_list_offset export_var_list_size s s'.
Proof.
  apply read_section_loads; [apply keeps_in_result| |].
  - apply (holds_buffer_in_result 1); [by intros v []|done|lia].
  - by intros raw t t' [= <-].
Qed.

Lemma readExportFuncList_loads_buffer s s' :
  readExportFuncList s = Done (true, s') →
  loads 4 export_func_list_offset export_func_list_size s s'.
Proof.
  apply read_section_loads; [apply keeps_in_result| |].
  - apply (holds_buffer_in_result 2); [by intros v []|done|lia].
  - by intros raw t t' [= <-].
Qed.

Lemma readPragmaList_loads_buffer s s' :
  readPragmaList s = Done (true, s') →
  loads 5 pragma_list_offset pragma_list_size s s'.
Proof.
  apply read_section_loads; [apply keeps_set_mpPragmaList| |].
  - apply holds_buffer_in_reader. by intros v [].
  - intros raw t t' H.
    apply bind_Done in H as (count & ? & [_ ->]%deref_Done & H).
    apply bind_Done in H as (r & t1 & Hloop & H). injection H as <-.
    eapply for_range_buffers; [|exact Hloop].
    intros k t0 x t0' Hb. unfold readPragmaList_body in Hb.
    apply bind_Done in Hb as (e & ? & [_ ->]%deref_Done & Hb).
    apply bind_Done in Hb as (res & ? & [_ ->]%the_result_Done & Hb).
    unfold vector_at in Hb.
    apply bind_Done in Hb as (key & ? & [_ ->]%deref_Done & Hb).
    apply bind_Done in Hb as (value & ? & [_ ->]%deref_Done & Hb).
    apply bind_Done in Hb as (u & t2 & Hm & Hb). injection Hb as _ <-.
    eapply modify_result_buffers; [|exact Hm]. by intros [].
Qed.

Lemma readFuncTable_loads_buffer s s' :
  readFuncTable s = Done (true, s') →
  loads 6 func_table_offset func_table_size s s'.
Proof.
  apply read_section_loads; [apply keeps_set_mpFuncTable| |].
  - apply holds_buffer_in_reader. by intros v [].
  - intros raw t t' H.
    apply bind_Done in H as (count & ? & [_ ->]%deref_Done & H).
    apply bind_Done in H as (r & t1 & Hloop & H). injection H as <-.
    eapply for_range_buffers; [|exact Hloop].
    intros k t0 x t0' Hb. unfold readFuncTable_body in Hb.
    apply bind_Done in Hb as (e & ? & [_ ->]%deref_Done & Hb).
    apply bind_Done in Hb as (res & ? & [_ ->]%the_result_Done & Hb).
    unfold vector_at in Hb.
    apply bind_Done in Hb as (str & ? & [_ ->]%deref_Done & Hb).
    apply bind_Done in Hb as (name & ? & ->%pool_c_str_Done & Hb).
    apply bind_Done in Hb as (u & t2 & Hm & Hb). injection Hb as _ <-.
    eapply modify_result_buffers; [|exact Hm]. by intros [].
Qed.

(** A step of the open that reads a section has its bytes, whatever
    the position the handle had. *)
Lemma loads_from s s' i NAME_offset NAME_size e hb f :
  loads i NAME_offset NAME_size s s' → step_ok e s s' →
  mpHeader s = Some hb → (∃ g, mFile s = Some g ∧ contents g = contents f) →
  buffers s'
  = <[i := Some (section_bytes f (NAME_offset (as_Header hb))
                   (NAME_size (as_Header hb)))]> (buffers s)
  ∧ mpHeader s' = Some hb
  ∧ ∃ g, mFile s' = Some g ∧ contents g = contents f.
Proof.
  intros (hb' & g' & Hh' & Hg' & Hbuf)
         (hb2 & g2 & g3 & Hh2 & Hh3 & Hg2 & Hg3 & _ & Hc & _)
         Hh (g & Hg & Hcg).
  assert (hb' = hb) as -> by congruence.
  assert (hb2 = hb) as -> by congruence.
  assert (g' = g) as -> by congruence.
  assert (g2 = g) as -> by congruence.
  split; [|split; [done|]].
  - rewrite Hbuf. by rewrite (section_bytes_contents f g) by done.
  - exists g3. split; [done|congruence].
Qed.

(** X15. What a successful open hands over.  The artifact holds the
    bytes of the file's string pool, export variable list and export
    function list sections, as the header at the start of the file
    locates them, and the context block at the header's context
    offset; the reader keeps the header, the dependency table, the
    pragma list and the function table, and no longer holds the
    artifact, which now belongs to the caller. *)
Theorem readCacheFile_artifact file s art s' :
  readCacheFile file s = Done (Some art, s') →
  ∃ f, mFile s = Some f ∧
    let h := file_header f in
    mpStringPoolRaw art
    = Some (section_bytes f (str_pool_offset h) (str_pool_size h))
    ∧ mpExportVars art
      = Some (section_bytes f (export_var_list_offset h)
                (export_var_list_size h))
    ∧ mpExportFuncs art
      = Some (section_bytes f (export_func_list_offset h)
                (export_func_list_size h))
    ∧ mContext art = Some (context_block f (context_offset h))
    ∧ mpResult s' = None
    ∧ mpHeader s' = Some (take (Z.to_nat sizeof_OBCC_Header) (contents f))
    ∧ mpCachedDependTable s'
      = Some (section_bytes f (depend_tab_offset h) (depend_tab_size h))
    ∧ mpPragmaList s'
      = Some (section_bytes f (pragma_list_offset h) (pragma_list_size h))
    ∧ mpFuncTable s'
      = Some (section_bytes f (func_table_offset h) (func_table_size h)).
Proof.
  intros H. apply readCacheFile_Some in H as (s15 & Hpass & Hart & ->).
  unfold checks in Hpass.
  apply all_pass_inv_cons in Hpass as (s1 & H1 & Hpass).
  apply all_pass_inv_cons in Hpass as (s2 & H2 & Hpass).
  apply all_pass_inv_cons in Hpass as (s3 & H3 & Hpass).
  apply all_pass_inv_cons in Hpass as (s4 & H4 & Hpass).
  apply all_pass_inv_cons in Hpass as (s5 & H5 & Hpass).
  apply all_pass_inv_cons in Hpass as (s6 & H6 & Hpass).
  apply all_pass_inv_cons in Hpass as (s7 & H7 & Hpass).
  apply all_pass_inv_cons in Hpass as (s8 & H8 & Hpass).
  apply all_pass_inv_cons in Hpass as (s9 & H9 & Hpass).
  apply all_pass_inv_cons in Hpass as (s10 & H10 & Hpass).
  apply all_pass_inv_cons in Hpass as (s11 & H11 & Hpass).
  apply all_pass_inv_cons in Hpass as (s12 & H12 & Hpass).
  apply all_pass_inv_cons in Hpass as (s13 & H13 & Hpass).
  apply all_pass_inv_cons in Hpass as (s14 & H14 & Hpass).
  apply all_pass_inv_cons in Hpass as (s15' & H15 & Hpass).
  apply all_pass_inv_nil in Hpass as ->.
  assert (∃ f, mFile s = Some f) as [f Hf].
  { unfold checkFileSize in H1.
    apply bind_Done in H1 as (f & ? & [Hf _]%the_file_Done & _).
    exists f. by destruct s. }
  exists f. split; [done|]. cbv zeta. unfold file_header.
  set (hb := take (Z.to_nat sizeof_OBCC_Header) (contents f)).
  (* size and header *)
  rewrite (checkFileSize_eval _ f) in H1 by (by destruct s).
  destruct (getFD f <? 0) eqn:Hfd; [done|]. cbv zeta in H1.
  destruct ((_ <? sizeof_OBCC_Header) || _)%bool; [done|].
  injection H1 as <-.
  rewrite (readHeader_eval _ f) in H2 by (by destruct s).
  rewrite Hfd in H2. cbv zeta in H2.
  destruct (negb (default true _)); [done|].
  destruct (negb (_ =? sizeof_OBCC_Header)); [done|].
  injection H2 as <-. fold hb in H3.
  apply checkHeader_true in H3 as [-> _].
  apply checkMachineIntType_true in H4 as ->.
  apply checkSectionOffsetAndSize_true in H5 as [-> _].
  (* the sections *)
  match type of H6 with readStringPool ?t = _ => set (s5 := t) in * end.
  assert (mpHeader s5 = Some hb) as Hh5 by done.
  assert (∃ g, mFile s5 = Some g ∧ contents g = contents f) as Hg5
    by (by eexists).
  assert (buffers s5
          = [Some hb; None; mpCachedDependTable s; None; None;
             mpPragmaList s; mpFuncTable s; None]) as Hb5
    by (by destruct s).
  clearbody s5.
  destruct (loads_from _ _ _ _ _ _ hb f (readStringPool_loads_buffer _ _ H6)
              (readStringPool_step _ _ H6) Hh5 Hg5) as (Hb6 & Hh6 & Hg6).
  apply checkStringPool_true in H7 as ->.
  destruct (loads_from _ _ _ _ _ _ hb f (readDependencyTable_loads_buffer _ _ H8)
              (readDependencyTable_step _ _ H8) Hh6 Hg6) as (Hb8 & Hh8 & Hg8).
  apply checkDependency_true in H9 as ->.
  destruct (loads_from _ _ _ _ _ _ hb f (readExportVarList_loads_buffer _ _ H10)
              (readExportVarList_step _ _ H10) Hh8 Hg8)
    as (Hb10 & Hh10 & Hg10).
  destruct (loads_from _ _ _ _ _ _ hb f
              (readExportFuncList_loads_buffer _ _ H11)
              (readExportFuncList_step _ _ H11) Hh10 Hg10)
    as (Hb11 & Hh11 & Hg11).
  destruct (loads_from _ _ _ _ _ _ hb f (readPragmaList_loads_buffer _ _ H12)
              (readPragmaList_step _ _ H12) Hh11 Hg11)
    as (Hb12 & Hh12 & Hg12).
  destruct (loads_from _ _ _ _ _ _ hb f (readFuncTable_loads_buffer _ _ H13)
              (readFuncTable_step _ _ H13) Hh12 Hg12)
    as (Hb13 & Hh13 & (g13 & Hg13 & Hc13)).
  (* the context *)
  apply readContext_true in H14
    as (hb' & f14 & res & Hh14 & Hf14 & Hres13 & _ & ->).
  assert (hb' = hb) as -> by congruence.
  assert (f14 = g13) as -> by congruence.
  apply checkContext_true in H15 as ->.
  cbn in Hart. injection Hart as <-.
  rewrite Hb12, Hb11, Hb10, Hb8, Hb6, Hb5 in Hb13. cbn in Hb13.
  unfold buffers in Hb13. rewrite Hres13 in Hb13. cbn in Hb13.
  injection Hb13 as _ E1 E2 E3 E4 E5 E6 _.
  unfold context_block. rewrite Hc13.
  destruct s13; cbn in *. by destruct res; cbn in *; subst.
Qed.

End Artifact.

(** * Properties of the driver *)

Section DriverRuns.
Import Driver.
#[local] Open Scope driver_scope.
Context `{T : Toolchain}.

Lemma and_next_Done {A B} (m : D A) (k : A → D B) w b w' :
  and_next m k w = Done (b, w') ↔
  ∃ a w1, m w = Done (a, w1) ∧ k a w1 = Done (b, w').
Proof.
  unfold and_next. split.
  - destruct (m w) as [[a w1]|]; [|done]. eauto.
  - by intros (a & w1 & -> & ?).
Qed.

Lemma loaded_app a b : loaded (a ++ b) = loaded a ++ loaded b.
Proof. apply omap_app. Qed.

Lemma builds_app a b : builds (a ++ b) = builds a ++ builds b.
Proof. apply omap_app. Qed.

Lemma messages_app a b : messages (a ++ b) = messages a ++ messages b.
Proof. apply omap_app. Qed.

Lemma new_nothrow_eval a w :
  new_nothrow a w
  = Done (default true (head (nothrow w)),
          {| nothrow := tail (nothrow w); trace := trace w ++ [a] |}).
Proof. destruct w as [[|ok hp] tr]; done. Qed.

(** *** [PrepareRSScript] *)

Lemma PrepareRSScript_from_script files script w result :
  (∃ w', PrepareRSScript_from files (Some script) w = Done (Some result, w'))
  ↔ ∃ sources, load_all files = Some sources
               ∧ merged script sources = Some result.
Proof.
  revert script w. induction files as [|path files IH]; intros script w.
  - cbn. split.
    + intros [w' [= ->]]. by exists [].
    + intros (sources & [= <-] & [= ->]). by eexists.
  - cbn [PrepareRSScript_from load_all].
    unfold and_next at 1. cbn [act].
    destruct (CreateFromFile path) as [source|].
    2: { split; [by intros [? [=]]|by intros (? & [=] & _)]. }
    unfold and_next at 1. cbn [act].
    destruct (mergeSource script source) as [[] script'] eqn:E;
      cbn [fst snd negb].
    + rewrite IH. split.
      * intros (sources & -> & Hm). exists (source :: sources).
        split; [done|]. cbn. by rewrite E.
      * intros (sources & Hs & Hm).
        destruct (load_all files) as [srcs|]; [|done].
        injection Hs as <-. cbn in Hm. rewrite E in Hm. by exists srcs.
    + split; [by intros [? [=]]|].
      intros (sources & Hs & Hm).
      destruct (load_all files) as [srcs|]; [|done].
      injection Hs as <-. cbn in Hm. by rewrite E in Hm.
Qed.

Lemma PrepareRSScript_from_loaded files given w r w' :
  PrepareRSScript_from files given w = Done (Some r, w') →
  loaded (trace w') = loaded (trace w) ++ files.
Proof.
  revert given w. induction files as [|path files IH]; intros given w H.
  - cbn in H. injection H as _ <-. by rewrite app_nil_r.
  - cbn [PrepareRSScript_from] in H. unfold and_next at 1 in H. cbn [act] in H.
    destruct (CreateFromFile path) as [source|]; [|done].
    destruct given as [script|].
    + unfold and_next at 1 in H. cbn [act] in H.
      destruct (negb (mergeSource script source).1); [done|].
      apply IH in H. rewrite H. cbn [trace].
      rewrite !loaded_app. cbn. by rewrite ?app_nil_r, <- ?app_assoc.
    + apply and_next_Done in H as (ok & w1 & Ha & H).
      rewrite new_nothrow_eval in Ha. injection Ha as <- <-.
      destruct (negb _); [done|].
      apply IH in H. rewrite H. cbn [trace].
      rewrite !loaded_app. cbn. by rewrite ?app_nil_r, <- ?app_assoc.
Qed.

Lemma PrepareRSScript_Some files w script :
  (∃ w', PrepareRSScript files w = Done (Some script, w')) ↔
  script_of files = Some script ∧ head (nothrow w) ≠ Some false.
Proof.
  unfold PrepareRSScript, script_of. destruct files as [|path files].
  { cbn. split; [by intros [? [=]]|by intros [[=] _]]. }
  cbn [PrepareRSScript_from load_all].
  unfold and_next at 1. cbn [act].
  destruct (CreateFromFile path) as [source|].
  2: { split; [by intros [? [=]]|by intros [[=] _]]. }
  unfold and_next at 1. rewrite new_nothrow_eval. cbn [nothrow trace].
  destruct (head (nothrow w)) as [[]|] eqn:Hh; cbn.
  - rewrite PrepareRSScript_from_script. split.
    + intros (sources & -> & Hm). by split.
    + intros [Hs _].
      destruct (load_all files) as [srcs|]; [|done]. by exists srcs.
  - split; [by intros [? [=]]|]. by intros [_ []].
  - rewrite PrepareRSScript_from_script. split.
    + intros (sources & -> & Hm). by split.
    + intros [Hs _].
      destruct (load_all files) as [srcs|]; [|done]. by exists srcs.
Qed.

(** X16. [PrepareRSScript] returns a script exactly when every input
    file loads, the script of the first one can be allocated, and each
    of the others merges into it; the script is then the first file's
    with the others merged in the order of the command line, and every
    input has been loaded once, in that order.  With no input it
    returns null. *)
Theorem PrepareRSScript_script files w script :
  ((∃ w', PrepareRSScript files w = Done (Some script, w')) ↔
   script_of files = Some script ∧ head (nothrow w) ≠ Some false)
  ∧ (∀ w', PrepareRSScript files w = Done (Some script, w') →
       loaded (trace w') = loaded (trace w) ++ files)
  ∧ PrepareRSScript [] w = Done (None, w).
Proof.
  split; [apply PrepareRSScript_Some|].
  split; [|done].
  intros w' H. unfold PrepareRSScript in H.
  by apply PrepareRSScript_from_loaded in H.
Qed.

Ltac traces :=
  cbn [trace nothrow];
  rewrite ?loaded_app, ?messages_app, ?builds_app; cbn;
  rewrite ?app_nil_r, <- ?app_assoc.

(** The loop on a script in the making: it gives the script, silently,
    or stops at the first file that does not load or does not merge
    into the script that the files before it have made. *)
Lemma PrepareRSScript_from_stops files script0 w :
  ∃ r w',
    PrepareRSScript_from files (Some script0) w = Done (r, w')
    ∧ ((is_Some r ∧ messages (trace w') = messages (trace w))
       ∨ (r = None
          ∧ ∃ n path sources script,
              files !! n = Some path
              ∧ loaded (trace w') = loaded (trace w) ++ take (S n) files
              ∧ load_all (take n files) = Some sources
              ∧ merged script0 sources = Some script
              ∧ ((CreateFromFile path = None
                  ∧ messages (trace w')
                    = messages (trace w)
                      ++ ["Failed to load llvm module from file `" +:+ path
                          +:+ "'!" +:+ newline])
                 ∨ (∃ source,
                      CreateFromFile path = Some source
                      ∧ (mergeSource script source).1 = false
                      ∧ messages (trace w')
                        = messages (trace w)
                          ++ ["Failed to merge the llvm module `" +:+ path
                              +:+ "' to compile!" +:+ newline])))).
Proof.
  revert script0 w. induction files as [|path files IH]; intros script0 w.
  { eexists _, _. split; [done|]. left. by split; [eexists|]. }
  cbn [PrepareRSScript_from]. unfold and_next at 1. cbn [act].
  destruct (CreateFromFile path) as [source|] eqn:Hc; last first.
  { eexists _, _. split; [done|]. right. split; [done|].
    exists 0%nat, path, [], script0. split; [done|]. traces.
    split; [done|]. split; [done|]. split; [done|]. left. by split. }
  unfold and_next at 1. cbn [act].
  destruct (mergeSource script0 source) as [[] script'] eqn:E;
    cbn [fst snd negb]; last first.
  { eexists _, _. split; [done|]. right. split; [done|].
    exists 0%nat, path, [], script0. split; [done|]. traces.
    split; [done|]. split; [done|]. split; [done|]. right.
    exists source. rewrite E. by split. }
  match goal with
  | |- ∃ r w', PrepareRSScript_from _ _ ?w1 = _ ∧ _ =>
      destruct (IH script' w1) as (r & w' & Hrun & Hcase)
  end.
  exists r, w'. split; [exact Hrun|].
  destruct Hcase as [[Hr Hme]|(-> & n & p & sources & script & Hp & Hlo & Hso
                               & Hmerged & Hcause)].
  - left. split; [exact Hr|]. rewrite Hme. by traces.
  - right. split; [done|]. exists (S n), p, (source :: sources), script.
    split; [done|]. split.
    { rewrite Hlo. traces. done. }
    split; [cbn [take load_all]; by rewrite Hc, Hso|].
    split; [cbn [merged]; by rewrite E|].
    destruct Hcause as [[Hnone Hme]|(source' & Hsome & Hrefused & Hme)].
    + left. split; [exact Hnone|]. rewrite Hme. by traces.
    + right. exists source'. split; [exact Hsome|]. split; [exact Hrefused|].
      rewrite Hme. by traces.
Qed.

(** X17. [PrepareRSScript] always returns, and stops at the first
    input that fails.  When it returns null for a command line with
    inputs, there is one input such that the files up to it have been
    loaded, in order, and none behind it; the files before it all
    loaded and made a script, the first one's with the others merged
    in; and that input is the one that failed: it did not load, or it
    is the first one and its script could not be allocated, or it did
    not merge into the script of the files before it.  One message has
    been printed, which tells which of the three and names the file.
    When it returns a script it has printed nothing. *)
Theorem PrepareRSScript_stops_at_failure files w :
  ∃ r w',
    PrepareRSScript files w = Done (r, w')
    ∧ (is_Some r → messages (trace w') = messages (trace w))
    ∧ (r = None → files ≠ [] →
       ∃ n path message,
         files !! n = Some path
         ∧ loaded (trace w') = loaded (trace w) ++ take (S n) files
         ∧ messages (trace w') = messages (trace w) ++ [message]
         ∧ (n = 0%nat
            ∨ is_Some (script_of (take n files))
              ∧ head (nothrow w) ≠ Some false)
         ∧ ((CreateFromFile path = None
             ∧ message
               = "Failed to load llvm module from file `" +:+ path
                 +:+ "'!" +:+ newline)
            ∨ (is_Some (CreateFromFile path)
               ∧ n = 0%nat
               ∧ head (nothrow w) = Some false
               ∧ message
                 = "Out of memory when create script for file `" +:+ path
                   +:+ "'!" +:+ newline)
            ∨ (∃ source script,
                 CreateFromFile path = Some source
                 ∧ script_of (take n files) = Some script
                 ∧ head (nothrow w) ≠ Some false
                 ∧ (mergeSource script source).1 = false
                 ∧ message
                   = "Failed to merge the llvm module `" +:+ path
                     +:+ "' to compile!" +:+ newline))).
Proof.
  unfold PrepareRSScript. destruct files as [|path files].
  { exists None, w. split; [done|]. split; [by intros [? [=]]|done]. }
  cbn [PrepareRSScript_from]. unfold and_next at 1. cbn [act].
  destruct (CreateFromFile path) as [source|] eqn:Hc; last first.
  { eexists _, _. split; [done|]. split; [by intros [? [=]]|]. intros _ _.
    eexists 0%nat, path, _. split; [done|]. traces.
    split; [done|]. split; [done|]. split; [by left|]. left. by split. }
  unfold and_next at 1. rewrite new_nothrow_eval. cbn [nothrow trace].
  destruct (decide (head (nothrow w) = Some false)) as [Hoom|Halloc].
  { rewrite Hoom. cbn [default negb].
    eexists _, _. split; [done|]. split; [by intros [? [=]]|]. intros _ _.
    eexists 0%nat, path, _. split; [done|]. traces.
    split; [done|]. split; [done|]. split; [by left|]. right. left.
    by split; [eexists|]. }
  assert (negb (default true (head (nothrow w))) = false) as ->.
  { by destruct (head (nothrow w)) as [[]|]. }
  match goal with
  | |- ∃ r w', PrepareRSScript_from _ _ ?w1 = _ ∧ _ =>
      destruct (PrepareRSScript_from_stops files (new_RSScript source) w1)
        as (r & w' & Hrun & Hcase)
  end.
  exists r, w'. split; [exact Hrun|].
  destruct Hcase as [[Hr Hme]|(-> & n & p & sources & script & Hp & Hlo & Hso
                               & Hmerged & Hcause)].
  { split; [intros _; rewrite Hme; by traces|].
    intros ->. by destruct Hr. }
  split; [by intros [? [=]]|]. intros _ _.
  assert (script_of (take (S n) (path :: files)) = Some script) as Hscript.
  { unfold script_of. cbn [take load_all]. by rewrite Hc, Hso. }
  destruct Hcause as [[Hnone Hme]|(source' & Hsome & Hrefused & Hme)].
  - eexists (S n), p, _. split; [done|]. split.
    { rewrite Hlo. traces. done. }
    split; [rewrite Hme; by traces|].
    split; [right; by rewrite Hscript|]. left. by split.
  - eexists (S n), p, _. split; [done|]. split.
    { rewrite Hlo. traces. done. }
    split; [rewrite Hme; by traces|].
    split; [right; by rewrite Hscript|]. right. right.
    by exists source', script.
Qed.

(** *** [main] *)

Lemma ConfigCompiler_eval o w :
  ConfigCompiler o w
  = if negb (default true (head (nothrow w)))
    then Done (false,
               {| nothrow := tail (nothrow w);
                  trace := trace w ++
                    [New_CompilerConfig;
                     Errs ("Out of memory when create the compiler "
                           +:+ "configuration!" +:+ newline)] |})
    else
      if negb (kSuccess (Compiler_config (configuration o)))
      then Done (false,
                 {| nothrow := tail (nothrow w);
                    trace := trace w ++
                      [New_CompilerConfig; SetConfig (configuration o);
                       Errs ("Failed to configure the compiler! (detail: "
                             +:+ GetErrorString
                                   (Compiler_config (configuration o))
                             +:+ ")" +:+ newline)] |})
      else Done (true,
                 {| nothrow := tail (nothrow w);
                    trace := trace w ++
                      [New_CompilerConfig; SetConfig (configuration o)] |}).
Proof.
  unfold ConfigCompiler. unfold and_next at 1. rewrite new_nothrow_eval.
  destruct (negb (default true (head (nothrow w)))).
  { cbn. by rewrite <- app_assoc. }
  assert ((let config :=
             if TARGET_BUILD then new_DefaultCompilerConfig
             else new_CompilerConfig (OptTargetTriple o) in
           let config :=
             if OptPIC o then setRelocationModel Reloc.PIC_ config
             else config in
           match OptOptLevel o with
           | "0"%char => setOptimizationLevel CodeGenOpt.None config
           | "1"%char => setOptimizationLevel CodeGenOpt.Less config
           | "3"%char => setOptimizationLevel CodeGenOpt.Aggressive config
           | _ => setOptimizationLevel CodeGenOpt.Default config
           end) = configuration o) as E.
  { unfold configuration.
    by destruct (OptOptLevel o) as [[] [] [] [] [] [] [] []]. }
  cbv zeta in E |- *. rewrite E.
  unfold and_next, act, errs, act, pure. cbn.
  destruct (negb (kSuccess (Compiler_config (configuration o))));
    cbn; by rewrite <- ?app_assoc.
Qed.

(** [ConfigCompiler] and [DetermineOutputFilename] load and build
    nothing. *)
Lemma ConfigCompiler_quiet o w b w' :
  ConfigCompiler o w = Done (b, w') →
  loaded (trace w') = loaded (trace w) ∧ builds (trace w') = builds (trace w).
Proof.
  rewrite ConfigCompiler_eval.
  destruct (negb (default true (head (nothrow w))));
    [|destruct (negb (kSuccess (Compiler_config (configuration o))))];
    intros [= _ <-]; by traces.
Qed.

Lemma DetermineOutputFilename_quiet o p w name w' :
  DetermineOutputFilename o p w = Done (name, w') →
  loaded (trace w') = loaded (trace w) ∧ builds (trace w') = builds (trace w).
Proof.
  unfold DetermineOutputFilename.
  destruct (negb (empty p)); [by intros [= _ <-]|].
  destruct (1 <? List.length (OptInputFilenames o))%nat.
  { intros [= _ <-]. by traces. }
  intros H. apply and_next_Done in H as (input & w1 & Hin & H).
  destruct (OptInputFilenames o !! 0%nat) as [p0|]; [|done].
  injection Hin as <- <-.
  destruct (make_absolute p0); injection H as _ <-; by traces.
Qed.

Lemma DetermineOutputFilename_named o w output :
  named_output o = Some output →
  DetermineOutputFilename o (OptOutputFilename o) w
  = Done (output,
          {| nothrow := nothrow w;
             trace := trace w ++
               (if empty (OptOutputFilename o)
                then [Errs ("Use " +:+ DEFAULT_OUTPUT_PATH
                            +:+ " for output file!" +:+ newline)]
                else []) |}).
Proof.
  unfold named_output, DetermineOutputFilename.
  destruct (empty (OptOutputFilename o)); cbn [negb].
  - destruct (1 <? List.length (OptInputFilenames o))%nat; [|done].
    by intros [= <-].
  - intros [= <-]. rewrite app_nil_r. by destruct w.
Qed.

Lemma named_output_not_empty o output :
  named_output o = Some output → empty output = false.
Proof.
  unfold named_output.
  destruct (empty (OptOutputFilename o)) eqn:E; cbn [negb].
  - destruct (1 <? _)%nat; [|done]. by intros [= <-].
  - by intros [= <-].
Qed.

Lemma PrepareRSScript_from_builds files given w r w' :
  PrepareRSScript_from files given w = Done (r, w') →
  builds (trace w') = builds (trace w).
Proof.
  revert given w. induction files as [|path files IH]; intros given w H.
  - by injection H as _ <-.
  - cbn [PrepareRSScript_from] in H. unfold and_next at 1 in H.
    cbn [act] in H.
    destruct (CreateFromFile path) as [source|];
      [|injection H as _ <-; by traces].
    destruct given as [s0|].
    + unfold and_next at 1 in H. cbn [act] in H.
      destruct (negb (mergeSource s0 source).1);
        [injection H as _ <-; by traces|].
      apply IH in H. rewrite H. by traces.
    + apply and_next_Done in H as (ok & w1 & Ha & H).
      rewrite new_nothrow_eval in Ha. injection Ha as <- <-.
      destruct (negb _); [injection H as _ <-; by traces|].
      apply IH in H. rewrite H. by traces.
Qed.

(** X18. The exit code of [main] tells little.  It returns
    [EXIT_FAILURE] only before any input file is loaded; it returns
    [EXIT_SUCCESS] only once every input is loaded and the script they
    make has been handed to one build, and it does so whatever the
    verdict of that build is. *)
Theorem main_exit_code o w code w' :
  main o w = Done (code, w') →
  match code with
  | EXIT_FAILURE =>
      loaded (trace w') = loaded (trace w)
      ∧ builds (trace w') = builds (trace w)
  | EXIT_SUCCESS =>
      ∃ script output,
        script_of (OptInputFilenames o) = Some script
        ∧ loaded (trace w') = loaded (trace w) ++ OptInputFilenames o
        ∧ builds (trace w')
          = builds (trace w)
            ++ [Build script output (c_str_of (OptRuntimePath o))
                  (build script output (c_str_of (OptRuntimePath o)))]
  end.
Proof.
  unfold main. unfold and_next at 1. cbn [act].
  destruct (empty (OptRuntimePath o)).
  { intros [= <- <-]. by traces. }
  intros H. apply and_next_Done in H as (ok & w1 & Hc & H).
  apply ConfigCompiler_quiet in Hc as [Hl1 Hb1].
  cbn [trace] in Hl1, Hb1. rewrite loaded_app in Hl1.
  rewrite builds_app in Hb1. cbn in Hl1, Hb1. rewrite app_nil_r in Hl1, Hb1.
  destruct ok; cbn [negb] in H; [|by injection H as <- <-].
  apply and_next_Done in H as (name & w2 & Hd & H).
  apply DetermineOutputFilename_quiet in Hd as [Hl2 Hb2].
  destruct (empty name); [injection H as <- <-; split; congruence|].
  apply and_next_Done in H as (r & w3 & Hp & H).
  destruct r as [script|]; [|done].
  pose proof (PrepareRSScript_Some (OptInputFilenames o) w2 script)
    as [Hs _].
  specialize (Hs (ex_intro _ w3 Hp)). destruct Hs as [Hs _].
  apply PrepareRSScript_from_loaded in Hp as Hl3.
  apply PrepareRSScript_from_builds in Hp as Hb3.
  cbn in H. injection H as <- <-. exists script, (c_str_of name).
  split; [done|]. traces. split; congruence.
Qed.

(** X19. Once the options are accepted, the outcome of [main] is that
    of the inputs, not of the build: if they make a script, [main]
    builds it into the output file and returns [EXIT_SUCCESS]; if they
    do not, because a file does not load, a merge is refused or memory
    is short, [main] goes on with the null pointer [PrepareRSScript]
    returned and dereferences it. *)
Theorem main_accepted o w output :
  accepted o w output →
  (∀ script,
     script_of (OptInputFilenames o) = Some script →
     head (tail (nothrow w)) ≠ Some false →
     ∃ w', main o w = Done (EXIT_SUCCESS, w')
           ∧ builds (trace w')
             = builds (trace w)
               ++ [Build script (c_str_of output) (c_str_of (OptRuntimePath o))
                     (build script (c_str_of output)
                        (c_str_of (OptRuntimePath o)))])
  ∧ (script_of (OptInputFilenames o) = None
     ∨ head (tail (nothrow w)) = Some false →
     main o w = Undefined).
Proof.
  intros (Hrt & Hmem & Hcfg & Hout).
  assert (∃ w2, nothrow w2 = tail (nothrow w)
                ∧ builds (trace w2) = builds (trace w)
                ∧ main o w
                  = (s <- PrepareRSScript (OptInputFilenames o) ;;
                     script <- star s ;;
                     act (Build script (c_str_of output)
                            (c_str_of (OptRuntimePath o))
                            (build script (c_str_of output)
                               (c_str_of (OptRuntimePath o)))) ;;;
                     pure EXIT_SUCCESS) w2) as (w2 & Hn2 & Hb2 & ->).
  { unfold main. unfold and_next at 1. cbn [act]. rewrite Hrt.
    unfold and_next at 1. rewrite ConfigCompiler_eval. cbn [nothrow trace].
    replace (negb (default true (head (nothrow w)))) with false
      by (destruct (head (nothrow w)) as [[]|]; done).
    rewrite Hcfg. cbn [negb].
    unfold and_next at 1.
    rewrite (DetermineOutputFilename_named o _ output Hout).
    rewrite (named_output_not_empty o output Hout).
    eexists. split; [|split; [|reflexivity]]; [done|].
    destruct (empty (OptOutputFilename o)); by traces. }
  split.
  - intros script Hs Hmem2.
    destruct (proj2 (PrepareRSScript_Some (OptInputFilenames o) w2 script))
      as [w3 Hp].
    { split; [done|]. by rewrite Hn2. }
    apply PrepareRSScript_from_builds in Hp as Hb3.
    unfold and_next at 1. rewrite Hp. cbn.
    eexists. split; [reflexivity|]. traces. congruence.
  - intros Hno. unfold and_next at 1.
    destruct (PrepareRSScript (OptInputFilenames o) w2) as [[[script|] w3]|]
      eqn:Hp; [|done..].
    destruct (proj1 (PrepareRSScript_Some (OptInputFilenames o) w2 script)
                (ex_intro _ w3 Hp)) as [Hs Hm].
    rewrite Hn2 in Hm. destruct Hno as [Hno|Hno]; congruence.
Qed.

(** X20. [main] turns the command line down, with [EXIT_FAILURE] and
    one message, when no runtime path is given, when the compiler
    configuration cannot be allocated, when the compiler refuses the
    configuration, and when, these three having passed, no output file
    is named and the absolute path of the single input cannot be
    determined.  The runtime path is looked at first: without it
    nothing else is done. *)
Theorem main_rejects o w :
  empty (OptRuntimePath o) = true
  ∨ head (nothrow w) = Some false
  ∨ kSuccess (Compiler_config (configuration o)) = false
  ∨ output_unknown o →
  ∃ w' message,
    main o w = Done (EXIT_FAILURE, w')
    ∧ messages (trace w') = messages (trace w) ++ [message]
    ∧ (empty (OptRuntimePath o) = true →
       trace w' = trace w ++ [Initialize; Stderr message]).
Proof.
  intros Hcase. unfold main. unfold and_next at 1. cbn [act].
  destruct (empty (OptRuntimePath o)) eqn:Hrt.
  { eexists _, _. split; [reflexivity|]. traces. split; [done|].
    intros _. done. }
  destruct Hcase as [[=]|Hcase].
  unfold and_next at 1. rewrite ConfigCompiler_eval. cbn [nothrow trace].
  destruct (negb (default true (head (nothrow w)))) eqn:Hh.
  { eexists _, _. split; [reflexivity|]. by traces. }
  destruct Hcase as [Hmem|Hcase].
  { rewrite Hmem in Hh. done. }
  destruct (kSuccess (Compiler_config (configuration o))) eqn:Hcfg;
    cbn [negb]; last first.
  { eexists _, _. split; [reflexivity|]. by traces. }
  destruct Hcase as [[=]|(Hout & input & message & Hin & Habs)].
  unfold and_next at 1. unfold DetermineOutputFilename.
  rewrite Hout, Hin. cbn. rewrite Habs.
  eexists _, _. split; [reflexivity|]. by traces.
Qed.

(** X22. The optimisation level is not validated: for [ConfigCompiler]
    every character given to [-O] other than [0], [1] and [3] is [-O2];
    and in a target build the target triple is not looked at. *)
Theorem ConfigCompiler_levels o level triple w :
  (level ≠ "0"%char → level ≠ "1"%char → level ≠ "3"%char →
   ConfigCompiler (with_OptOptLevel level o) w
   = ConfigCompiler (with_OptOptLevel "2" o) w)
  ∧ (TARGET_BUILD = true →
     ConfigCompiler (with_OptTargetTriple triple o) w = ConfigCompiler o w).
Proof.
  split.
  - intros H0 H1 H3. rewrite !ConfigCompiler_eval.
    assert (configuration (with_OptOptLevel level o)
            = configuration (with_OptOptLevel "2" o)) as ->; [|done].
    unfold configuration, with_OptOptLevel.
    cbn [OptOptLevel OptPIC OptTargetTriple].
    by destruct level as [[] [] [] [] [] [] [] []].
  - intros Htb. rewrite !ConfigCompiler_eval.
    assert (configuration (with_OptTargetTriple triple o) = configuration o)
      as ->; [|done].
    unfold configuration, with_OptTargetTriple.
    cbn [OptOptLevel OptPIC OptTargetTriple]. by rewrite Htb.
Qed.

(** X21. Two options change nothing and one changes little: [main]
    does the same whatever [-shared] and [-or] are, and, when the
    output file is named or there are several inputs, whatever [-c]
    is. *)
Theorem main_ignores_options o shared object c w :
  main (with_linking shared object o) w = main o w
  ∧ (empty (OptOutputFilename o) = false
     ∨ (1 < List.length (OptInputFilenames o))%nat →
     main (with_OptC c o) w = main o w).
Proof.
  split; [done|]. intros Hnamed.
  assert (∀ w1, DetermineOutputFilename (with_OptC c o)
                  (OptOutputFilename o) w1
                = DetermineOutputFilename o (OptOutputFilename o) w1) as E.
  { intros w1. unfold DetermineOutputFilename, with_OptC.
    cbn [OptOutputFilename OptInputFilenames OptC].
    destruct (empty (OptOutputFilename o)) eqn:He; cbn [negb]; [|done].
    destruct Hnamed as [[=]|Hn%Nat.ltb_lt]. by rewrite Hn. }
  unfold main, and_next.
  change (ConfigCompiler (with_OptC c o)) with (ConfigCompiler o).
  change (OptRuntimePath (with_OptC c o)) with (OptRuntimePath o).
  change (OptOutputFilename (with_OptC c o)) with (OptOutputFilename o).
  change (OptInputFilenames (with_OptC c o)) with (OptInputFilenames o).
  cbn [act].
  destruct (empty (OptRuntimePath o)); [done|].
  destruct (ConfigCompiler o _) as [[[] w1]|]; [|done..]. cbn [negb].
  by rewrite E.
Qed.

End DriverRuns.

(** * The properties on the host [ILP32] *)

Section Examples.
Import ILP32 Cases.

(** The scenario of the spec: the cache opens, and [main] is found at
    [0x1000] with size 64. *)
Example scenario_opens :
  ∃ art s',
    readCacheFile (Some scenario_file) scenario_reader = Done (Some art, s')
    ∧ mFunctions art !! "main"%string = Some (0x1000, 64)
    ∧ mPragmas art = [].
Proof. eexists _, _. split; [vm_compute; reflexivity|]. by vm_compute. Qed.

Lemma readCacheFile_null_handle_witness :
  readCacheFile None scenario_reader = Done (None, scenario_reader).
Proof. apply (readCacheFile_null_handle None). left. reflexivity. Defined.



Lemma readCacheFile_iff_all_checks_witness :
  (∀ art s', readCacheFile (Some scenario_file) scenario_reader
             = Done (Some art, s') ↔
     ∃ s1, all_pass checks (allocated scenario_reader) s1
           ∧ mpResult s1 = Some art ∧ s' = set_mpResult None s1)
  ∧ (∀ s1, all_pass checks (allocated scenario_reader) s1 →
       ∃ art, readCacheFile (Some scenario_file) scenario_reader
              = Done (Some art, set_mpResult None s1))
  ∧ (∀ s', readCacheFile (Some scenario_file) scenario_reader
           = Done (None, s') ↔
       first_failure checks (allocated scenario_reader) s').
Proof.
  apply (readCacheFile_iff_all_checks (Some scenario_file) scenario_reader).
  - exists scenario_file. split; [reflexivity|]. vm_compute. discriminate.
  - vm_compute. discriminate.
Defined.

Lemma checkMachineIntType_mismatch_rejected_witness :
  ∃ s' evs,
    readCacheFile (Some big_endian_file) (reader big_endian_file expected)
    = Done (None, s')
    ∧ events s' = events (reader big_endian_file expected) ++ evs
    ∧ only_header_read evs.
Proof.
  apply (proj1 (proj2 checkMachineIntType_mismatch_rejected)
           (Some big_endian_file) (reader big_endian_file expected)
           big_endian_file).
  - reflexivity.
  - intros [H _]. vm_compute in H. discriminate.
Defined.

(** C7, at two inputs that break it.  On the 64-bit host, a header that
    records [2 ^ 32 + 8] as the width of [off_t], which is not the 8 of
    the host, is accepted: converted to [unsigned int], the width is 8.
    And on the 32-bit host, the cache with the tag of a big-endian
    host, handed to a reader that holds the cache of the scenario, does
    not make the open return null: the header that is checked is that
    of the file the reader holds, and the open returns its artifact. *)
Lemma checkMachineIntType_width_counterexample :
  h_sizeof_off_t (@as_Header LP64.host LP64.wide_header) = 2 ^ 32 + 8
  ∧ @sizeof_off_t LP64.host = 8
  ∧ @checkMachineIntType LP64.host LP64.wide_reader
    = Done (true, LP64.wide_reader)
  ∧ endianness (file_header big_endian_file) = "E"%char
  ∧ @native_endianness ILP32.host = "e"%char
  ∧ ∃ art s',
      readCacheFile (Some big_endian_file) scenario_reader
      = Done (Some art, s').
Proof.
  split; [vm_compute; reflexivity|]. split; [reflexivity|].
  split; [vm_compute; reflexivity|]. split; [vm_compute; reflexivity|].
  split; [reflexivity|]. eexists _, _. vm_compute. reflexivity.
Qed.

Lemma checkStringPool_terminators_witness :
  checkStringPool (after 6 scenario_file) = Done (true, after 6 scenario_file).
Proof.
  destruct (checkStringPool_terminators (after 6 scenario_file)
              (sec_str_pool scenario) scenario_strings) as [Hiff _].
  - exists (result_of (after 6 scenario_file)).
    split; [vm_compute; reflexivity|]. split; [vm_compute; reflexivity|].
    split; [|vm_compute; reflexivity]. split.
    + exists 2. split; vm_compute; reflexivity.
    + intros [|[|i]] e [= <-]; vm_compute; reflexivity.
  - apply Hiff.
    intros e [->|[->|[]%elem_of_nil]%elem_of_cons]%elem_of_cons;
      vm_compute; reflexivity.
Defined.

(** C6, at a pool that breaks it.  The cache of the scenario with the
    first string put at offset 100000 and the second cut one character
    short: the byte at position [offset + length] of the second entry
    is the [n] of [main], a byte of the blob that is not NUL, and yet
    [checkStringPool] does not fail, neither at that entry nor at
    another: it first reads, for the first entry, a byte far outside
    the blob.  So does the open. *)
Lemma checkStringPool_outside_blob_counterexample :
  pool_loaded (after 6 wild_pool_file) (sec_str_pool wild_pool)
    wild_pool_strings
  ∧ List.length (sec_str_pool wild_pool) = 32%nat
  ∧ terminator (sec_str_pool wild_pool) {| str_length := 3; str_offset := 27 |}
    = Some "n"%char
  ∧ terminator (sec_str_pool wild_pool)
      {| str_length := 6; str_offset := 100000 |} = None
  ∧ checkStringPool (after 6 wild_pool_file) = Undefined
  ∧ (¬ ∃ s', checkStringPool (after 6 wild_pool_file) = Done (false, s'))
  ∧ readCacheFile (Some wild_pool_file) (reader wild_pool_file expected)
    = Undefined.
Proof.
  assert (checkStringPool (after 6 wild_pool_file) = Undefined) as E
    by (vm_compute; reflexivity).
  split.
  { exists (result_of (after 6 wild_pool_file)).
    split; [vm_compute; reflexivity|]. split; [vm_compute; reflexivity|].
    split; [|vm_compute; reflexivity]. split.
    - exists 2. split; vm_compute; reflexivity.
    - intros [|[|i]] e [= <-]; vm_compute; reflexivity. }
  split; [vm_compute; reflexivity|]. split; [vm_compute; reflexivity|].
  split; [vm_compute; reflexivity|]. split; [exact E|].
  split; [rewrite E; by intros [? [=]]|]. vm_compute. reflexivity.
Qed.

Lemma checkDependency_iff_match_witness :
  checkDependency (after 8 scenario_file) = Done (true, after 8 scenario_file).
Proof.
  destruct (checkDependency_iff_match (after 8 scenario_file)) as [Hiff _].
  apply Hiff. split; [reflexivity|].
  exists (sec_depend_tab scenario), 1, (result_of (after 8 scenario_file)).
  split; [repeat split; vm_compute; reflexivity|].
  split; [vm_compute; reflexivity|].
  intros i dep Hi Hdep.
  destruct i as [|i]; [|vm_compute in Hi; lia].
  vm_compute in Hdep. injection Hdep as <-.
  eexists. split; [vm_compute; reflexivity|].
  split; [vm_compute; reflexivity|]. split; [|vm_compute; reflexivity].
  split; [vm_compute; lia|]. split; [vm_compute; lia|].
  vm_compute. reflexivity.
Defined.

Lemma checkContext_parity_witness :
  ((∃ s', checkContext (after 14 scenario_file) = Done (true, s')) ↔
   parity (context_parity_checksum
             (as_Header (header_of (after 14 scenario_file))))
     (zeros 16) = 0)
  ∧ ((∃ s', checkContext (after 14 scenario_file) = Done (false, s')) ↔
     parity (context_parity_checksum
               (as_Header (header_of (after 14 scenario_file))))
       (zeros 16) ≠ 0)
  ∧ ((∃ s', checkContext (after 14 scenario_file) = Done (true, s')) →
     ∀ k j, (k < List.length (zeros 16))%nat → (j < 8)%nat →
       ∃ s', checkContext
               (with_context (flip_context_bit k j (zeros 16))
                  (after 14 scenario_file))
             = Done (false, s')).
Proof.
  apply (checkContext_parity (after 14 scenario_file)
           (header_of (after 14 scenario_file))
           (result_of (after 14 scenario_file)) (zeros 16)).
  - vm_compute. reflexivity.
  - vm_compute. reflexivity.
  - vm_compute. reflexivity.
  - vm_compute. reflexivity.
  - vm_compute. reflexivity.
Defined.

Lemma readFuncTable_first_wins_witness :
  ∃ s' res' hb,
    readFuncTable (after 12 twice_main_file) = Done (true, s')
    ∧ mpResult s' = Some res'
    ∧ (∀ i rec name,
         first_occurrence twice_main_records name i rec →
         mFunctions (result_of (after 12 twice_main_file)) !! name = None →
         mFunctions res' !! name = Some (cached_addr rec, func_size rec))
    ∧ (∀ name, (∀ i rec, twice_main_records !! i ≠ Some (rec, name)) →
         mFunctions res' !! name
         = mFunctions (result_of (after 12 twice_main_file)) !! name)
    ∧ mpHeader (after 12 twice_main_file) = Some hb
    ∧ events s'
      = events (after 12 twice_main_file)
        ++ section_events (as_Header hb) func_table_offset func_table_size.
Proof.
  apply (readFuncTable_first_wins (after 12 twice_main_file)
           (result_of (after 12 twice_main_file))
           (sec_func_table twice_main) twice_main_records).
  - vm_compute. reflexivity.
  - exists (header_of (after 12 twice_main_file)),
      (set_position 172 twice_main_file).
    split; [vm_compute; reflexivity|]. split; [vm_compute; reflexivity|].
    split; [vm_compute; discriminate|]. split; [vm_compute; discriminate|].
    split; [vm_compute; discriminate|]. split; vm_compute; reflexivity.
  - split.
    + exists 3. split; vm_compute; reflexivity.
    + intros [|[|[|i]]] rec name [= <- <-]; split; vm_compute; reflexivity.
Defined.

(** C3, at a header that breaks it.  The cache of the scenario, with
    the function table placed by its header at offset 173, which is not
    aligned, and given the size 2, less than a word: the header is read
    and accepted, [checkSectionOffsetAndSize] succeeds on it, and the
    open, which then reads the count of the function table in a buffer
    of two bytes, neither returns null nor returns at all.  The check
    succeeds as well when the header places the function table at
    [0x100000], far beyond the 4112 bytes of the file. *)
Theorem checkSectionOffsetAndSize_misses_func_table :
  func_table_offset (file_header short_func_table_file) = 173
  ∧ func_table_size (file_header short_func_table_file) = 2
  ∧ mFileSize (after 4 short_func_table_file) = 4112
  ∧ mpHeader (after 4 short_func_table_file)
    = Some (take 92 (contents short_func_table_file))
  ∧ checkSectionOffsetAndSize (after 4 short_func_table_file)
    = Done (true, after 4 short_func_table_file)
  ∧ readCacheFile (Some short_func_table_file)
      (reader short_func_table_file expected) = Undefined
  ∧ func_table_offset (file_header lost_func_table_file) = 0x100000
  ∧ mFileSize (after 4 lost_func_table_file) = 4112
  ∧ checkSectionOffsetAndSize (after 4 lost_func_table_file)
    = Done (true, after 4 lost_func_table_file).
Proof.
  split; [vm_compute; reflexivity|]. split; [vm_compute; reflexivity|].
  split; [vm_compute; reflexivity|]. split; [vm_compute; reflexivity|].
  split; [vm_compute; reflexivity|]. split; [vm_compute; reflexivity|].
  split; [vm_compute; reflexivity|]. split; vm_compute; reflexivity.
Qed.

(** C2, at a cache that breaks it.  The cache of the scenario with one
    pragma whose key index is 7, in a string pool of two entries: every
    section has the size its header says, the index is out of range,
    and the open does not fail: it indexes the pool out of bounds.  So
    do the caches with the name of the dependency at index 9 and the
    name of the function at index 5. *)
Lemma index_validation_counterexample :
  ov_at as_PragmaList (sec_pragma_list wild_pragma) 0 = Some wild_pragma_record
  ∧ mStringPool (result_of (after 11 wild_pragma_file)) = [20; 27]
  ∧ ¬ index_in_pool (result_of (after 11 wild_pragma_file))
        (key_strp_index wild_pragma_record)
  ∧ readCacheFile (Some wild_pragma_file) (reader wild_pragma_file expected)
    = Undefined
  ∧ (¬ ∃ s', readCacheFile (Some wild_pragma_file)
               (reader wild_pragma_file expected) = Done (None, s'))
  ∧ readCacheFile (Some wild_dependency_file)
      (reader wild_dependency_file expected) = Undefined
  ∧ readCacheFile (Some wild_function_file)
      (reader wild_function_file expected) = Undefined.
Proof.
  assert (readCacheFile (Some wild_pragma_file)
            (reader wild_pragma_file expected) = Undefined) as E
    by (vm_compute; reflexivity).
  split; [vm_compute; reflexivity|]. split; [vm_compute; reflexivity|].
  split; [intros [_ H]; vm_compute in H; discriminate|].
  split; [exact E|]. split; [rewrite E; by intros [? [=]]|].
  split; vm_compute; reflexivity.
Qed.

Lemma string_pool_index_unchecked_witness :
  readPragmaList (after 11 wild_pragma_file) = Undefined.
Proof.
  destruct (string_pool_index_unchecked (after 11 wild_pragma_file)
              (result_of (after 11 wild_pragma_file)))
    as (_ & Hpragma & _).
  { vm_compute. reflexivity. }
  destruct (Hpragma (sec_pragma_list wild_pragma) [wild_pragma_record])
    as [_ Hout].
  - exists (header_of (after 11 wild_pragma_file)),
      (set_position 168 wild_pragma_file).
    split; [vm_compute; reflexivity|]. split; [vm_compute; reflexivity|].
    split; [vm_compute; discriminate|]. split; [vm_compute; discriminate|].
    split; [vm_compute; discriminate|]. split; vm_compute; reflexivity.
  - split.
    + exists 1. split; vm_compute; reflexivity.
    + intros [|i] p [= <-]. vm_compute. reflexivity.
  - apply (Hout 0%nat wild_pragma_record).
    + reflexivity.
    + constructor.
    + intros [[_ H] _]. vm_compute in H. discriminate.
Defined.

End Examples.

(** * More properties on the host [ILP32] *)

Section MoreExamples.
Import ILP32 Cases MoreCases.

Lemma readCacheFile_success_trace_witness :
  ∃ f, mFile scenario_reader = Some f
       ∧ events scenario_opened.2
         = events scenario_reader ++ open_trace (getFD f) (file_header f).
Proof.
  apply (readCacheFile_success_trace (Some scenario_file) scenario_reader
           scenario_artifact).
  vm_compute. reflexivity.
Defined.

Lemma readCacheFile_ignores_argument_witness :
  readCacheFile (Some scenario_file) scenario_reader
  = readCacheFile (Some big_endian_file) scenario_reader.
Proof.
  apply (readCacheFile_ignores_argument (Some scenario_file)
           (Some big_endian_file) scenario_reader).
  - exists scenario_file. split; [reflexivity|]. vm_compute. discriminate.
  - exists big_endian_file. split; [reflexivity|]. vm_compute. discriminate.
Defined.

Lemma readCacheFile_out_of_memory_witness :
  ∃ s', readCacheFile (Some scenario_file) out_of_memory = Done (None, s')
        ∧ mpResult s' = None.
Proof.
  destruct (readCacheFile_out_of_memory (Some scenario_file) out_of_memory)
    as (s' & E & Hres & _).
  - exists scenario_file. split; [reflexivity|]. vm_compute. discriminate.
  - reflexivity.
  - exists s'. split; [exact E|exact Hres].
Defined.

Lemma checkFileSize_iff_witness :
  ∃ s', checkFileSize scenario_reader = Done (true, s').
Proof.
  destruct (checkFileSize_iff scenario_reader scenario_file) as [Hiff _].
  - reflexivity.
  - apply Hiff. vm_compute. repeat split; discriminate.
Defined.

Lemma readHeader_iff_witness :
  ∃ s', readHeader scenario_reader = Done (true, s').
Proof.
  destruct (readHeader_iff scenario_reader scenario_file) as [Hiff _].
  - reflexivity.
  - vm_compute. discriminate.
  - apply Hiff. split; [vm_compute; discriminate|].
    split; [vm_compute; discriminate|vm_compute; discriminate].
Defined.

Lemma checkHeader_iff_witness :
  checkHeader (after 2 scenario_file) = Done (true, after 2 scenario_file).
Proof.
  destruct (checkHeader_iff (after 2 scenario_file)
              (header_of (after 2 scenario_file))) as [Hiff _].
  - vm_compute. reflexivity.
  - apply Hiff. split; vm_compute; reflexivity.
Defined.

Lemma checkSectionOffsetAndSize_iff_witness :
  ∃ s', checkSectionOffsetAndSize (after 4 scenario_file) = Done (true, s').
Proof.
  destruct (checkSectionOffsetAndSize_iff (after 4 scenario_file)
              (header_of (after 4 scenario_file))) as [Hiff _].
  - vm_compute. reflexivity.
  - apply Hiff.
    split; [|split; [|split; [|split; [|split; [|split]]]]].
    1-6: (split; [split; [|split; [|split]]|]; vm_compute;
          (reflexivity || discriminate)).
    split; [|split; [|split; [|split]]]; vm_compute;
      (reflexivity || discriminate).
Defined.

Lemma readDependencyTable_outcome_witness :
  ∃ b s', readDependencyTable (after 7 scenario_file) = Done (b, s').
Proof.
  destruct (readDependencyTable_outcome (after 7 scenario_file)
              (header_of (after 7 scenario_file))
              (file_of (after 7 scenario_file)))
    as (b & s' & E & _).
  - vm_compute. reflexivity.
  - vm_compute. reflexivity.
  - exists b, s'. exact E.
Defined.

Lemma readExportLists_outcome_witness :
  ∃ b s', readExportVarList (after 9 scenario_file) = Done (b, s').
Proof.
  destruct (readExportLists_outcome (after 9 scenario_file)
              (header_of (after 9 scenario_file))
              (file_of (after 9 scenario_file))
              (result_of (after 9 scenario_file)))
    as [(b & s' & E & _) _].
  - vm_compute. reflexivity.
  - vm_compute. reflexivity.
  - vm_compute. reflexivity.
  - exists b, s'. exact E.
Defined.

Lemma readStringPool_loads_witness :
  (∃ s', readStringPool (after 5 scenario_file) = Done (true, s')
         ∧ pool_loaded s' (sec_str_pool scenario) scenario_strings)
  ∧ readStringPool (after 5 long_pool_file) = Undefined.
Proof.
  split.
  - destruct (readStringPool_loads (after 5 scenario_file)
                (sec_str_pool scenario)
                (result_of (after 5 scenario_file))) as [Hloads _].
    + exists (header_of (after 5 scenario_file)),
        (file_of (after 5 scenario_file)).
      split; [vm_compute; reflexivity|]. split; [vm_compute; reflexivity|].
      split; [vm_compute; discriminate|]. split; [vm_compute; discriminate|].
      split; [vm_compute; discriminate|]. split; vm_compute; reflexivity.
    + vm_compute. reflexivity.
    + destruct (Hloads scenario_strings) as (s' & hb & E & _ & Hl & _).
      * split.
        -- exists 2. split; vm_compute; reflexivity.
        -- intros [|[|i]] e [= <-]; vm_compute; reflexivity.
      * exists s'. split; [exact E|]. apply Hl. vm_compute. reflexivity.
  - destruct (readStringPool_loads (after 5 long_pool_file)
                (section_bytes (file_of (after 5 long_pool_file)) 92 32)
                (result_of (after 5 long_pool_file))) as (_ & Hout & _).
    + exists (header_of (after 5 long_pool_file)),
        (file_of (after 5 long_pool_file)).
      split; [vm_compute; reflexivity|]. split; [vm_compute; reflexivity|].
      split; [vm_compute; discriminate|]. split; [vm_compute; discriminate|].
      split; [vm_compute; discriminate|]. split; vm_compute; reflexivity.
    + vm_compute. reflexivity.
    + apply Hout. intros (es & (count & Hcount & Hn) & Hat).
      vm_compute in Hcount. injection Hcount as <-.
      destruct (lookup_lt_is_Some_2 es 10) as [e He].
      { rewrite <- Hn. vm_compute. lia. }
      specialize (Hat _ _ He). vm_compute in Hat. discriminate.
Defined.

Lemma checkStringPool_bounds_strings_witness :
  ∃ name,
    pool_string (result_of (after 6 scenario_file)) 1 = Some name
    ∧ list_ascii_of_string name
      `prefix_of` declared_bytes (sec_str_pool scenario)
                    {| str_length := 4; str_offset := 27 |}.
Proof.
  destruct (checkStringPool_bounds_strings (after 6 scenario_file)
              (sec_str_pool scenario) scenario_strings
              (result_of (after 6 scenario_file)) (after 7 scenario_file))
    with (i := 1%nat) (e := {| str_length := 4; str_offset := 27 |})
    as (name & Hname & Hpre & _).
  - exists (result_of (after 6 scenario_file)).
    split; [vm_compute; reflexivity|]. split; [vm_compute; reflexivity|].
    split; [|vm_compute; reflexivity]. split.
    + exists 2. split; vm_compute; reflexivity.
    + intros [|[|i]] e [= <-]; vm_compute; reflexivity.
  - vm_compute. reflexivity.
  - vm_compute. reflexivity.
  - reflexivity.
  - vm_compute. discriminate.
  - vm_compute. discriminate.
  - exists name. split; [exact Hname|exact Hpre].
Defined.

Lemma readContext_outcome_witness :
  ∃ s', readContext (after 13 scenario_file) = Done (true, s').
Proof.
  destruct (readContext_outcome (after 13 scenario_file)
              (header_of (after 13 scenario_file))
              (file_of (after 13 scenario_file))
              (result_of (after 13 scenario_file))) as [E _].
  - vm_compute. reflexivity.
  - vm_compute. reflexivity.
  - vm_compute. reflexivity.
  - eexists. exact E.
Defined.

Lemma checkContext_misses_paired_flips_witness :
  ∃ s', checkContext
          (with_context
             (flip_context_bit 4 3 (flip_context_bit 0 3 (zeros 16)))
             (after 14 scenario_file)) = Done (true, s').
Proof.
  destruct (checkContext_misses_paired_flips (after 14 scenario_file)
              (header_of (after 14 scenario_file))
              (result_of (after 14 scenario_file)) (zeros 16) 0 4 3)
    with (b := true) as [Hflip _].
  - vm_compute. reflexivity.
  - vm_compute. reflexivity.
  - vm_compute. reflexivity.
  - vm_compute. reflexivity.
  - vm_compute. reflexivity.
  - vm_compute. lia.
  - vm_compute. lia.
  - lia.
  - reflexivity.
  - apply Hflip. eexists. vm_compute. reflexivity.
Defined.

Lemma checkContext_accepts_one_checksum_witness :
  ∃ s', checkContext (after 14 scenario_file) = Done (true, s').
Proof.
  destruct (checkContext_accepts_one_checksum (after 14 scenario_file)
              (header_of (after 14 scenario_file))
              (result_of (after 14 scenario_file)) (zeros 16))
    as [_ Hone].
  - vm_compute. reflexivity.
  - vm_compute. reflexivity.
  - vm_compute. reflexivity.
  - vm_compute. reflexivity.
  - apply Hone. vm_compute. reflexivity.
Defined.

Lemma readCacheFile_artifact_witness :
  ∃ f, mFile scenario_reader = Some f
       ∧ mContext scenario_artifact
         = Some (context_block f (context_offset (file_header f)))
       ∧ mpResult scenario_opened.2 = None.
Proof.
  destruct (readCacheFile_artifact (Some scenario_file) scenario_reader
              scenario_artifact scenario_opened.2)
    as (f & Hf & _ & _ & _ & Hctx & Hres & _).
  - vm_compute. reflexivity.
  - exists f. split; [exact Hf|]. split; [exact Hctx|exact Hres].
Defined.

End MoreExamples.

Section DriverExamples.
Import Driver Toy.

Lemma PrepareRSScript_script_witness :
  ∃ w', PrepareRSScript ["a.bc"; "b.bc"]%string fresh
        = Done (Some ["a.bc"; "b.bc"]%string, w').
Proof.
  apply (proj1 (PrepareRSScript_script ["a.bc"; "b.bc"]%string fresh
                  ["a.bc"; "b.bc"]%string)).
  split; [vm_compute; reflexivity|]. vm_compute. discriminate.
Defined.

Lemma PrepareRSScript_stops_at_failure_witness :
  ∃ w' n path message,
    PrepareRSScript ["a.bc"; "missing.bc"; "c.bc"]%string fresh
    = Done (None, w')
    ∧ ["a.bc"; "missing.bc"; "c.bc"]%string !! n = Some path
    ∧ loaded (trace w')
      = loaded (trace fresh) ++ take (S n) ["a.bc"; "missing.bc"; "c.bc"]%string
    ∧ messages (trace w') = messages (trace fresh) ++ [message]
    ∧ (n = 0%nat
       ∨ is_Some (script_of (take n ["a.bc"; "missing.bc"; "c.bc"]%string))
         ∧ head (nothrow fresh) ≠ Some false).
Proof.
  destruct (PrepareRSScript_stops_at_failure
              ["a.bc"; "missing.bc"; "c.bc"]%string fresh)
    as (r & w' & E & _ & Hstop).
  vm_compute in E. injection E as <- <-.
  destruct Hstop as (n & path & message & Hp & Hlo & Hme & Hbefore & _);
    [reflexivity|discriminate|].
  eexists _, n, path, message. split; [vm_compute; reflexivity|].
  split; [exact Hp|]. split; [exact Hlo|]. split; [exact Hme|exact Hbefore].
Defined.

Lemma main_exit_code_witness :
  ∃ script output,
    script_of ["a.bc"; "b.bc"]%string = Some script
    ∧ loaded (trace (ran (options ["a.bc"; "b.bc"]%string)))
      = ["a.bc"; "b.bc"]%string
    ∧ builds (trace (ran (options ["a.bc"; "b.bc"]%string)))
      = [Build script output "/rt/libclcore.bc" false].
Proof.
  apply (main_exit_code (options ["a.bc"; "b.bc"]%string) fresh EXIT_SUCCESS
           (ran (options ["a.bc"; "b.bc"]%string))).
  vm_compute. reflexivity.
Defined.

Lemma main_accepted_witness :
  main (options ["a.bc"; "missing.bc"]%string) fresh = Undefined.
Proof.
  apply (main_accepted (options ["a.bc"; "missing.bc"]%string) fresh
           "out.o").
  - split; [reflexivity|]. split; [vm_compute; discriminate|].
    split; reflexivity.
  - left. reflexivity.
Defined.

Lemma main_rejects_witness :
  (∃ w' message,
     main (no_runtime ["a.bc"]%string) fresh = Done (EXIT_FAILURE, w')
     ∧ messages (trace w') = [message])
  ∧ (∃ w' message,
       main no_output fresh = Done (EXIT_FAILURE, w')
       ∧ messages (trace w') = [message]).
Proof.
  split.
  - destruct (main_rejects (no_runtime ["a.bc"]%string) fresh)
      as (w' & message & E & Hm & _).
    + left. reflexivity.
    + exists w', message. split; [exact E|exact Hm].
  - destruct (main_rejects no_output fresh) as (w' & message & E & Hm & _).
    + right. right. right. split; [reflexivity|].
      exists "gone/a.bc"%string, "No such file or directory"%string.
      split; reflexivity.
    + exists w', message. split; [exact E|exact Hm].
Defined.

Lemma ConfigCompiler_levels_witness :
  ConfigCompiler (with_OptOptLevel "s" (options ["a.bc"]%string)) fresh
  = ConfigCompiler (with_OptOptLevel "2" (options ["a.bc"]%string)) fresh.
Proof.
  apply (ConfigCompiler_levels (options ["a.bc"]%string) "s" EmptyString
           fresh); discriminate.
Defined.

Lemma main_ignores_options_witness :
  main (with_OptC true (options ["a.bc"]%string)) fresh
  = main (options ["a.bc"]%string) fresh.
Proof.
  apply (main_ignores_options (options ["a.bc"]%string) false EmptyString).
  left. reflexivity.
Defined.

End DriverExamples.
